(** * SOC matching engine: a shallow embedding and its verified properties

    The development follows the SOC matching engine of the server: the
    tokenizer, the inverted index built when the module is loaded,
    [matchSocCodes], [matchSocCodesWithAI] and the route
    [POST /api/soc/match].

    Modelling conventions.
    - A JavaScript string is a [string] of 8-bit code units, read as the
      Latin-1 range of UTF-16; [toLowerCase] and the character classes of
      the regular expressions are written out on that range.
    - A JavaScript [Map] is an insertion-ordered association list with one
      binding per key ([JsMap]); a [Set] of strings is a duplicate-free list
      in insertion order ([JsSet]).  Iteration order is the list order.
    - JavaScript numbers are kept behind the interface [Number].  The
      instance [R_number] reads them as real numbers, [Math.log] being
      [ln]: arithmetic is exact there, so rounding error is left out, and
      no score is [NaN] or infinite.  Statements that hold for any
      arithmetic are proved for every instance.
    - [Array.prototype.sort] is stable; it is modelled by a stable insertion
      sort driven by the sign of the comparator.
    - Code that can throw runs in the [completion] monad; [try]/[catch] is a
      match on the completion.  What the network does is a parameter
      ([FetchOutcome]), and so is [JSON.parse]. *)

From Stdlib Require Import String Ascii List Bool Arith ZArith Lia.
From Stdlib Require Import Reals Lra Sorted Permutation.
From Stdlib Require Import Floats.PrimFloat.
Import ListNotations.
Set Warnings "-register-all".
Open Scope string_scope.
Open Scope list_scope.
Open Scope nat_scope.

(** ** JavaScript strings *)

Module JsString.

(** [c] is in the character class a-z0-9. *)
Definition isAlnum (c : ascii) : bool :=
  let n := nat_of_ascii c in
  ((97 <=? n) && (n <=? 122)) || ((48 <=? n) && (n <=? 57)).

(** [c] is in the character class \s: tab, line feed, vertical tab, form
    feed, carriage return, space and no-break space. *)
Definition isSpace (c : ascii) : bool :=
  let n := nat_of_ascii c in
  ((9 <=? n) && (n <=? 13)) || (n =? 32) || (n =? 160).

(** Lower-casing of one code unit: A-Z, and the Latin-1 capitals
    (192..222 without the multiplication sign 215). *)
Definition toLowerChar (c : ascii) : ascii :=
  let n := nat_of_ascii c in
  if ((65 <=? n) && (n <=? 90))
     || ((192 <=? n) && (n <=? 222) && negb (n =? 215))
  then ascii_of_nat (n + 32)
  else c.

Fixpoint mapChars (f : ascii -> ascii) (s : string) : string :=
  match s with
  | EmptyString => EmptyString
  | String c s' => String (f c) (mapChars f s')
  end.

(** [text.toLowerCase()] *)
Definition toLowerCase (s : string) : string := mapChars toLowerChar s.

(** [text.replace(/[^a-z0-9\s]/g, ' ')] *)
Definition replaceNonAlnum (s : string) : string :=
  mapChars (fun c => if isAlnum c || isSpace c then c else " "%char) s.

Definition startsWithSpace (s : string) : bool :=
  match s with
  | EmptyString => false
  | String c _ => isSpace c
  end.

(** [text.split(/\s+/)].  The result is never empty: its head is the piece
    in progress.  A run of white space closes the piece before it, so white
    space at either end of the text leaves an empty piece there, and the
    empty text splits into one empty piece. *)
Fixpoint split (s : string) : list string :=
  match s with
  | EmptyString => [EmptyString]
  | String c s' =>
      if isSpace c then
        if startsWithSpace s' then split s' else EmptyString :: split s'
      else
        match split s' with
        | w :: ws => String c w :: ws
        | [] => [String c EmptyString]
        end
  end.

(** [s.includes(t)]: [t] occurs in [s] as a contiguous substring. *)
Fixpoint includes (s t : string) : bool :=
  String.prefix t s ||
  match s with
  | EmptyString => false
  | String _ s' => includes s' t
  end.

(** [list.join(sep)] *)
Definition join (sep : string) (l : list string) : string :=
  String.concat sep l.

End JsString.

(** ** The tokenizer *)

Definition STOP_WORDS : list string :=
  [ "the"; "and"; "for"; "are"; "but"; "not"; "you"; "all"; "can"; "had";
    "her"; "was"; "one"; "our"; "out"; "has"; "have"; "from"; "with"; "they";
    "been"; "this"; "that"; "will"; "each"; "make"; "like"; "than"; "them";
    "then"; "its"; "over"; "such"; "other"; "into"; "more"; "some"; "very";
    "when"; "what"; "also"; "only"; "just"; "about"; "which" ].

(** [STOP_WORDS.has(w)] *)
Definition STOP_WORDS_has (w : string) : bool :=
  existsb (String.eqb w) STOP_WORDS.

(** The filter predicate [w => w.length > 2 && !STOP_WORDS.has(w)]. *)
Definition keepToken (w : string) : bool :=
  (2 <? String.length w) && negb (STOP_WORDS_has w).

Definition tokenize (text : string) : list string :=
  filter keepToken
    (JsString.split (JsString.replaceNonAlnum (JsString.toLowerCase text))).

(** ** JavaScript collections *)

(** A [Set] of strings, iterated in insertion order. *)
Module JsSet.

Definition t := list string.

Definition empty : t := [].

Definition has (s : t) (x : string) : bool := existsb (String.eqb x) s.

(** [s.add(x)]: a member keeps its place, a new value goes last. *)
Definition add (s : t) (x : string) : t := if has s x then s else s ++ [x].

Definition size (s : t) : nat := length s.

End JsSet.

(** A [Map] with string keys, iterated in insertion order. *)
Module JsMap.
Section Ops.
Context {V : Type}.

Definition t := list (string * V).

Definition empty : t := [].

(** [m.get(k)]; [None] stands for [undefined]. *)
Fixpoint get (m : t) (k : string) : option V :=
  match m with
  | [] => None
  | (k', v) :: m' => if String.eqb k' k then Some v else get m' k
  end.

Definition has (m : t) (k : string) : bool :=
  match get m k with Some _ => true | None => false end.

(** [m.set(k, v)]: a bound key keeps its place, a new key goes last. *)
Fixpoint set (m : t) (k : string) (v : V) : t :=
  match m with
  | [] => [(k, v)]
  | (k', v') :: m' =>
      if String.eqb k' k then (k', v) :: m' else (k', v') :: set m' k v
  end.

(** A mutation [f] of the object stored under [k] (as in [m.get(k).add(x)]);
    nothing changes when [k] is unbound. *)
Definition update (m : t) (k : string) (f : V -> V) : t :=
  match get m k with
  | Some v => set m k (f v)
  | None => m
  end.

Definition keys (m : t) : list string := map fst m.

(** [[...m.entries()]] *)
Definition entries (m : t) : list (string * V) := m.

End Ops.
Arguments t : clear implicits.
End JsMap.

(** [array.slice(0, end)] for an integer [end]: a negative [end] counts from
    the end of the array. *)
Definition slice0 {A : Type} (l : list A) (end_ : Z) : list A :=
  let len := Z.of_nat (length l) in
  let final := if (end_ <? 0)%Z then Z.max (len + end_) 0 else Z.min end_ len in
  firstn (Z.to_nat final) l.

(** [array.sort(cmp)]: the sort is stable, and [cmp x y] tells by its sign
    whether [x] goes before ([Lt]) or after ([Gt]) [y].  Each element is
    inserted in front of the sorted rest and moves right only past elements
    it has to follow, so elements that compare equal keep their order. *)
Section Sort.
Context {A : Type} (cmp : A -> A -> comparison).

Fixpoint insertSorted (x : A) (l : list A) : list A :=
  match l with
  | [] => [x]
  | y :: l' =>
      match cmp x y with
      | Gt => y :: insertSorted x l'
      | _ => x :: l
      end
  end.

Fixpoint sort (l : list A) : list A :=
  match l with
  | [] => []
  | x :: l' => insertSorted x (sort l')
  end.

End Sort.

(** ** Numbers *)

(** The operations the matcher needs from JavaScript numbers.  [n_sign]
    reads the sign of a comparator result. *)
Class Number : Type := {
  num : Type;
  ofNat : nat -> num;
  n_add : num -> num -> num;
  n_sub : num -> num -> num;
  n_mul : num -> num -> num;
  n_div : num -> num -> num;
  Math_log : num -> num;
  Math_round : num -> num;
  n_sign : num -> comparison
}.

Definition R_sign (x : R) : comparison :=
  match total_order_T x 0 with
  | inleft (left _) => Lt
  | inleft (right _) => Eq
  | inright _ => Gt
  end.

(** [Math.round]: the nearest integer, a tie going up. *)
Definition R_round (x : R) : R := IZR (Zfloor (x + / 2)).

(** Numbers as real numbers.  The reals idealise the double-precision
    numbers of the engine: sums that are equal over the reals can differ in
    the last bit there.  What is said about the order of the result is
    therefore stated for every instance with the order laws of
    [NumberOrder], and the weights of the index for every instance. *)
#[export] Instance R_number : Number := {|
  num := R;
  ofNat := INR;
  n_add := Rplus;
  n_sub := Rminus;
  n_mul := Rmult;
  n_div := Rdiv;
  Math_log := ln;
  Math_round := R_round;
  n_sign := R_sign
|}.

(** ** Data model *)

(** One record of [soc_codes.json].  A group label that is absent is the
    empty string, which is what [soc.majorGroup || ''] makes of it. *)
Record OccupationEntry : Type := {
  code : string;
  title : string;
  majorGroup : string;
  minorGroup : string;
  broadGroup : string
}.

(** The [program] object of a request; [None] is an absent field. *)
Record ProgramData : Type := {
  name : option string;
  longName : option string;
  programCode : option string;
  cipCode : option string;
  type : option string;
  degreeDesignation : option string;
  college : option string;
  level : option string
}.

(** ** The inverted index *)

Record Index : Type := {
  socIndex : JsMap.t JsSet.t;          (* keyword -> Set of codes *)
  socByCode : JsMap.t OccupationEntry  (* code -> entry *)
}.

Definition emptyIndex : Index :=
  {| socIndex := JsMap.empty; socByCode := JsMap.empty |}.

(** The bigrams of a token list: [tokens[i] + '_' + tokens[i + 1]] for
    every [i < tokens.length - 1]. *)
Fixpoint bigramsOf (tokens : list string) : list string :=
  match tokens with
  | a :: (b :: _) as rest => (a ++ "_" ++ b)%string :: bigramsOf rest
  | _ => []
  end.

(** The template string [title majorGroup minorGroup broadGroup]. *)
Definition allText (soc : OccupationEntry) : string :=
  (title soc ++ " " ++ majorGroup soc ++ " " ++ minorGroup soc ++ " "
   ++ broadGroup soc)%string.

(** Body of the inner loop: make sure [token] is a key, then add the code to
    its set. *)
Definition indexToken (c : string) (idx : JsMap.t JsSet.t) (token : string)
  : JsMap.t JsSet.t :=
  let idx1 := if negb (JsMap.has idx token)
              then JsMap.set idx token JsSet.empty else idx in
  JsMap.update idx1 token (fun s => JsSet.add s c).

(** Body of the build loop for one entry. *)
Definition indexEntry (ix : Index) (soc : OccupationEntry) : Index :=
  let byCode := JsMap.set (socByCode ix) (code soc) soc in
  let tokens := tokenize (allText soc) in
  let bigrams := bigramsOf tokens in
  {| socIndex := fold_left (indexToken (code soc)) (tokens ++ bigrams)
                   (socIndex ix);
     socByCode := byCode |}.

(** The index as it stands once the module is loaded. *)
Definition buildIndex (socCodes : list OccupationEntry) : Index :=
  fold_left indexEntry socCodes emptyIndex.

(** ** Local matching *)

(** [list.filter(Boolean)] on optional strings: absent and empty fields go. *)
Definition filterBoolean (l : list (option string)) : list string :=
  flat_map (fun o => match o with
                     | Some s => if String.eqb s "" then [] else [s]
                     | None => []
                     end) l.

Definition queryTextOf (programData : ProgramData) : string :=
  JsString.join " "
    (filterBoolean [longName programData; name programData; type programData;
                    degreeDesignation programData; college programData;
                    level programData]).

(** One entry of the ranked result: the fields of [socByCode.get(code)]
    spread into the object ([None] when the code is unbound, which spreads
    nothing) and the rounded score. *)
Record ScoredMatch {N : Number} : Type := {
  entryFields : option OccupationEntry;
  relevanceScore : num
}.

Section Matcher.
Context {N : Number}.

(** [(scores.get(code) || 0)] *)
Definition orZero (o : option num) : num :=
  match o with
  | Some s => s
  | None => ofNat 0
  end.

(** [scores.set(code, (scores.get(code) || 0) + weight)] *)
Definition addScore (weight : num) (scores : JsMap.t num) (c : string)
  : JsMap.t num :=
  JsMap.set scores c (n_add (orZero (JsMap.get scores c)) weight).

(** The unigram loop: every query token that is a key of the index adds
    its weight to each code of its set. *)
Definition scoreTokens (idx : JsMap.t JsSet.t) (total : nat)
  (queryTokens : list string) (scores : JsMap.t num) : JsMap.t num :=
  fold_left
    (fun scores token =>
       match JsMap.get idx token with
       | None => scores
       | Some matches =>
           let weight :=
             Math_log (n_div (ofNat total) (ofNat (JsSet.size matches))) in
           fold_left (addScore weight) matches scores
       end)
    queryTokens scores.

(** The bigram loop: the same weight, doubled. *)
Definition scoreBigrams (idx : JsMap.t JsSet.t) (total : nat)
  (queryBigrams : list string) (scores : JsMap.t num) : JsMap.t num :=
  fold_left
    (fun scores bigram =>
       match JsMap.get idx bigram with
       | None => scores
       | Some matches =>
           let weight :=
             n_mul (Math_log (n_div (ofNat total) (ofNat (JsSet.size matches))))
                   (ofNat 2) in
           fold_left (addScore weight) matches scores
       end)
    queryBigrams scores.

(** The counting loop over the title tokens. *)
Definition countTitleMatches (queryLower : string) (titleTokens : list string)
  : nat :=
  fold_left
    (fun titleMatchCount t =>
       if JsString.includes queryLower t then S titleMatchCount
       else titleMatchCount)
    titleTokens 0.

(** The bonus [matchRatio * 10] with
    [matchRatio = titleMatchCount / titleTokens.length]. *)
Definition titleBonus (titleMatchCount totalTitleTokens : nat) : num :=
  n_mul (n_div (ofNat titleMatchCount) (ofNat totalTitleTokens)) (ofNat 10).

(** Body of the title loop for one entry. *)
Definition scoreTitle (queryLower : string) (scores : JsMap.t num)
  (soc : OccupationEntry) : JsMap.t num :=
  let titleTokens := tokenize (title soc) in
  let titleMatchCount := countTitleMatches queryLower titleTokens in
  if 0 <? titleMatchCount then
    addScore (titleBonus titleMatchCount (length titleTokens)) scores (code soc)
  else scores.

(** The score map after the unigram and bigram loops. *)
Definition indexScores (socCodes : list OccupationEntry)
  (programData : ProgramData) : JsMap.t num :=
  let idx := socIndex (buildIndex socCodes) in
  let queryTokens := tokenize (queryTextOf programData) in
  let queryBigrams := bigramsOf queryTokens in
  scoreBigrams idx (length socCodes) queryBigrams
    (scoreTokens idx (length socCodes) queryTokens JsMap.empty).

(** The score map after the three loops, as it is when it is sorted. *)
Definition accumulatedScores (socCodes : list OccupationEntry)
  (programData : ProgramData) : JsMap.t num :=
  let queryLower := JsString.toLowerCase (queryTextOf programData) in
  fold_left (scoreTitle queryLower) socCodes
    (indexScores socCodes programData).

(** The comparator [(a, b) => b[1] - a[1]], read by its sign. *)
Definition byScoreDesc (a b : string * num) : comparison :=
  n_sign (n_sub (snd b) (snd a)).

(** The pairs that survive [.sort(...).slice(0, topN)]. *)
Definition rankedScores (socCodes : list OccupationEntry)
  (programData : ProgramData) (topN : Z) : list (string * num) :=
  slice0
    (sort byScoreDesc (JsMap.entries (accumulatedScores socCodes programData)))
    topN.

(** The callback of the final [map]. *)
Definition toScoredMatch (byCode : JsMap.t OccupationEntry)
  (entry : string * num) : ScoredMatch :=
  let (c, score) := entry in
  {| entryFields := JsMap.get byCode c;
     relevanceScore :=
       n_div (Math_round (n_mul score (ofNat 100))) (ofNat 100) |}.

(** [matchSocCodes(programData, topN)] over the index built from
    [socCodes]. *)
Definition matchSocCodes (socCodes : list OccupationEntry)
  (programData : ProgramData) (topN : Z) : list ScoredMatch :=
  map (toScoredMatch (socByCode (buildIndex socCodes)))
      (rankedScores socCodes programData topN).

End Matcher.

(** The default value of the [topN] parameter. *)
Definition DEFAULT_TOP_N : Z := 10%Z.

(** ** Completions *)

(** The outcome of code that may throw. *)
Inductive completion (A : Type) : Type :=
| Normal (a : A)
| Throw.
Arguments Normal {A} a.
Arguments Throw {A}.

Definition bind {A B : Type} (c : completion A) (k : A -> completion B)
  : completion B :=
  match c with
  | Normal a => k a
  | Throw => Throw
  end.

Notation "x <- c ;; k" := (bind c (fun x => k))
  (at level 61, c at next level, right associativity).

(** [try { body } catch (err) { return handler }] *)
Definition tryCatch {A : Type} (body : completion A) (handler : A) : A :=
  match body with
  | Normal a => a
  | Throw => handler
  end.

Fixpoint mapM {A B : Type} (f : A -> completion B) (l : list A)
  : completion (list B) :=
  match l with
  | [] => Normal []
  | a :: l' => b <- f a ;; bs <- mapM f l' ;; Normal (b :: bs)
  end.

(** ** JSON values *)

(** What [JSON.parse] and [response.json()] produce.  A value of type
    [option json] is a JavaScript value, [None] standing for [undefined]. *)
Inductive json : Type :=
| JNull
| JBool (b : bool)
| JNum (x : float)
| JStr (s : string)
| JArr (items : list json)
| JObj (props : list (string * json)).

Module Js.

(** Truthiness, as [||], [!] and [if] read a value. *)
Definition truthy (v : option json) : bool :=
  match v with
  | None => false
  | Some JNull => false
  | Some (JBool b) => b
  | Some (JNum x) => negb (PrimFloat.is_zero x || PrimFloat.is_nan x)
  | Some (JStr s) => negb (String.eqb s "")
  | Some (JArr _) => true
  | Some (JObj _) => true
  end.

(** [a || b] *)
Definition or (a b : option json) : option json :=
  if truthy a then a else b.

Fixpoint lookup (props : list (string * json)) (k : string) : option json :=
  match props with
  | [] => None
  | (k', v) :: props' => if String.eqb k' k then Some v else lookup props' k
  end.

(** [v.k] for a property name [k] that no prototype defines (the names read
    here are choices, message, content, code, title and reason): reading a
    property of [null] or [undefined] throws, an object gives its own
    property, and any other value gives [undefined]. *)
Definition prop (v : option json) (k : string) : completion (option json) :=
  match v with
  | None => Throw
  | Some JNull => Throw
  | Some (JObj props) => Normal (lookup props k)
  | Some _ => Normal None
  end.

(** [v?.k] *)
Definition optProp (v : option json) (k : string) : completion (option json) :=
  match v with
  | None => Normal None
  | Some JNull => Normal None
  | _ => prop v k
  end.

(** [v?.[0]]: the first item of an array, the first code unit of a string,
    the property named 0 of an object. *)
Definition optFirst (v : option json) : option json :=
  match v with
  | Some (JArr items) => hd_error items
  | Some (JStr (String c _)) => Some (JStr (String c EmptyString))
  | Some (JObj props) => lookup props "0"
  | _ => None
  end.

End Js.

(** ** Matching through the external model *)

(** [content.match(/\[[\s\S]*\]/)]: from the first opening bracket to the
    last closing bracket after it. *)
Fixpoint fromFirstOpen (s : string) : option string :=
  match s with
  | EmptyString => None
  | String c s' => if Ascii.eqb c "["%char then Some s' else fromFirstOpen s'
  end.

Fixpoint throughLastClose (s : string) : option string :=
  match s with
  | EmptyString => None
  | String c s' =>
      match throughLastClose s' with
      | Some p => Some (String c p)
      | None => if Ascii.eqb c "]"%char then Some (String c EmptyString) else None
      end
  end.

Definition matchJsonArray (content : string) : option string :=
  match fromFirstOpen content with
  | None => None
  | Some rest => option_map (String "["%char) (throughLastClose rest)
  end.

(** What the request to the completions endpoint comes to. *)
Inductive FetchOutcome : Type :=
| FetchRejects                (* network error, abort or timeout *)
| BodyRejects                 (* [response.json()] rejects: no JSON body *)
| BodyParsed (data : json).

(** One enriched match of the external model. *)
Module Ai.
Record Match : Type := {
  code : option json;
  title : option json;
  majorGroup : string;
  minorGroup : string;
  broadGroup : string;
  reason : option json;
  source : string;
  verified : bool
}.
End Ai.

Section External.

(** [JSON.parse]; [None] when it throws a [SyntaxError]. *)
Variable JSON_parse : string -> option json.

(** [socByCode.get(m.code)]: only a string can be a bound key. *)
Definition localEntry (byCode : JsMap.t OccupationEntry) (c : option json)
  : option OccupationEntry :=
  match c with
  | Some (JStr s) => JsMap.get byCode s
  | _ => None
  end.

(** The callback of [aiMatches.map]. *)
Definition enrich (byCode : JsMap.t OccupationEntry) (m : json)
  : completion Ai.Match :=
  mcode <- Js.prop (Some m) "code" ;;
  let local := localEntry byCode mcode in
  mtitle <- Js.prop (Some m) "title" ;;
  mreason <- Js.prop (Some m) "reason" ;;
  Normal
    {| Ai.code := mcode;
       Ai.title := Js.or (option_map (fun l => JStr (title l)) local) mtitle;
       Ai.majorGroup := match local with Some l => majorGroup l | None => "" end;
       Ai.minorGroup := match local with Some l => minorGroup l | None => "" end;
       Ai.broadGroup := match local with Some l => broadGroup l | None => "" end;
       Ai.reason := mreason;
       Ai.source := "ai";
       Ai.verified := match local with Some _ => true | None => false end |}.

(** [data.choices?.[0]?.message?.content || ''] *)
Definition responseContent (data : json) : completion (option json) :=
  choices <- Js.prop (Some data) "choices" ;;
  message <- Js.optProp (Js.optFirst choices) "message" ;;
  content <- Js.optProp message "content" ;;
  Normal (Js.or content (Some (JStr ""))).

(** The body of the [try] block, once [fetch] has settled. *)
Definition aiTryBlock (byCode : JsMap.t OccupationEntry)
  (outcome : FetchOutcome) : completion (option (list Ai.Match)) :=
  data <- match outcome with
          | FetchRejects => Throw
          | BodyRejects => Throw
          | BodyParsed data => Normal data
          end ;;
  content <- responseContent data ;;
  match content with
  | Some (JStr text) =>
      match matchJsonArray text with
      | None => Normal None
      | Some jsonMatch =>
          match JSON_parse jsonMatch with
          | None => Throw
          | Some (JArr aiMatches) =>
              enriched <- mapM (enrich byCode) aiMatches ;;
              Normal (Some enriched)
          | Some _ => Throw           (* no [map] method *)
          end
      end
  | _ => Throw                        (* no [match] method *)
  end.

(** [matchSocCodesWithAI(programData, topN)].  The prompt goes out with the
    request and [outcome] is what comes back, so the result depends on the
    program only through [outcome]. *)
Definition matchSocCodesWithAI (OPENAI_API_KEY : string)
  (byCode : JsMap.t OccupationEntry) (outcome : FetchOutcome)
  : option (list Ai.Match) :=
  if String.eqb OPENAI_API_KEY "" then None
  else tryCatch (aiTryBlock byCode outcome) None.

(** ** The route [POST /api/soc/match] *)

Record MatchRequest : Type := {
  program : option ProgramData;
  topN : option Z;
  useAI : option bool
}.

Record MatchResponse {N : Number} : Type := {
  programName : option string;
  programCodeEcho : option string;
  programCipCode : option string;
  localMatches : list ScoredMatch;
  aiMatches : option (list Ai.Match);
  aiAvailable : bool
}.

Inductive HttpResponse {N : Number} : Type :=
| Json200 (body : MatchResponse)
| Json400 (error : string)
| Json500.

(** [a || b] on optional strings. *)
Definition orString (a b : option string) : option string :=
  match a with
  | Some s => if String.eqb s "" then b else a
  | None => b
  end.

Definition socMatchBody {N : Number} (OPENAI_API_KEY : string)
  (socCodes : list OccupationEntry) (outcome : FetchOutcome)
  (body : MatchRequest) : completion HttpResponse :=
  match program body with
  | None => Normal (Json400 "program object is required")
  | Some program =>
      let topN := match topN body with Some n => n | None => DEFAULT_TOP_N end in
      let useAI := match useAI body with Some b => b | None => false end in
      let localMatches := matchSocCodes socCodes program topN in
      let aiMatches :=
        if useAI && negb (String.eqb OPENAI_API_KEY "") then
          matchSocCodesWithAI OPENAI_API_KEY
            (socByCode (buildIndex socCodes)) outcome
        else None in
      Normal (Json200
        {| programName := orString (longName program) (name program);
           programCodeEcho := programCode program;
           programCipCode := cipCode program;
           localMatches := localMatches;
           aiMatches := aiMatches;
           aiAvailable := negb (String.eqb OPENAI_API_KEY "") |})
  end.

(** The handler: whatever the [try] block throws becomes a 500 answer. *)
Definition socMatchRoute {N : Number} (OPENAI_API_KEY : string)
  (socCodes : list OccupationEntry) (outcome : FetchOutcome)
  (body : MatchRequest) : HttpResponse :=
  tryCatch (socMatchBody OPENAI_API_KEY socCodes outcome body) Json500.

End External.

(** * The rest of the server *)

(** ** More string and map operations *)

(** [s.trimStart()] and [s.trimEnd()]; white space and line terminators are
    the code units of [isSpace]. *)
Fixpoint trimStart (s : string) : string :=
  match s with
  | EmptyString => EmptyString
  | String c s' => if JsString.isSpace c then trimStart s' else s
  end.

Fixpoint trimEnd (s : string) : string :=
  match s with
  | EmptyString => EmptyString
  | String c s' =>
      match trimEnd s' with
      | EmptyString =>
          if JsString.isSpace c then EmptyString else String c EmptyString
      | rest => String c rest
      end
  end.

(** [s.trim()] *)
Definition trim (s : string) : string := trimEnd (trimStart s).

(** [m.delete(k)] *)
Definition mapDelete {V : Type} (m : JsMap.t V) (k : string) : JsMap.t V :=
  filter (fun kv => negb (String.eqb (fst kv) k)) m.

(** ** Sessions *)

(** 24 hours in milliseconds. *)
Definition SESSION_TTL_MS : Z := (24 * 60 * 60 * 1000)%Z.

(** The session store: token -> expiry timestamp. *)
Definition Sessions : Type := JsMap.t Z.

(** [isValidSession(token)] at the time [now] (the value of [Date.now()]);
    the second component is the session store afterwards. *)
Definition isValidSession (now : Z) (sessions : Sessions)
  (token : option string) : bool * Sessions :=
  match token with
  | None => (false, sessions)
  | Some t =>
      if String.eqb t "" then (false, sessions)
      else
        match JsMap.get sessions t with
        | None => (false, sessions)
        | Some expiry =>
            if (expiry =? 0)%Z then (false, sessions)
            else if (now >? expiry)%Z then (false, mapDelete sessions t)
            else (true, sessions)
        end
  end.

Inductive AuthResponse : Type :=
| AuthToken (token : string) (expiresIn : string)
| AuthError (status : nat) (error : string).

Section Auth.

(** [sha256(str)], the hex digest of the hash, and the configured hash of
    the access code. *)
Variable sha256 : string -> string.
Variable ACCESS_CODE_HASH : string.

(** [POST /api/auth/login] with the [code] of the request body, at the time
    [now]; [randomToken] is what [generateToken()] returns. *)
Definition login (now : Z) (randomToken : string) (sessions : Sessions)
  (codeField : option string) : AuthResponse * Sessions :=
  match codeField with
  | None => (AuthError 400 "Access code is required", sessions)
  | Some accessCode =>
      if String.eqb accessCode "" then
        (AuthError 400 "Access code is required", sessions)
      else
        let hash := sha256 (trim accessCode) in
        if negb (String.eqb hash ACCESS_CODE_HASH) then
          (AuthError 401 "Invalid access code", sessions)
        else
          let token := randomToken in
          (AuthToken token "24h",
           JsMap.set sessions token (now + SESSION_TTL_MS)%Z)
  end.

(** What reaches the session store: a login, or a validity check (by
    [/api/auth/verify] or by [requireAuth]). *)
Inductive AuthEvent : Type :=
| Login (now : Z) (randomToken : string) (codeField : option string)
| Check (now : Z) (token : option string).

Definition authStep (sessions : Sessions) (ev : AuthEvent) : Sessions :=
  match ev with
  | Login now randomToken codeField =>
      snd (login now randomToken sessions codeField)
  | Check now token => snd (isValidSession now sessions token)
  end.

(** The session store after a history of events, from the empty store the
    server starts with. *)
Definition runAuth (events : list AuthEvent) : Sessions :=
  fold_left authStep events JsMap.empty.

End Auth.

(** The outcome of a route behind [requireAuth]. *)
Inductive Guarded (A : Type) : Type :=
| Unauthorized                 (* status 401 *)
| Handled (answer : A).
Arguments Unauthorized {A}.
Arguments Handled {A} answer.

(** [requireAuth(req, res, next)] in front of a handler: the handler runs
    only when the token of the [x-access-token] header is a valid
    session. *)
Definition requireAuth {A : Type} (now : Z) (sessions : Sessions)
  (token : option string) (next : Sessions -> A) : Guarded A * Sessions :=
  let (valid, sessions1) := isValidSession now sessions token in
  if valid then (Handled (next sessions1), sessions1)
  else (Unauthorized, sessions1).

(** ** The .env file *)

(** [content.split('\n')]: the pieces between line feeds. *)
Fixpoint splitLines (s : string) : list string :=
  match s with
  | EmptyString => [EmptyString]
  | String c s' =>
      if Ascii.eqb c (ascii_of_nat 10) then EmptyString :: splitLines s'
      else
        match splitLines s' with
        | line :: lines => String c line :: lines
        | [] => [String c EmptyString]
        end
  end.

(** [s.indexOf(ch)] for a single character; [None] stands for -1. *)
Fixpoint indexOfChar (ch : ascii) (s : string) : option nat :=
  match s with
  | EmptyString => None
  | String c s' =>
      if Ascii.eqb c ch then Some 0 else option_map S (indexOfChar ch s')
  end.

(** [s.slice(0, n)] and [s.slice(n)] for [0 <= n]. *)
Fixpoint takeChars (n : nat) (s : string) : string :=
  match n, s with
  | S n', String c s' => String c (takeChars n' s')
  | _, _ => EmptyString
  end.

Fixpoint dropChars (n : nat) (s : string) : string :=
  match n, s with
  | S n', String _ s' => dropChars n' s'
  | _, _ => s
  end.

(** [process.env], read and written as a map from names to strings. *)
Definition Env : Type := JsMap.t string.

(** [process.env[key] = val]: the environment has no variable with the
    empty name, and an assignment to it is dropped. *)
Definition setEnv (env : Env) (key val : string) : Env :=
  if String.eqb key "" then env else JsMap.set env key val.

(** Body of the loop over the lines of the file. *)
Definition loadEnvLine (env : Env) (line : string) : Env :=
  let trimmed := trim line in
  if String.eqb trimmed "" || String.prefix "#" trimmed then env
  else
    match indexOfChar "=" trimmed with
    | None => env
    | Some eqIdx =>
        let key := trim (takeChars eqIdx trimmed) in
        let val := trim (dropChars (eqIdx + 1) trimmed) in
        match JsMap.get env key with
        | Some (String _ _) => env
        | _ => setEnv env key val
        end
    end.

(** The loader, for the content of an existing .env file. *)
Definition loadEnv (content : string) (env : Env) : Env :=
  fold_left loadEnvLine (splitLines content) env.

(** ** Searching the taxonomy *)

(** A group label as it stands in a record of the taxonomy file: absent,
    [null], or a string. *)
Inductive RawLabel : Type :=
| LabelAbsent
| LabelNull
| Label (s : string).

(** A record of the taxonomy file with its labels as they stand. *)
Record RawEntry : Type := {
  rawCode : string;
  rawTitle : string;
  rawMajorGroup : RawLabel;
  rawMinorGroup : RawLabel;
  rawBroadGroup : RawLabel
}.

(** [label || ''] *)
Definition labelOrEmpty (l : RawLabel) : string :=
  match l with
  | Label s => s
  | _ => EmptyString
  end.

(** A label inside a template string. *)
Definition labelText (l : RawLabel) : string :=
  match l with
  | LabelAbsent => "undefined"
  | LabelNull => "null"
  | Label s => s
  end.

(** The entry as the index build reads it. *)
Definition entryOf (s : RawEntry) : OccupationEntry :=
  {| code := rawCode s; title := rawTitle s;
     majorGroup := labelOrEmpty (rawMajorGroup s);
     minorGroup := labelOrEmpty (rawMinorGroup s);
     broadGroup := labelOrEmpty (rawBroadGroup s) |}.

(** The lower-cased template string
    [code title majorGroup minorGroup broadGroup]. *)
Definition haystack (s : RawEntry) : string :=
  JsString.toLowerCase
    (rawCode s ++ " " ++ rawTitle s ++ " " ++ labelText (rawMajorGroup s)
     ++ " " ++ labelText (rawMinorGroup s) ++ " "
     ++ labelText (rawBroadGroup s))%string.

Record SearchResponse : Type := {
  results : list RawEntry;
  total : nat;
  query : option string        (* absent from the answer to a blank query *)
}.

(** The filter callback: every piece of the query occurs in the haystack. *)
Definition searchHit (q : string) (s : RawEntry) : bool :=
  forallb (fun word => JsString.includes (haystack s) word) (JsString.split q).

(** [GET /api/soc/search?q=...]; [qParam] is [req.query.q]. *)
Definition socSearch (socCodes : list RawEntry) (qParam : option string)
  : SearchResponse :=
  let q := trim (JsString.toLowerCase
                   (match qParam with Some s => s | None => "" end)) in
  if String.eqb q "" then
    {| results := []; total := length socCodes; query := None |}
  else
    let results := firstn 50 (filter (searchHit q) socCodes) in
    {| results := results; total := length results; query := Some q |}.

(** ** The filters of a school *)

Definition SCHOOLS : list (string * string) :=       (* id, label *)
  [ ("stanford", "Stanford University");
    ("ufl", "University of Florida");
    ("arizona", "University of Arizona") ].

(** [unique(field)]: the distinct non-empty values of a field, sorted by
    the default order of [sort], which compares strings code unit by code
    unit. *)
Definition unique (programs : list ProgramData)
  (field : ProgramData -> option string) : list string :=
  sort String.compare
    (fold_left JsSet.add (filterBoolean (map field programs)) JsSet.empty).

Record FiltersResponse : Type := {
  types : list string;
  degreeDesignations : list string;
  colleges : list string;
  levels : list string;
  cipCodes : list string;
  totalPrograms : nat
}.

Inductive FiltersAnswer : Type :=
| SchoolNotFound                   (* status 404 *)
| FiltersOf (body : FiltersResponse).

(** [GET /api/schools/:schoolId/filters] over the loaded [schoolData], a map
    from school ids to the programs of the school. *)
Definition schoolFilters (schoolData : JsMap.t (list ProgramData))
  (schoolId : string) : FiltersAnswer :=
  match find (fun s => String.eqb (fst s) schoolId) SCHOOLS with
  | None => SchoolNotFound
  | Some school =>
      let programs :=
        match JsMap.get schoolData (fst school) with
        | Some ps => ps
        | None => []
        end in
      FiltersOf
        {| types := unique programs type;
           degreeDesignations := unique programs degreeDesignation;
           colleges := unique programs college;
           levels := unique programs level;
           cipCodes := unique programs cipCode;
           totalPrograms := length programs |}
  end.

(** ** Matching and fetching labor-market data in one call *)

(** [a === b] on values that come from different parsed documents: arrays
    and objects are then never the same object. *)
Definition strictEq (a b : option json) : bool :=
  match a, b with
  | None, None => true
  | Some JNull, Some JNull => true
  | Some (JBool x), Some (JBool y) => Bool.eqb x y
  | Some (JNum x), Some (JNum y) => PrimFloat.eqb x y
  | Some (JStr x), Some (JStr y) => String.eqb x y
  | _, _ => false
  end.

(** A match of either source. *)
Inductive AnyMatch {N : Number} : Type :=
| LocalMatch (m : ScoredMatch)
| ExternalMatch (m : Ai.Match).

(** [m.code] *)
Definition anyCode {N : Number} (m : AnyMatch) : option json :=
  match m with
  | LocalMatch m => option_map (fun e => JStr (code e)) (entryFields m)
  | ExternalMatch m => Ai.code m
  end.

(** The body of the request to the labor-market endpoint. *)
Record LmiRequest : Type := {
  socCodesSent : list (option json);
  regionTypeSent : string;
  includeSkillsSent : bool;
  regionSent : option string       (* only a non-empty region is sent *)
}.

(** The flattened labor-market fields of an enriched match. *)
Record LmiFields : Type := {
  medianSalary : option json;
  totalEmployment : option json;
  growthRate : option json;
  demandScore : option json;
  demandFactors : option json;
  degreeLevel : option json
}.

Record EnrichedMatch {N : Number} : Type := {
  baseMatch : AnyMatch;
  lmiData : option json;           (* the occupation or [null] *)
  hasLMI : bool;
  lmiFields : option LmiFields     (* [None]: nothing is flattened *)
}.

Record MatchAndFetchRequest : Type := {
  mfProgram : option ProgramData;
  mfTopN : option Z;
  mfRegionType : option string;
  mfRegion : option string;
  mfUseAI : option bool
}.

Record MatchAndFetchResponse {N : Number} : Type := {
  mfProgramName : option string;
  mfProgramCode : option string;
  mfProgramCipCode : option string;
  mfMatches : list EnrichedMatch;
  lmiRaw : json;
  mfWarnings : option json;
  mfAiAvailable : bool
}.

Inductive MatchAndFetchAnswer {N : Number} : Type :=
| Fetched200 (body : MatchAndFetchResponse)
| Fetched400 (error : string)
| Fetched500.

(** [occupations.find(o => o.socCode === code)] on the items of an array. *)
Fixpoint findOccupation (wanted : option json) (occupations : list json)
  : completion (option json) :=
  match occupations with
  | [] => Normal None
  | o :: rest =>
      socCode <- Js.prop (Some o) "socCode" ;;
      if strictEq socCode wanted then Normal (Some o)
      else findOccupation wanted rest
  end.

(** The flattened fields, read off a truthy [laborMarketData]. *)
Definition flattenLmi (lm : option json) : completion LmiFields :=
  salary <- Js.prop lm "medianAnnualSalary" ;;
  employment <- Js.prop lm "totalEmployment" ;;
  growth <- Js.prop lm "forecastedEmploymentGrowth" ;;
  demand <- Js.prop lm "demand" ;;
  score <- Js.optProp demand "score" ;;
  factors <- Js.optProp demand "factors" ;;
  degree <- Js.prop lm "typicalDegreeLevel" ;;
  Normal {| medianSalary := salary; totalEmployment := employment;
            growthRate := growth; demandScore := score;
            demandFactors := factors; degreeLevel := degree |}.

(** [lmiData.data?.k || []] *)
Definition dataFieldOrEmpty (lmiData : json) (k : string)
  : completion (option json) :=
  data <- Js.prop (Some lmiData) "data" ;;
  field <- Js.optProp data k ;;
  Normal (Js.or field (Some (JArr []))).

Section MatchAndFetch.
Context {N : Number}.
Variable JSON_parse : string -> option json.
Variable OPENAI_API_KEY : string.
Variable socCodes : list OccupationEntry.

(** The callback of [matches.map]: [occupations] is the value of
    [lmiData.data?.matchedOccupations || []]. *)
Definition enrichWithLmi (occupations : option json) (m : AnyMatch)
  : completion EnrichedMatch :=
  occ <- match occupations with
         | Some (JArr items) => findOccupation (anyCode m) items
         | _ => Throw                  (* no [find] method *)
         end ;;
  lm <- Js.optProp occ "laborMarketData" ;;
  fields <- (if Js.truthy lm then
               flat <- flattenLmi lm ;; Normal (Some flat)
             else Normal None) ;;
  Normal {| baseMatch := m;
            lmiData := Js.or occ (Some JNull);
            hasLMI := Js.truthy occ;
            lmiFields := fields |}.

(** The matches the route works with: the local ones, or the external ones
    when they are asked for, a key is set and the call succeeds. *)
Definition chosenMatches (aiOutcome : FetchOutcome)
  (body : MatchAndFetchRequest) (programData : ProgramData)
  : list AnyMatch :=
  let topN := match mfTopN body with Some n => n | None => 5%Z end in
  let useAI := match mfUseAI body with Some b => b | None => false end in
  let matches := map LocalMatch (matchSocCodes socCodes programData topN) in
  if useAI && negb (String.eqb OPENAI_API_KEY "") then
    match matchSocCodesWithAI JSON_parse OPENAI_API_KEY
            (socByCode (buildIndex socCodes)) aiOutcome with
    | Some ai => map ExternalMatch ai
    | None => matches
    end
  else matches.

(** The request body that goes to the labor-market endpoint. *)
Definition lmiRequestOf (body : MatchAndFetchRequest)
  (matches : list AnyMatch) : LmiRequest :=
  {| socCodesSent := map anyCode matches;
     regionTypeSent :=
       match mfRegionType body with Some r => r | None => "national" end;
     includeSkillsSent := true;
     regionSent :=
       match mfRegion body with
       | Some r => if String.eqb r "" then None else Some r
       | None => None
       end |}.

(** The [try] block of [POST /api/soc/match-and-fetch]; [lmi] is what the
    labor-market endpoint does with a request. *)
Definition matchAndFetchBody (aiOutcome : FetchOutcome)
  (lmi : LmiRequest -> FetchOutcome) (body : MatchAndFetchRequest)
  : completion MatchAndFetchAnswer :=
  match mfProgram body with
  | None => Normal (Fetched400 "program object is required")
  | Some programData =>
      let matches := chosenMatches aiOutcome body programData in
      fetched <- match lmi (lmiRequestOf body matches) with
                 | FetchRejects => Throw
                 | BodyRejects => Throw
                 | BodyParsed data => Normal data
                 end ;;
      occupations <- dataFieldOrEmpty fetched "matchedOccupations" ;;
      enrichedMatches <- mapM (enrichWithLmi occupations) matches ;;
      warnings <- dataFieldOrEmpty fetched "warnings" ;;
      Normal (Fetched200
        {| mfProgramName := orString (longName programData) (name programData);
           mfProgramCode := programCode programData;
           mfProgramCipCode := cipCode programData;
           mfMatches := enrichedMatches;
           lmiRaw := fetched;
           mfWarnings := warnings;
           mfAiAvailable := negb (String.eqb OPENAI_API_KEY "") |})
  end.

Definition matchAndFetchRoute (aiOutcome : FetchOutcome)
  (lmi : LmiRequest -> FetchOutcome) (body : MatchAndFetchRequest)
  : MatchAndFetchAnswer :=
  tryCatch (matchAndFetchBody aiOutcome lmi body) Fetched500.

End MatchAndFetch.

(** * The validation script *)

(** [array.slice(start, end)] for indices that are not negative. *)
Definition slice {A : Type} (l : list A) (start end_ : nat) : list A :=
  let len := length l in
  let from := Nat.min start len in
  let final := Nat.min end_ len in
  firstn (final - from) (skipn from l).

Definition batchSize : nat := 25.

(** The batches that the loop
    [for (let i = 0; i < uniqueCips.length; i += batchSize)] sends, from
    index [i] on; [fuel] bounds the number of rounds. *)
Fixpoint batchesFrom (fuel i : nat) (uniqueCips : list string)
  : list (list string) :=
  match fuel with
  | O => []
  | S fuel' =>
      if i <? length uniqueCips then
        slice uniqueCips i (i + batchSize)
        :: batchesFrom fuel' (i + batchSize) uniqueCips
      else []
  end.

(** One round for each element is enough. *)
Definition batches (uniqueCips : list string) : list (list string) :=
  batchesFrom (length uniqueCips) 0 uniqueCips.

Section Validate.
Context {Program : Type}.

(** [p.cipCode]: the query keeps the programs that have one. *)
Variable cipCodeOf : Program -> string.

(** The body of the loop that groups the programs by CIP code. *)
Definition groupProgram (cipCodesMap : JsMap.t (list Program)) (p : Program)
  : JsMap.t (list Program) :=
  let cipCodesMap :=
    if negb (JsMap.has cipCodesMap (cipCodeOf p))
    then JsMap.set cipCodesMap (cipCodeOf p) []
    else cipCodesMap in
  JsMap.update cipCodesMap (cipCodeOf p) (fun group => group ++ [p]).

Definition cipCodesMapOf (programs : list Program) : JsMap.t (list Program) :=
  fold_left groupProgram programs JsMap.empty.

(** [[...cipCodesMap.keys()]] *)
Definition uniqueCips (programs : list Program) : list string :=
  JsMap.keys (cipCodesMapOf programs).

End Validate.

(** * Vocabulary of the statements *)

Definition startsWithAlnum (s : string) : bool :=
  match s with
  | EmptyString => false
  | String c _ => JsString.isAlnum c
  end.

(** The words of a text: its maximal runs of characters in a-z0-9, in the
    order of the text. *)
Fixpoint wordsOf (s : string) : list string :=
  match s with
  | EmptyString => []
  | String c s' =>
      if JsString.isAlnum c then
        if startsWithAlnum s' then
          match wordsOf s' with
          | w :: ws => String c w :: ws
          | [] => [String c EmptyString]
          end
        else String c EmptyString :: wordsOf s'
      else wordsOf s'
  end.

Fixpoint allChars (p : ascii -> bool) (s : string) : bool :=
  match s with
  | EmptyString => true
  | String c s' => p c && allChars p s'
  end.

Definition nonEmpty (w : string) : bool := negb (String.eqb w "").

(** [x] stands before [y] in [l]. *)
Definition precedes {A : Type} (x y : A) (l : list A) : Prop :=
  exists l1 l2 l3, l = l1 ++ x :: l2 ++ y :: l3.

(** The index keys of an entry: its tokens, then its bigrams. *)
Definition entryKeys (soc : OccupationEntry) : list string :=
  tokenize (allText soc) ++ bigramsOf (tokenize (allText soc)).

(** The codes the index holds for a key; none for an unbound key. *)
Definition codesOf (idx : JsMap.t JsSet.t) (token : string) : JsSet.t :=
  match JsMap.get idx token with
  | Some s => s
  | None => JsSet.empty
  end.

(** The entry gets a title bonus for this query text. *)
Definition titleHit (queryLower : string) (soc : OccupationEntry) : bool :=
  0 <? countTitleMatches queryLower (tokenize (title soc)).

(** Every write to the score map, in program order: the codes of each query
    token, then the codes of each query bigram, then the codes of the
    entries with a title bonus, in taxonomy order. *)
Definition hitSequence (socCodes : list OccupationEntry)
  (programData : ProgramData) : list string :=
  let idx := socIndex (buildIndex socCodes) in
  let queryTokens := tokenize (queryTextOf programData) in
  flat_map (codesOf idx) queryTokens
  ++ flat_map (codesOf idx) (bigramsOf queryTokens)
  ++ map code
       (filter (titleHit (JsString.toLowerCase (queryTextOf programData)))
               socCodes).

(** The codes in the order of their first write. *)
Definition insertionOrder (socCodes : list OccupationEntry)
  (programData : ProgramData) : list string :=
  fold_left JsSet.add (hitSequence socCodes programData) JsSet.empty.

(** What the bound sets of an index look like. *)
Definition wellFormedSets (idx : JsMap.t JsSet.t) : Prop :=
  forall k s, JsMap.get idx k = Some s -> s <> [] /\ NoDup s.

(** A query field that is absent or empty. *)
Definition absentOrEmpty (field : option string) : Prop :=
  field = None \/ field = Some "".

(** The ways the external ranking fails: the request is rejected (a thrown
    error, a timeout), the body of the answer is no JSON, the answer has no
    text content, the content holds no JSON array, the bracketed text does
    not parse, or anything else in the [try] block throws. *)
Inductive ExternalFailure (JSON_parse : string -> option json)
  (byCode : JsMap.t OccupationEntry) : FetchOutcome -> Prop :=
| request_rejected : ExternalFailure JSON_parse byCode FetchRejects
| body_unparseable : ExternalFailure JSON_parse byCode BodyRejects
| no_text_content (data : json) (v : option json) :
    responseContent data = Normal v ->
    (forall text, v <> Some (JStr text)) ->
    ExternalFailure JSON_parse byCode (BodyParsed data)
| no_json_array (data : json) (text : string) :
    responseContent data = Normal (Some (JStr text)) ->
    matchJsonArray text = None ->
    ExternalFailure JSON_parse byCode (BodyParsed data)
| array_unparseable (data : json) (text jsonMatch : string) :
    responseContent data = Normal (Some (JStr text)) ->
    matchJsonArray text = Some jsonMatch ->
    JSON_parse jsonMatch = None ->
    ExternalFailure JSON_parse byCode (BodyParsed data)
| block_throws (outcome : FetchOutcome) :
    aiTryBlock JSON_parse byCode outcome = Throw ->
    ExternalFailure JSON_parse byCode outcome.

(** The [topN] the route passes on. *)
Definition requestedTopN (body : MatchRequest) : Z :=
  match topN body with
  | Some n => n
  | None => DEFAULT_TOP_N
  end.

(** An entry without a title. *)
Definition untitled : OccupationEntry :=
  {| code := "15-1252"; title := "";
     majorGroup := "Computer and Mathematical";
     minorGroup := "Software Developers"; broadGroup := "" |}.

(** One match of the external model, as it parses. *)
Definition softwareEngineers : json :=
  JObj [("code", JStr "15-1252"); ("title", JStr "Software Engineers");
        ("reason", JStr "Builds software")].

(** A quoted JSON string, the quotation mark being code unit 34. *)
Definition quoted (s : string) : string :=
  (String (ascii_of_nat 34) s ++ String (ascii_of_nat 34) EmptyString)%string.

(** The text of an array with that one match. *)
Definition answerText : string :=
  ("[{" ++ quoted "code" ++ ":" ++ quoted "15-1252" ++ ","
   ++ quoted "title" ++ ":" ++ quoted "Software Engineers" ++ ","
   ++ quoted "reason" ++ ":" ++ quoted "Builds software" ++ "}]")%string.

(** The body of an answer of the completions endpoint with that text. *)
Definition completionsAnswer : json :=
  JObj [("choices",
         JArr [JObj [("message",
                      JObj [("role", JStr "assistant");
                            ("content", JStr answerText)])]])].

(** [JSON.parse] as far as the worked answer needs it. *)
Definition parseAnswer (s : string) : option json :=
  if String.eqb s answerText then Some (JArr [softwareEngineers]) else None.

(** The enrichment of the worked match against [untitled]. *)
Definition verifiedExternalTitle : Ai.Match :=
  {| Ai.code := Some (JStr "15-1252");
     Ai.title := Some (JStr "Software Engineers");
     Ai.majorGroup := "Computer and Mathematical";
     Ai.minorGroup := "Software Developers";
     Ai.broadGroup := "";
     Ai.reason := Some (JStr "Builds software");
     Ai.source := "ai";
     Ai.verified := true |}.

(** What the callback of [aiMatches.map] makes of one match [m] of the
    external model: the code and the reason are those of [m]; when the code
    is bound in the code map the result is verified, its group labels are
    the local ones and its title is the local title, unless that title is
    empty, in which case the title of [m] stays; when the code is not bound
    the result is not verified, keeps the title of [m] and has empty group
    labels. *)
Definition Enriched (byCode : JsMap.t OccupationEntry) (m : json)
  (r : Ai.Match) : Prop :=
  exists mcode mtitle mreason,
    Js.prop (Some m) "code" = Normal mcode
    /\ Js.prop (Some m) "title" = Normal mtitle
    /\ Js.prop (Some m) "reason" = Normal mreason
    /\ Ai.code r = mcode /\ Ai.reason r = mreason /\ Ai.source r = "ai"
    /\ (forall c l,
          mcode = Some (JStr c) -> JsMap.get byCode c = Some l ->
          Ai.verified r = true
          /\ Ai.title r = (if String.eqb (title l) "" then mtitle
                           else Some (JStr (title l)))
          /\ Ai.majorGroup r = majorGroup l
          /\ Ai.minorGroup r = minorGroup l
          /\ Ai.broadGroup r = broadGroup l)
    /\ ((forall c, mcode = Some (JStr c) -> JsMap.get byCode c = None) ->
        Ai.verified r = false
        /\ Ai.title r = mtitle
        /\ Ai.majorGroup r = "" /\ Ai.minorGroup r = ""
        /\ Ai.broadGroup r = "").

(** ** Scores in closed form, over the reals *)

Definition sumR (l : list R) : R := fold_right Rplus 0%R l.

(** The score of a code in a score map, zero for a code without one. *)
Definition scoreOf (scores : JsMap.t R) (c : string) : R :=
  orZero (N := R_number) (JsMap.get scores c).

(** The weight [ln (total / df)] of an index key. *)
Definition idfWeight (idx : JsMap.t JsSet.t) (total : nat) (key : string) : R :=
  ln (INR total / INR (JsSet.size (codesOf idx key))).

(** What one query token adds to the score of the code [c]. *)
Definition tokenTerm (idx : JsMap.t JsSet.t) (total : nat) (c key : string)
  : R :=
  if JsSet.has (codesOf idx key) c then idfWeight idx total key else 0%R.

(** What the turn of one entry in the title loop adds to the score of the
    code [c]. *)
Definition titleTerm (queryLower c : string) (soc : OccupationEntry) : R :=
  if titleHit queryLower soc && String.eqb (code soc) c then
    (INR (countTitleMatches queryLower (tokenize (title soc)))
     / INR (length (tokenize (title soc))) * 10)%R
  else 0%R.

(** The sum of everything the three passes add to the score of [c]. *)
Definition closedScore (socCodes : list OccupationEntry)
  (programData : ProgramData) (c : string) : R :=
  let idx := socIndex (buildIndex socCodes) in
  let total := length socCodes in
  let queryTokens := tokenize (queryTextOf programData) in
  let queryLower := JsString.toLowerCase (queryTextOf programData) in
  (sumR (map (tokenTerm idx total c) queryTokens)
   + sumR (map (fun bigram => tokenTerm idx total c bigram * 2)
               (bigramsOf queryTokens))
   + sumR (map (titleTerm queryLower c) socCodes))%R.

(** ** Worked inputs *)

Definition softwareDevelopers : OccupationEntry :=
  {| code := "15-1252"; title := "Software Developers";
     majorGroup := "Computer and Mathematical";
     minorGroup := ""; broadGroup := "" |}.

Definition databaseArchitects : OccupationEntry :=
  {| code := "15-1243"; title := "Database Architects";
     majorGroup := "Computer and Mathematical";
     minorGroup := ""; broadGroup := "" |}.

Definition registeredNurses : OccupationEntry :=
  {| code := "29-1141"; title := "Registered Nurses";
     majorGroup := "Healthcare"; minorGroup := ""; broadGroup := "" |}.



(** Two entries that share their major group. *)
Definition computerTaxonomy : list OccupationEntry :=
  [softwareDevelopers; databaseArchitects].

Definition noProgram : ProgramData :=
  {| name := None; longName := None; programCode := None; cipCode := None;
     type := None; degreeDesignation := None; college := None;
     level := None |}.

(** A program whose only field is its name. *)
Definition programNamed (n : string) : ProgramData :=
  {| name := Some n; longName := None; programCode := None; cipCode := None;
     type := None; degreeDesignation := None; college := None;
     level := None |}.

(** A match over the reals. *)
Definition scoredR (soc : OccupationEntry) (score : R)
  : @ScoredMatch R_number :=
  {| entryFields := Some soc; relevanceScore := score |}.

(** ** Vocabulary of the further properties *)

(** [t] occurs in [s] as a contiguous substring. *)
Definition substringOf (t s : string) : Prop :=
  exists pre post, s = (pre ++ t ++ post)%string.

(** Two optional fields that differ at most in the case of their letters. *)
Definition sameFieldUpToCase (a b : option string) : Prop :=
  option_map JsString.toLowerCase a = option_map JsString.toLowerCase b.

(** Two programs whose six query fields differ at most in letter case. *)
Definition sameUpToCase (p p' : ProgramData) : Prop :=
  sameFieldUpToCase (longName p) (longName p')
  /\ sameFieldUpToCase (name p) (name p')
  /\ sameFieldUpToCase (type p) (type p')
  /\ sameFieldUpToCase (degreeDesignation p) (degreeDesignation p')
  /\ sameFieldUpToCase (college p) (college p')
  /\ sameFieldUpToCase (level p) (level p').

(** The [code] property of a returned match. *)
Definition matchCode {N : Number} (m : ScoredMatch) : option string :=
  option_map code (entryFields m).

(** The character [c] does not occur in [s]. *)
Definition noChar (c : ascii) (s : string) : Prop :=
  allChars (fun x => negb (Ascii.eqb x c)) s = true.

(** The assignment a line of the .env file stands for, if any. *)
Definition parseEnvLine (line : string) : option (string * string) :=
  let trimmed := trim line in
  if String.eqb trimmed "" || String.prefix "#" trimmed then None
  else
    match indexOfChar "=" trimmed with
    | None => None
    | Some eqIdx =>
        Some (trim (takeChars eqIdx trimmed),
              trim (dropChars (eqIdx + 1) trimmed))
    end.



(** The enriched match of a match that no listed occupation answers. *)
Definition withoutLmi {N : Number} (m : AnyMatch) : EnrichedMatch :=
  {| baseMatch := m; lmiData := Some JNull; hasLMI := false;
     lmiFields := None |}.

(** The occupation [o] carries the code [c] as its [socCode]. *)
Definition hasSocCode (c : string) (o : json) : Prop :=
  Js.prop (Some o) "socCode" = Normal (Some (JStr c)).

(** The local ranking, as the route of the combined call asks for it. *)
Definition localRanking {N : Number} (socCodes : list OccupationEntry)
  (body : MatchAndFetchRequest) (programData : ProgramData)
  : list AnyMatch :=
  map LocalMatch
    (matchSocCodes socCodes programData
       (match mfTopN body with Some n => n | None => 5%Z end)).

(** A worked combined call: the external ranking names the software
    developers and the labor-market answer lists them. *)
Definition externalDevelopers : Ai.Match :=
  {| Ai.code := Some (JStr "15-1252");
     Ai.title := Some (JStr "Software Developers");
     Ai.majorGroup := "Computer and Mathematical";
     Ai.minorGroup := "";
     Ai.broadGroup := "";
     Ai.reason := Some (JStr "Builds software");
     Ai.source := "ai";
     Ai.verified := true |}.

Definition developersOccupation : json :=
  JObj [("socCode", JStr "15-1252");
        ("laborMarketData", JObj [("typicalDegreeLevel", JStr "Bachelor")])].

Definition lmiAnswer : json :=
  JObj [("data", JObj [("matchedOccupations", JArr [developersOccupation])])].

Definition combinedRequest : MatchAndFetchRequest :=
  {| mfProgram := Some (programNamed "Computer"); mfTopN := None;
     mfRegionType := None; mfRegion := None; mfUseAI := Some true |}.

Definition enrichedDevelopers {N : Number} : EnrichedMatch :=
  {| baseMatch := ExternalMatch externalDevelopers;
     lmiData := Some developersOccupation;
     hasLMI := true;
     lmiFields :=
       Some {| medianSalary := None; totalEmployment := None;
               growthRate := None; demandScore := None;
               demandFactors := None;
               degreeLevel := Some (JStr "Bachelor") |} |}.

Definition combinedAnswer {N : Number} : MatchAndFetchResponse :=
  {| mfProgramName := Some "Computer";
     mfProgramCode := None;
     mfProgramCipCode := None;
     mfMatches := [enrichedDevelopers];
     lmiRaw := lmiAnswer;
     mfWarnings := Some (JArr []);
     mfAiAvailable := true |}.

(** The programs that carry the CIP code [c], in their order. *)
Definition programsWith {Program : Type} (cipCodeOf : Program -> string)
  (c : string) (programs : list Program) : list Program :=
  filter (fun p => String.eqb (cipCodeOf p) c) programs.

(** The group stored under [c]; none when [c] is unbound. *)
Definition groupOf {Program : Type} (m : JsMap.t (list Program)) (c : string)
  : list Program :=
  match JsMap.get m c with
  | Some group => group
  | None => []
  end.

(** [Math.round(score * 100) / 100] *)
Definition hundredths {N : Number} (score : num) : num :=
  n_div (Math_round (n_mul score (ofNat 100))) (ofNat 100).

(** The order of the numbers, as far as the ranking relies on it.  [n_ok]
    sets the numbers apart from the one value that is not a number (every
    real number is one, and every double but NaN).  On the numbers, [n_le]
    is a total preorder, the comparator result [b - a] is positive exactly
    when [b] is not below or equal to [a], and rounding to hundredths keeps
    the order. *)
Class NumberOrder (N : Number) : Type := {
  n_ok : num -> Prop;
  n_le : num -> num -> Prop;
  n_le_refl : forall a, n_ok a -> n_le a a;
  n_le_trans :
    forall a b c, n_ok a -> n_ok b -> n_ok c ->
                  n_le a b -> n_le b c -> n_le a c;
  n_le_total : forall a b, n_ok a -> n_ok b -> ~ n_le b a -> n_le a b;
  n_sign_sub :
    forall a b, n_ok a -> n_ok b ->
                (n_sign (n_sub b a) <> Gt <-> n_le b a);
  n_round_le :
    forall a b, n_ok a -> n_ok b -> n_le b a ->
                n_le (hundredths b) (hundredths a)
}.

(** The real numbers in their order. *)
#[export, refine] Instance R_order : NumberOrder R_number := {|
  n_ok := fun _ => True;
  n_le := Rle
|}.
Proof.
  - intros a _. apply Rle_refl.
  - intros a b c _ _ _. apply Rle_trans.
  - intros a b _ _ H. apply Rlt_le, Rnot_le_lt, H.
  - intros a b _ _. cbn. unfold R_sign.
    destruct (total_order_T (b - a) 0) as [[H | H] | H]; split; intros H'.
    + lra.
    + discriminate.
    + lra.
    + discriminate.
    + exfalso. now apply H'.
    + intros _. lra.
  - intros a b _ _ H.
    change (R_round (b * INR 100) / INR 100
            <= R_round (a * INR 100) / INR 100)%R.
    rewrite INR_IZR_INZ. change (Z.of_nat 100) with 100%Z. unfold R_round.
    assert (Hz : (Zfloor (b * 100 + / 2) <= Zfloor (a * 100 + / 2))%Z)
      by (apply Zfloor_le; lra).
    apply IZR_le in Hz. unfold Rdiv.
    apply Rmult_le_compat_r; [lra | exact Hz].
Defined.

(** A title of [n + 1] words: one word that is in the query of the worked
    case below, and [n] that are not. *)
Definition wordyTitle (n : nat) : string :=
  JsString.join " " ("aaa" :: repeat "bbb" n).

Definition longerTitle : OccupationEntry :=
  {| code := "11-0001"; title := wordyTitle 45;
     majorGroup := ""; minorGroup := ""; broadGroup := "" |}.

Definition shorterTitle : OccupationEntry :=
  {| code := "11-0002"; title := wordyTitle 44;
     majorGroup := ""; minorGroup := ""; broadGroup := "" |}.

(** The entry with 46 title words stands before the one with 45. *)
Definition wordyTaxonomy : list OccupationEntry :=
  [longerTitle; shorterTitle].


(** * Properties *)

(** ** Sets and maps *)

Lemma JsSet_has_In (s : JsSet.t) (x : string) :
  JsSet.has s x = true <-> In x s.
Proof.
  unfold JsSet.has. rewrite existsb_exists. split.
  - intros [y [Hy Heq]]. apply String.eqb_eq in Heq. now subst.
  - intros H. exists x. split; [assumption | apply String.eqb_refl].
Qed.

Lemma JsSet_has_false (s : JsSet.t) (x : string) :
  JsSet.has s x = false <-> ~ In x s.
Proof.
  rewrite <- JsSet_has_In. destruct (JsSet.has s x); split; congruence.
Qed.

Lemma JsSet_add_In (s : JsSet.t) (x y : string) :
  In y (JsSet.add s x) <-> In y s \/ y = x.
Proof.
  unfold JsSet.add. destruct (JsSet.has s x) eqn:E.
  - apply JsSet_has_In in E. split; [tauto | intros [H | ->]; assumption].
  - rewrite in_app_iff. simpl. intuition congruence.
Qed.

Lemma JsSet_add_NoDup (s : JsSet.t) (x : string) :
  NoDup s -> NoDup (JsSet.add s x).
Proof.
  intros H. unfold JsSet.add. destruct (JsSet.has s x) eqn:E; [assumption |].
  apply JsSet_has_false in E.
  apply NoDup_app; [assumption | repeat constructor; simpl; tauto |].
  intros a Ha [<- | []]. contradiction.
Qed.

Lemma JsSet_add_nonempty (s : JsSet.t) (x : string) : JsSet.add s x <> [].
Proof.
  unfold JsSet.add. destruct (JsSet.has s x) eqn:E.
  - apply JsSet_has_In in E. destruct s; [contradiction | discriminate].
  - destruct s; discriminate.
Qed.

Section MapFacts.
Context {V : Type}.
Implicit Types (m : JsMap.t V) (k : string) (v : V).

Lemma get_set_same m k v : JsMap.get (JsMap.set m k v) k = Some v.
Proof.
  induction m as [| [k' v'] m IH]; simpl.
  - now rewrite String.eqb_refl.
  - destruct (String.eqb k' k) eqn:E; simpl; rewrite E; [reflexivity | exact IH].
Qed.

Lemma get_set_other m k k' v :
  k <> k' -> JsMap.get (JsMap.set m k v) k' = JsMap.get m k'.
Proof.
  intros Hne. induction m as [| [k0 v0] m IH]; simpl.
  - apply String.eqb_neq in Hne. now rewrite Hne.
  - destruct (String.eqb k0 k) eqn:E; simpl.
    + apply String.eqb_eq in E. subst k0.
      apply String.eqb_neq in Hne. now rewrite Hne.
    + destruct (String.eqb k0 k'); [reflexivity | exact IH].
Qed.

Lemma get_Some_In m k v : JsMap.get m k = Some v -> In (k, v) m.
Proof.
  induction m as [| [k' v'] m IH]; simpl; [discriminate |].
  destruct (String.eqb k' k) eqn:E.
  - apply String.eqb_eq in E. intros [= ->]. left. now subst.
  - intros H. right. now apply IH.
Qed.

Lemma get_None_keys m k : JsMap.get m k = None <-> ~ In k (JsMap.keys m).
Proof.
  induction m as [| [k' v'] m IH]; simpl; [tauto |].
  destruct (String.eqb k' k) eqn:E.
  - apply String.eqb_eq in E. split; [discriminate | tauto].
  - apply String.eqb_neq in E. rewrite IH. tauto.
Qed.

Lemma has_keys m k : JsMap.has m k = JsSet.has (JsMap.keys m) k.
Proof.
  unfold JsMap.has. destruct (JsMap.get m k) eqn:E.
  - symmetry. apply JsSet_has_In.
    apply get_Some_In in E. unfold JsMap.keys.
    change k with (fst (k, v)). now apply in_map.
  - symmetry. apply JsSet_has_false. now apply get_None_keys.
Qed.

Lemma In_get_NoDup m k v :
  NoDup (JsMap.keys m) -> In (k, v) m -> JsMap.get m k = Some v.
Proof.
  induction m as [| [k' v'] m IH]; simpl; [tauto |].
  intros Hnd [Heq | Hin].
  - injection Heq as -> ->. now rewrite String.eqb_refl.
  - inversion Hnd as [| ? ? Hnot Hnd']; subst.
    destruct (String.eqb k' k) eqn:E.
    + apply String.eqb_eq in E. subst k'. exfalso. apply Hnot.
      unfold JsMap.keys. change k with (fst (k, v)). now apply in_map.
    + now apply IH.
Qed.

(** Setting a key leaves the key order alone, or puts a new key last. *)
Lemma keys_set m k v :
  JsMap.keys (JsMap.set m k v) = JsSet.add (JsMap.keys m) k.
Proof.
  unfold JsSet.add. rewrite <- has_keys. unfold JsMap.has.
  induction m as [| [k' v'] m IH]; simpl; [reflexivity |].
  destruct (String.eqb k' k) eqn:E; simpl; [reflexivity |].
  rewrite IH. now destruct (JsMap.get m k).
Qed.

Lemma get_update_same m k (f : V -> V) v :
  JsMap.get m k = Some v ->
  JsMap.get (JsMap.update m k f) k = Some (f v).
Proof. intros H. unfold JsMap.update. rewrite H. apply get_set_same. Qed.

Lemma get_update_other m k k' (f : V -> V) :
  k <> k' -> JsMap.get (JsMap.update m k f) k' = JsMap.get m k'.
Proof.
  intros H. unfold JsMap.update.
  destruct (JsMap.get m k); [now apply get_set_other | reflexivity].
Qed.

End MapFacts.

(** ** Slicing and sorting *)

Lemma slice0_length {A : Type} (l : list A) (n : Z) :
  length (slice0 l n) =
  Z.to_nat (if (n <? 0)%Z then Z.max (Z.of_nat (length l) + n) 0
            else Z.min n (Z.of_nat (length l))).
Proof.
  unfold slice0. rewrite length_firstn.
  destruct (n <? 0)%Z eqn:E; lia.
Qed.

Lemma slice0_prefix {A : Type} (l : list A) (n : Z) :
  exists rest, l = slice0 l n ++ rest.
Proof.
  unfold slice0. eexists. symmetry. apply firstn_skipn.
Qed.

Lemma slice0_incl {A : Type} (l : list A) (n : Z) (x : A) :
  In x (slice0 l n) -> In x l.
Proof.
  destruct (slice0_prefix l n) as [rest H]. intros Hin.
  rewrite H. apply in_or_app. now left.
Qed.

Lemma precedes_cons {A : Type} (a x y : A) (l : list A) :
  precedes x y (a :: l) <-> (a = x /\ In y l) \/ precedes x y l.
Proof.
  split.
  - intros [l1 [l2 [l3 H]]]. destruct l1 as [| b l1]; simpl in H.
    + injection H as -> ->. left. split; [reflexivity |].
      apply in_or_app. right. now left.
    + injection H as -> ->. right. now exists l1, l2, l3.
  - intros [[-> Hin] | [l1 [l2 [l3 ->]]]].
    + apply in_split in Hin. destruct Hin as [l2 [l3 ->]].
      now exists [], l2, l3.
    + now exists (a :: l1), l2, l3.
Qed.

Lemma precedes_In {A : Type} (x y : A) (l : list A) :
  precedes x y l -> In x l /\ In y l.
Proof.
  intros [l1 [l2 [l3 ->]]]. split.
  - apply in_or_app. right. now left.
  - apply in_or_app. right. right. apply in_or_app. right. now left.
Qed.

Lemma precedes_app_l {A : Type} (x y : A) (l rest : list A) :
  precedes x y l -> precedes x y (l ++ rest).
Proof.
  intros [l1 [l2 [l3 ->]]]. exists l1, l2, (l3 ++ rest).
  rewrite <- app_assoc. simpl. rewrite <- app_assoc. reflexivity.
Qed.

Lemma precedes_map {A B : Type} (f : A -> B) (x y : A) (l : list A) :
  precedes x y l -> precedes (f x) (f y) (map f l).
Proof.
  intros [l1 [l2 [l3 ->]]]. exists (map f l1), (map f l2), (map f l3).
  rewrite map_app. simpl. rewrite map_app. reflexivity.
Qed.

Section SortFacts.
Context {A : Type} (cmp : A -> A -> comparison).

Lemma insertSorted_Permutation (x : A) (l : list A) :
  Permutation (x :: l) (insertSorted cmp x l).
Proof.
  induction l as [| y l IH]; simpl; [reflexivity |].
  destruct (cmp x y); try reflexivity.
  rewrite perm_swap. now apply perm_skip.
Qed.

Lemma sort_Permutation (l : list A) : Permutation l (sort cmp l).
Proof.
  induction l as [| x l IH]; simpl; [reflexivity |].
  rewrite <- insertSorted_Permutation. now apply perm_skip.
Qed.

Lemma sort_length (l : list A) : length (sort cmp l) = length l.
Proof. symmetry. apply Permutation_length, sort_Permutation. Qed.

Lemma sort_In (l : list A) (x : A) : In x (sort cmp l) <-> In x l.
Proof.
  split; apply Permutation_in;
    [apply Permutation_sym |]; apply sort_Permutation.
Qed.

(** An element overtakes another one only if the comparator says so. *)
Lemma insertSorted_precedes (x a b : A) (l : list A) :
  precedes a b (insertSorted cmp x l) ->
  precedes a b l \/ (a = x /\ In b l) \/ (b = x /\ In a l /\ cmp x a = Gt).
Proof.
  induction l as [| y l IH]; simpl.
  - intros H. apply precedes_cons in H. destruct H as [[_ []] | H].
    destruct H as [l1 [l2 [l3 H]]]. now destruct l1.
  - destruct (cmp x y) eqn:E.
    1,2: intros H; apply precedes_cons in H;
         destruct H as [[-> Hin] | H]; [right; left; now split | now left].
    intros H. apply precedes_cons in H. destruct H as [[-> Hin] | H].
    + apply (Permutation_in _ (Permutation_sym (insertSorted_Permutation x l)))
        in Hin.
      destruct Hin as [<- | Hin].
      * right. right. repeat split; [now left | assumption].
      * left. apply precedes_cons. now left.
    + destruct (IH H) as [H1 | [[-> Hin] | [-> [Hin Hgt]]]].
      * left. apply precedes_cons. now right.
      * right. left. split; [reflexivity | now right].
      * right. right. repeat split; [now right | assumption].
Qed.

(** Stability: two elements change places only when the one that stood
    first has to follow the other. *)
Lemma sort_precedes (a b : A) (l : list A) :
  precedes a b (sort cmp l) ->
  precedes a b l \/ (precedes b a l /\ cmp b a = Gt).
Proof.
  revert a b. induction l as [| x l IH]; simpl; intros a b H.
  - destruct H as [l1 [l2 [l3 H]]]. now destruct l1.
  - apply insertSorted_precedes in H.
    destruct H as [H | [[-> Hin] | [-> [Hin Hgt]]]].
    + destruct (IH _ _ H) as [H1 | [H1 H2]].
      * left. apply precedes_cons. now right.
      * right. split; [apply precedes_cons; now right | assumption].
    + left. apply precedes_cons. left. split; [reflexivity |].
      exact (proj1 (sort_In _ _) Hin).
    + right. split; [| assumption]. apply precedes_cons. left.
      split; [reflexivity |]. exact (proj1 (sort_In _ _) Hin).
Qed.

(** With a consistent comparator the result is sorted. *)
Hypothesis cmp_total : forall x y, cmp x y = Gt -> cmp y x <> Gt.
Hypothesis cmp_trans :
  forall x y z, cmp x y <> Gt -> cmp y z <> Gt -> cmp x z <> Gt.

Lemma insertSorted_sorted (x : A) (l : list A) :
  StronglySorted (fun a b => cmp a b <> Gt) l ->
  StronglySorted (fun a b => cmp a b <> Gt) (insertSorted cmp x l).
Proof.
  induction 1 as [| y l Hs IH Hall]; simpl.
  - constructor; constructor.
  - destruct (cmp x y) eqn:E.
    1,2: constructor; [now constructor |];
         constructor; [congruence |];
         eapply Forall_impl; [| exact Hall];
         intros z Hz; apply (cmp_trans x y z); congruence.
    constructor; [exact IH |].
    apply Forall_forall. intros z Hz.
    apply (Permutation_in _ (Permutation_sym (insertSorted_Permutation x l)))
      in Hz.
    destruct Hz as [<- | Hz]; [now apply cmp_total |].
    rewrite Forall_forall in Hall. now apply Hall.
Qed.

Lemma sort_sorted (l : list A) :
  StronglySorted (fun a b => cmp a b <> Gt) (sort cmp l).
Proof.
  induction l as [| x l IH]; simpl; [constructor |].
  now apply insertSorted_sorted.
Qed.

End SortFacts.

(** ** The tokenizer *)

(** The pieces of [split], as the engine gives them. *)
Example split_examples :
  JsString.split " ab   cd e " = [""; "ab"; "cd"; "e"; ""]
  /\ JsString.split "" = [""]
  /\ JsString.split "  " = [""; ""].
Proof. repeat split. Qed.

Example tokenize_example :
  tokenize "Registered Nurses, and the R&D of C++ programming (all)"
  = ["registered"; "nurses"; "programming"].
Proof. reflexivity. Qed.

Example slice0_examples :
  slice0 [1; 2; 3] 2 = [1; 2] /\ slice0 [1; 2; 3] 7 = [1; 2; 3]
  /\ slice0 [1; 2; 3] 0 = [] /\ slice0 [1; 2; 3] (-1) = [1; 2]
  /\ slice0 [1; 2; 3] (-5) = [].
Proof. repeat split. Qed.

Lemma isAlnum_not_space (c : ascii) :
  JsString.isAlnum c = true -> JsString.isSpace c = false.
Proof.
  unfold JsString.isAlnum, JsString.isSpace.
  generalize (nat_of_ascii c). intros n H.
  apply orb_true_iff in H.
  repeat rewrite andb_true_iff in H. repeat rewrite Nat.leb_le in H.
  apply orb_false_iff. split; [apply orb_false_iff; split |].
  - apply andb_false_iff. rewrite !Nat.leb_gt. lia.
  - apply Nat.eqb_neq. lia.
  - apply Nat.eqb_neq. lia.
Qed.

Lemma split_cons (s : string) : exists w ws, JsString.split s = w :: ws.
Proof.
  induction s as [| c s IH]; simpl; [now eexists; eexists |].
  destruct IH as [w [ws IH]].
  destruct (JsString.isSpace c).
  - destruct (JsString.startsWithSpace s); rewrite ?IH; now eexists; eexists.
  - rewrite IH. now eexists; eexists.
Qed.

Lemma split_space_head (s : string) :
  JsString.startsWithSpace s = true ->
  exists ws, JsString.split s = EmptyString :: ws.
Proof.
  induction s as [| c s IH]; simpl; [discriminate |].
  intros ->. destruct (JsString.startsWithSpace s) eqn:E.
  - exact (IH eq_refl).
  - now eexists.
Qed.

(** After the replacement a character is white space unless it is in
    a-z0-9. *)
Lemma replaced_space (c : ascii) :
  JsString.isAlnum c = false ->
  JsString.isSpace
    (if JsString.isAlnum c || JsString.isSpace c then c else " "%char) = true.
Proof.
  intros ->. simpl. now destruct (JsString.isSpace c) eqn:E.
Qed.

Lemma replaceNonAlnum_starts (s : string) :
  JsString.startsWithSpace (JsString.replaceNonAlnum s) =
  match s with
  | EmptyString => false
  | String c _ => negb (JsString.isAlnum c)
  end.
Proof.
  destruct s as [| c s]; [reflexivity |].
  unfold JsString.replaceNonAlnum.
  cbn [JsString.mapChars JsString.startsWithSpace].
  destruct (JsString.isAlnum c) eqn:E; cbn [orb negb].
  - now apply isAlnum_not_space.
  - pose proof (replaced_space c E) as H. now rewrite E in H.
Qed.

(** Splitting the normalized text gives the words of the text, up to empty
    pieces at the ends. *)
Lemma split_words (s : string) :
  filter nonEmpty (JsString.split (JsString.replaceNonAlnum s)) = wordsOf s.
Proof.
  induction s as [| c s IH]; [reflexivity |].
  change (JsString.replaceNonAlnum (String c s)) with
    (String (if JsString.isAlnum c || JsString.isSpace c then c else " "%char)
            (JsString.replaceNonAlnum s)).
  cbn [JsString.split wordsOf].
  destruct (JsString.isAlnum c) eqn:Ec.
  - cbn [orb]. rewrite (isAlnum_not_space c Ec).
    destruct (split_cons (JsString.replaceNonAlnum s)) as [w [ws Hs]].
    rewrite Hs in *. cbn [filter]. change (nonEmpty (String c w)) with true.
    cbv iota.
    destruct (startsWithAlnum s) eqn:Ea.
    + destruct s as [| c' s']; [discriminate |]. simpl in Ea.
      assert (Hw : nonEmpty w = true).
      { revert Hs.
        change (JsString.replaceNonAlnum (String c' s')) with
          (String (if JsString.isAlnum c' || JsString.isSpace c' then c'
                   else " "%char) (JsString.replaceNonAlnum s')).
        rewrite Ea. cbn [orb JsString.split].
        rewrite (isAlnum_not_space c' Ea).
        destruct (split_cons (JsString.replaceNonAlnum s')) as [w' [ws' ->]].
        now intros [= <- _]. }
      cbn [filter] in IH. rewrite Hw in IH. now rewrite <- IH.
    + assert (Hw : w = EmptyString).
      { destruct s as [| c' s']; [simpl in Hs; congruence |].
        simpl in Ea.
        destruct (split_space_head (JsString.replaceNonAlnum (String c' s')))
          as [ws' Hws].
        - rewrite replaceNonAlnum_starts. now rewrite Ea.
        - congruence. }
      subst w. cbn [filter] in IH. change (nonEmpty EmptyString) with false in IH.
      cbv iota in IH. now rewrite IH.
  - pose proof (replaced_space c Ec) as Hsp. rewrite Ec in Hsp. rewrite Hsp.
    destruct (JsString.startsWithSpace (JsString.replaceNonAlnum s));
      [exact IH | exact IH].
Qed.

Lemma wordsOf_alnum (s : string) :
  Forall (fun w => allChars JsString.isAlnum w = true) (wordsOf s).
Proof.
  induction s as [| c s IH]; simpl; [constructor |].
  destruct (JsString.isAlnum c) eqn:Ec; [| exact IH].
  destruct (startsWithAlnum s).
  - destruct (wordsOf s) as [| w ws].
    + repeat constructor. simpl. now rewrite Ec.
    + inversion IH; subst. constructor; [| assumption].
      simpl. now rewrite Ec.
  - constructor; [| exact IH]. simpl. now rewrite Ec.
Qed.

Lemma STOP_WORDS_has_In (w : string) :
  STOP_WORDS_has w = true <-> In w STOP_WORDS.
Proof.
  unfold STOP_WORDS_has. rewrite existsb_exists. split.
  - intros [y [Hy Heq]]. apply String.eqb_eq in Heq. now subst.
  - intros H. exists w. split; [assumption | apply String.eqb_refl].
Qed.

Lemma keepToken_spec (w : string) :
  keepToken w = true <-> 3 <= String.length w /\ ~ In w STOP_WORDS.
Proof.
  unfold keepToken. rewrite andb_true_iff, Nat.ltb_lt, negb_true_iff.
  rewrite <- STOP_WORDS_has_In.
  destruct (STOP_WORDS_has w); split; intros [H1 H2];
    (split; [lia | congruence]).
Qed.

Lemma keepToken_nonEmpty (w : string) : keepToken w = true -> nonEmpty w = true.
Proof.
  intros H. apply keepToken_spec in H. destruct H as [H _].
  destruct w; [simpl in H; lia | reflexivity].
Qed.

Lemma filter_filter_weaker {A : Type} (p q : A -> bool) (l : list A) :
  (forall x, p x = true -> q x = true) ->
  filter p (filter q l) = filter p l.
Proof.
  intros Hpq. induction l as [| x l IH]; simpl; [reflexivity |].
  destruct (q x) eqn:Eq; simpl.
  - now rewrite IH.
  - destruct (p x) eqn:Ep; [| exact IH].
    apply Hpq in Ep. congruence.
Qed.

Lemma tokenize_words (text : string) :
  tokenize text = filter keepToken (wordsOf (JsString.toLowerCase text)).
Proof.
  unfold tokenize. rewrite <- split_words.
  now rewrite (filter_filter_weaker keepToken nonEmpty _ keepToken_nonEmpty).
Qed.

Lemma tokenize_keep (text t : string) :
  In t (tokenize text) -> keepToken t = true.
Proof. unfold tokenize. intros H. now apply filter_In in H. Qed.


(** ** The index *)

Lemma fold_add_In (l : list string) (s : JsSet.t) (x : string) :
  In x (fold_left JsSet.add l s) <-> In x s \/ In x l.
Proof.
  revert s. induction l as [| y l IH]; simpl; intros s; [tauto |].
  rewrite IH, JsSet_add_In. intuition congruence.
Qed.

Lemma fold_add_NoDup (l : list string) (s : JsSet.t) :
  NoDup s -> NoDup (fold_left JsSet.add l s).
Proof.
  revert s. induction l as [| y l IH]; simpl; intros s H; [assumption |].
  now apply IH, JsSet_add_NoDup.
Qed.

Lemma indexToken_get (c : string) (idx : JsMap.t JsSet.t) (token k : string) :
  JsMap.get (indexToken c idx token) k =
  if String.eqb token k then Some (JsSet.add (codesOf idx token) c)
  else JsMap.get idx k.
Proof.
  unfold indexToken, codesOf, JsMap.has.
  destruct (String.eqb token k) eqn:E.
  - apply String.eqb_eq in E. subst k.
    destruct (JsMap.get idx token) as [s |] eqn:G; cbn [negb].
    + exact (get_update_same idx token (fun s => JsSet.add s c) s G).
    + apply (get_update_same _ token (fun s => JsSet.add s c) JsSet.empty).
      apply get_set_same.
  - apply String.eqb_neq in E. rewrite get_update_other by assumption.
    destruct (JsMap.get idx token); cbn [negb]; [reflexivity |].
    now apply get_set_other.
Qed.

Lemma indexToken_codesOf (c : string) (idx : JsMap.t JsSet.t)
  (token k : string) :
  codesOf (indexToken c idx token) k =
  if String.eqb token k then JsSet.add (codesOf idx token) c
  else codesOf idx k.
Proof.
  unfold codesOf at 1. rewrite indexToken_get.
  now destruct (String.eqb token k).
Qed.

Lemma indexToken_wellFormed (c : string) (idx : JsMap.t JsSet.t)
  (token : string) :
  wellFormedSets idx -> wellFormedSets (indexToken c idx token).
Proof.
  intros H k s. rewrite indexToken_get.
  destruct (String.eqb token k).
  - intros [= <-]. split; [apply JsSet_add_nonempty |].
    apply JsSet_add_NoDup. unfold codesOf.
    destruct (JsMap.get idx token) as [s' |] eqn:G; [| constructor].
    now apply (H token s').
  - apply H.
Qed.

Lemma fold_indexToken_wellFormed (c : string) (keys : list string)
  (idx : JsMap.t JsSet.t) :
  wellFormedSets idx -> wellFormedSets (fold_left (indexToken c) keys idx).
Proof.
  revert idx. induction keys as [| k keys IH]; simpl; intros idx H;
    [assumption |].
  now apply IH, indexToken_wellFormed.
Qed.

Lemma fold_indexToken_In (c : string) (keys : list string)
  (idx : JsMap.t JsSet.t) (k x : string) :
  In x (codesOf (fold_left (indexToken c) keys idx) k) <->
  In x (codesOf idx k) \/ (x = c /\ In k keys).
Proof.
  revert idx. induction keys as [| t keys IH]; simpl; intros idx; [tauto |].
  rewrite IH, indexToken_codesOf.
  destruct (String.eqb t k) eqn:E.
  - apply String.eqb_eq in E. subst t. rewrite JsSet_add_In. tauto.
  - apply String.eqb_neq in E. intuition congruence.
Qed.

Lemma fold_indexToken_bound (c : string) (keys : list string)
  (idx : JsMap.t JsSet.t) (k : string) :
  JsMap.get (fold_left (indexToken c) keys idx) k = None <->
  JsMap.get idx k = None /\ ~ In k keys.
Proof.
  revert idx. induction keys as [| t keys IH]; simpl; intros idx; [tauto |].
  rewrite IH, indexToken_get.
  destruct (String.eqb t k) eqn:E.
  - apply String.eqb_eq in E. subst t. split; [intros [H _]; discriminate |].
    intros [_ H]. exfalso. apply H. now left.
  - apply String.eqb_neq in E. tauto.
Qed.

Lemma buildIndex_snoc (l : list OccupationEntry) (soc : OccupationEntry) :
  buildIndex (l ++ [soc]) = indexEntry (buildIndex l) soc.
Proof. unfold buildIndex. now rewrite fold_left_app. Qed.

Lemma socIndex_indexEntry (ix : Index) (soc : OccupationEntry) :
  socIndex (indexEntry ix soc) =
  fold_left (indexToken (code soc)) (entryKeys soc) (socIndex ix).
Proof. reflexivity. Qed.

Lemma buildIndex_wellFormed (socCodes : list OccupationEntry) :
  wellFormedSets (socIndex (buildIndex socCodes)).
Proof.
  induction socCodes as [| soc l IH] using rev_ind.
  - intros k s. discriminate.
  - rewrite buildIndex_snoc, socIndex_indexEntry.
    now apply fold_indexToken_wellFormed.
Qed.

(** The set of a key holds exactly the codes of the entries that have the
    key. *)
Lemma buildIndex_codesOf (socCodes : list OccupationEntry) (k c : string) :
  In c (codesOf (socIndex (buildIndex socCodes)) k) <->
  exists soc, In soc socCodes /\ code soc = c /\ In k (entryKeys soc).
Proof.
  induction socCodes as [| soc l IH] using rev_ind.
  - simpl. split; [tauto | intros [soc [[] _]]].
  - rewrite buildIndex_snoc, socIndex_indexEntry, fold_indexToken_In, IH.
    split.
    + intros [[e [He1 He2]] | [-> Hk]].
      * exists e. split; [apply in_or_app; now left | assumption].
      * exists soc. split; [apply in_or_app; right; now left | now split].
    + intros [e [He1 [He2 He3]]]. apply in_app_or in He1.
      destruct He1 as [He1 | [<- | []]].
      * left. now exists e.
      * right. now split.
Qed.

Lemma buildIndex_unbound (socCodes : list OccupationEntry) (k : string) :
  JsMap.get (socIndex (buildIndex socCodes)) k = None <->
  forall soc, In soc socCodes -> ~ In k (entryKeys soc).
Proof.
  induction socCodes as [| soc l IH] using rev_ind.
  - simpl. split; [intros _ soc [] | reflexivity].
  - rewrite buildIndex_snoc, socIndex_indexEntry, fold_indexToken_bound, IH.
    split.
    + intros [H1 H2] e He. apply in_app_or in He.
      destruct He as [He | [<- | []]]; [now apply H1 | assumption].
    + intros H. split.
      * intros e He. apply H. apply in_or_app. now left.
      * apply H. apply in_or_app. right. now left.
Qed.

Lemma socByCode_indexEntry (ix : Index) (soc : OccupationEntry) :
  socByCode (indexEntry ix soc) = JsMap.set (socByCode ix) (code soc) soc.
Proof. reflexivity. Qed.

(** A bound code is bound to an entry of the collection that carries it. *)
Lemma socByCode_sound (socCodes : list OccupationEntry) (c : string)
  (e : OccupationEntry) :
  JsMap.get (socByCode (buildIndex socCodes)) c = Some e ->
  In e socCodes /\ code e = c.
Proof.
  induction socCodes as [| soc l IH] using rev_ind; [discriminate |].
  rewrite buildIndex_snoc, socByCode_indexEntry.
  destruct (string_dec (code soc) c) as [<- | Hne].
  - rewrite get_set_same. intros [= <-].
    split; [apply in_or_app; right; now left | reflexivity].
  - rewrite get_set_other by assumption. intros H.
    destruct (IH H) as [H1 H2]. split; [apply in_or_app; now left | assumption].
Qed.

(** The code of every entry is bound. *)
Lemma socByCode_complete (socCodes : list OccupationEntry)
  (soc : OccupationEntry) :
  In soc socCodes ->
  exists e, JsMap.get (socByCode (buildIndex socCodes)) (code soc) = Some e.
Proof.
  induction socCodes as [| soc' l IH] using rev_ind; [intros [] |].
  rewrite buildIndex_snoc, socByCode_indexEntry. intros H.
  destruct (string_dec (code soc') (code soc)) as [<- | Hne].
  - rewrite get_set_same. now eexists.
  - rewrite get_set_other by assumption.
    apply in_app_or in H. destruct H as [H | [-> | []]]; [now apply IH |].
    congruence.
Qed.

(** ** The score map: which codes it holds, and in which order *)

Section ScoreKeys.
Context {N : Number}.

Lemma keys_addScore (w : num) (scores : JsMap.t num) (c : string) :
  JsMap.keys (addScore w scores c) = JsSet.add (JsMap.keys scores) c.
Proof. apply keys_set. Qed.

Lemma keys_fold_addScore (w : num) (matches : list string)
  (scores : JsMap.t num) :
  JsMap.keys (fold_left (addScore w) matches scores) =
  fold_left JsSet.add matches (JsMap.keys scores).
Proof.
  revert scores. induction matches as [| c l IH]; simpl; intros scores;
    [reflexivity |].
  now rewrite IH, keys_addScore.
Qed.

Lemma keys_fold_left {A : Type} (f : A -> list string)
  (step : JsMap.t num -> A -> JsMap.t num) (l : list A) (scores : JsMap.t num) :
  (forall sc a, JsMap.keys (step sc a) = fold_left JsSet.add (f a) (JsMap.keys sc)) ->
  JsMap.keys (fold_left step l scores) =
  fold_left JsSet.add (flat_map f l) (JsMap.keys scores).
Proof.
  intros Hstep. revert scores. induction l as [| a l IH]; simpl; intros scores;
    [reflexivity |].
  now rewrite fold_left_app, IH, Hstep.
Qed.

Lemma keys_scoreTokens (idx : JsMap.t JsSet.t) (total : nat)
  (queryTokens : list string) (scores : JsMap.t num) :
  JsMap.keys (scoreTokens idx total queryTokens scores) =
  fold_left JsSet.add (flat_map (codesOf idx) queryTokens) (JsMap.keys scores).
Proof.
  unfold scoreTokens. apply keys_fold_left. intros sc token.
  unfold codesOf. destruct (JsMap.get idx token); [| reflexivity].
  apply keys_fold_addScore.
Qed.

Lemma keys_scoreBigrams (idx : JsMap.t JsSet.t) (total : nat)
  (queryBigrams : list string) (scores : JsMap.t num) :
  JsMap.keys (scoreBigrams idx total queryBigrams scores) =
  fold_left JsSet.add (flat_map (codesOf idx) queryBigrams) (JsMap.keys scores).
Proof.
  unfold scoreBigrams. apply keys_fold_left. intros sc token.
  unfold codesOf. destruct (JsMap.get idx token); [| reflexivity].
  apply keys_fold_addScore.
Qed.

Lemma flat_map_filter_map {A B : Type} (p : A -> bool) (f : A -> B)
  (l : list A) :
  flat_map (fun a => if p a then [f a] else []) l = map f (filter p l).
Proof.
  induction l as [| a l IH]; simpl; [reflexivity |].
  destruct (p a); simpl; now rewrite IH.
Qed.

Lemma keys_scoreTitle (queryLower : string) (socCodes : list OccupationEntry)
  (scores : JsMap.t num) :
  JsMap.keys (fold_left (scoreTitle queryLower) socCodes scores) =
  fold_left JsSet.add (map code (filter (titleHit queryLower) socCodes))
    (JsMap.keys scores).
Proof.
  rewrite <- flat_map_filter_map. apply keys_fold_left. intros sc soc.
  unfold scoreTitle, titleHit.
  destruct (0 <? countTitleMatches queryLower (tokenize (title soc)));
    [apply keys_addScore | reflexivity].
Qed.

(** The keys of the score map are the codes that were written, in the order
    of their first write. *)
Lemma keys_accumulatedScores (socCodes : list OccupationEntry)
  (programData : ProgramData) :
  JsMap.keys (accumulatedScores socCodes programData) =
  insertionOrder socCodes programData.
Proof.
  unfold accumulatedScores, indexScores, insertionOrder, hitSequence.
  rewrite keys_scoreTitle, keys_scoreBigrams, keys_scoreTokens.
  now rewrite !fold_left_app.
Qed.

Lemma insertionOrder_NoDup (socCodes : list OccupationEntry)
  (programData : ProgramData) :
  NoDup (insertionOrder socCodes programData).
Proof. apply fold_add_NoDup. constructor. Qed.

(** A code is in the score map exactly when a query token or bigram is a key
    of an entry with that code, or an entry with that code has a title
    bonus. *)
Lemma insertionOrder_In (socCodes : list OccupationEntry)
  (programData : ProgramData) (c : string) :
  let queryTokens := tokenize (queryTextOf programData) in
  let queryLower := JsString.toLowerCase (queryTextOf programData) in
  In c (insertionOrder socCodes programData) <->
  exists soc, In soc socCodes /\ code soc = c /\
    ((exists k, In k (queryTokens ++ bigramsOf queryTokens)
                /\ In k (entryKeys soc))
     \/ titleHit queryLower soc = true).
Proof.
  intros queryTokens queryLower. unfold insertionOrder, hitSequence.
  fold queryTokens queryLower.
  rewrite fold_add_In, !in_app_iff, !in_flat_map, in_map_iff.
  split.
  - intros [[] | [[k [Hk Hc]] | [[k [Hk Hc]] | [soc [Hc Hs]]]]].
    + apply buildIndex_codesOf in Hc. destruct Hc as [soc [H1 [H2 H3]]].
      exists soc. repeat split; try assumption. left. exists k.
      split; [apply in_or_app; now left | assumption].
    + apply buildIndex_codesOf in Hc. destruct Hc as [soc [H1 [H2 H3]]].
      exists soc. repeat split; try assumption. left. exists k.
      split; [apply in_or_app; now right | assumption].
    + apply filter_In in Hs. destruct Hs as [Hs1 Hs2].
      exists soc. repeat split; try assumption. now right.
  - intros [soc [H1 [H2 [[k [Hk1 Hk2]] | Ht]]]].
    + assert (Hc : In c (codesOf (socIndex (buildIndex socCodes)) k)).
      { apply buildIndex_codesOf. now exists soc. }
      right. apply in_app_or in Hk1. destruct Hk1 as [Hk1 | Hk1].
      * left. now exists k.
      * right. left. now exists k.
    + right. right. right. exists soc. split; [assumption |].
      apply filter_In. now split.
Qed.

Lemma insertionOrder_sound (socCodes : list OccupationEntry)
  (programData : ProgramData) (c : string) :
  In c (insertionOrder socCodes programData) ->
  exists soc, In soc socCodes /\ code soc = c.
Proof.
  intros H. apply insertionOrder_In in H. destruct H as [soc [H1 [H2 _]]].
  now exists soc.
Qed.

(** ** The shape of the result *)

Lemma rankedScores_In (socCodes : list OccupationEntry)
  (programData : ProgramData) (topN : Z) (c : string) (s : num) :
  In (c, s) (rankedScores socCodes programData topN) ->
  JsMap.get (accumulatedScores socCodes programData) c = Some s
  /\ In c (insertionOrder socCodes programData).
Proof.
  unfold rankedScores, JsMap.entries. intros H.
  apply slice0_incl in H. apply sort_In in H.
  assert (Hk : In c (JsMap.keys (accumulatedScores socCodes programData))).
  { unfold JsMap.keys. change c with (fst (c, s)). now apply in_map. }
  split.
  - apply In_get_NoDup; [| assumption].
    rewrite keys_accumulatedScores. apply insertionOrder_NoDup.
  - now rewrite <- keys_accumulatedScores.
Qed.

Lemma rankedScores_length (socCodes : list OccupationEntry)
  (programData : ProgramData) (topN : Z) :
  let hits := Z.of_nat (length (insertionOrder socCodes programData)) in
  length (rankedScores socCodes programData topN) =
  Z.to_nat (if (topN <? 0)%Z then Z.max (hits + topN) 0 else Z.min topN hits).
Proof.
  unfold rankedScores, JsMap.entries. rewrite slice0_length, sort_length.
  rewrite <- keys_accumulatedScores. unfold JsMap.keys.
  now rewrite length_map.
Qed.

Lemma matchSocCodes_length_eq (socCodes : list OccupationEntry)
  (programData : ProgramData) (topN : Z) :
  let hits := Z.of_nat (length (insertionOrder socCodes programData)) in
  length (matchSocCodes socCodes programData topN) =
  Z.to_nat (if (topN <? 0)%Z then Z.max (hits + topN) 0 else Z.min topN hits).
Proof.
  unfold matchSocCodes. rewrite length_map. apply rankedScores_length.
Qed.

Lemma matchSocCodes_In (socCodes : list OccupationEntry)
  (programData : ProgramData) (topN : Z) (m : ScoredMatch) :
  In m (matchSocCodes socCodes programData topN) ->
  exists c s soc,
    In (c, s) (rankedScores socCodes programData topN)
    /\ In soc socCodes /\ code soc = c
    /\ entryFields m = Some soc
    /\ relevanceScore m =
       n_div (Math_round (n_mul s (ofNat 100))) (ofNat 100).
Proof.
  unfold matchSocCodes. intros H. apply in_map_iff in H.
  destruct H as [[c s] [Hm Hin]]. subst m.
  destruct (rankedScores_In _ _ _ _ _ Hin) as [_ Hc].
  apply insertionOrder_sound in Hc. destruct Hc as [soc [Hs1 Hs2]].
  destruct (socByCode_complete _ _ Hs1) as [e He]. rewrite Hs2 in He.
  destruct (socByCode_sound _ _ _ He) as [He1 He2].
  exists c, s, e. simpl. now rewrite He.
Qed.

End ScoreKeys.

(** C2.  For every taxonomy, query and [topN], every match that
    [matchSocCodes] returns carries the fields, and so the code, of an entry
    of the entry collection; for every code in a set of the inverted index
    and every code in the score map is the code of an entry. *)
Theorem matchSocCodes_codes_exist {N : Number}
  (socCodes : list OccupationEntry) (programData : ProgramData) (topN : Z) :
  (forall m, In m (matchSocCodes socCodes programData topN) ->
     exists soc, In soc socCodes /\ entryFields m = Some soc
                 /\ In (code soc) (map code socCodes))
  /\ (forall key c, In c (codesOf (socIndex (buildIndex socCodes)) key) ->
                    In c (map code socCodes))
  /\ (forall c, In c (JsMap.keys (accumulatedScores socCodes programData)) ->
                In c (map code socCodes)).
Proof.
  split; [| split].
  - intros m H. apply matchSocCodes_In in H.
    destruct H as [c [s [soc [_ [H1 [_ [H2 _]]]]]]].
    exists soc. split; [exact H1 |]. split; [exact H2 | now apply in_map].
  - intros key c H. apply buildIndex_codesOf in H.
    destruct H as [soc [H1 [<- _]]]. now apply in_map.
  - intros c H. rewrite keys_accumulatedScores in H.
    apply insertionOrder_sound in H. destruct H as [soc [H1 <-]].
    now apply in_map.
Qed.

(** ** Ranking over the reals *)

Lemma R_sign_Gt (x : R) : R_sign x = Gt <-> (0 < x)%R.
Proof.
  unfold R_sign. destruct (total_order_T x 0) as [[H | H] | H];
    split; intros H'; try discriminate; try reflexivity; lra.
Qed.

Lemma R_sign_zero (x : R) : x = 0%R -> R_sign x = Eq.
Proof.
  intros ->. unfold R_sign.
  destruct (total_order_T 0 0) as [[H | H] | H]; [lra | reflexivity | lra].
Qed.

Lemma INR_100 : INR 100 = 100%R.
Proof. rewrite INR_IZR_INZ. reflexivity. Qed.

Lemma StronglySorted_map {A B : Type} (P : A -> A -> Prop)
  (Q : B -> B -> Prop) (f : A -> B) (l : list A) :
  (forall x y, P x y -> Q (f x) (f y)) ->
  StronglySorted P l -> StronglySorted Q (map f l).
Proof.
  intros HPQ. induction 1 as [| x l Hs IH Hall]; simpl; constructor;
    [assumption |].
  apply Forall_map. eapply Forall_impl; [| exact Hall]. intros y. apply HPQ.
Qed.

Lemma StronglySorted_app_l {A : Type} (P : A -> A -> Prop) (l1 l2 : list A) :
  StronglySorted P (l1 ++ l2) -> StronglySorted P l1.
Proof.
  induction l1 as [| x l1 IH]; simpl; intros H; [constructor |].
  inversion H as [| ? ? Hs Hall]; subst. constructor; [now apply IH |].
  apply Forall_app in Hall. tauto.
Qed.

Lemma StronglySorted_slice0 {A : Type} (P : A -> A -> Prop) (l : list A)
  (n : Z) :
  StronglySorted P l -> StronglySorted P (slice0 l n).
Proof.
  destruct (slice0_prefix l n) as [rest H]. intros Hs.
  rewrite H in Hs. now apply StronglySorted_app_l in Hs.
Qed.

Lemma precedes_slice0 {A : Type} (x y : A) (l : list A) (n : Z) :
  precedes x y (slice0 l n) -> precedes x y l.
Proof.
  destruct (slice0_prefix l n) as [rest H]. intros Hp.
  rewrite H. now apply precedes_app_l.
Qed.

Lemma precedes_map_inv {A B : Type} (f : A -> B) (a b : B) (l : list A) :
  precedes a b (map f l) ->
  exists x y, precedes x y l /\ f x = a /\ f y = b.
Proof.
  intros [l1 [l2 [l3 H]]].
  apply map_eq_app in H. destruct H as [m1 [m1' [-> [_ H]]]].
  apply map_eq_cons in H. destruct H as [x [m2' [-> [Hx H]]]].
  apply map_eq_app in H. destruct H as [m2 [m3' [-> [_ H]]]].
  apply map_eq_cons in H. destruct H as [y [m3 [-> [Hy _]]]].
  exists x, y. split; [now exists m1, m2, m3 | now split].
Qed.

Lemma StronglySorted_on {A : Type} (P : A -> Prop) (R Q : A -> A -> Prop)
  (l : list A) :
  (forall x y, P x -> P y -> R x y -> Q x y) ->
  Forall P l -> StronglySorted R l -> StronglySorted Q l.
Proof.
  intros HRQ HP Hs. induction Hs as [| x l Hs IH Hall]; [constructor |].
  inversion HP as [| ? ? Hx Hl]; subst.
  constructor; [now apply IH |].
  rewrite Forall_forall in *. intros y Hy.
  apply HRQ; [exact Hx | now apply Hl | now apply Hall].
Qed.

Lemma StronglySorted_precedes {A : Type} (R : A -> A -> Prop) (x y : A)
  (l : list A) :
  StronglySorted R l -> precedes x y l -> R x y.
Proof.
  intros Hs [l1 [l2 [l3 ->]]].
  induction l1 as [| a l1 IH]; cbn [app] in Hs;
    inversion Hs as [| ? ? Hs' Hall]; subst.
  - rewrite Forall_forall in Hall. apply Hall.
    apply in_or_app. right. now left.
  - now apply IH.
Qed.

(** With a comparator that is consistent on the elements of the list, the
    result is sorted. *)
Section SortOn.
Context {A : Type} (cmp : A -> A -> comparison) (P : A -> Prop).
Hypothesis cmp_total :
  forall x y, P x -> P y -> cmp x y = Gt -> cmp y x <> Gt.
Hypothesis cmp_trans :
  forall x y z, P x -> P y -> P z ->
                cmp x y <> Gt -> cmp y z <> Gt -> cmp x z <> Gt.

Lemma insertSorted_sorted_on (x : A) (l : list A) :
  P x -> Forall P l ->
  StronglySorted (fun a b => cmp a b <> Gt) l ->
  StronglySorted (fun a b => cmp a b <> Gt) (insertSorted cmp x l).
Proof.
  intros Hx HP Hs. induction Hs as [| y l Hs IH Hall]; simpl.
  - constructor; constructor.
  - inversion HP as [| ? ? Hy Hl]; subst.
    destruct (cmp x y) eqn:E.
    1,2: constructor; [now constructor |];
         constructor; [congruence |];
         rewrite Forall_forall in *; intros z Hz;
         apply (cmp_trans x y z);
           [exact Hx | exact Hy | now apply Hl | congruence | now apply Hall].
    constructor; [now apply IH |].
    apply Forall_forall. intros z Hz.
    apply (Permutation_in _ (Permutation_sym (insertSorted_Permutation cmp x l)))
      in Hz.
    destruct Hz as [<- | Hz]; [now apply cmp_total |].
    rewrite Forall_forall in Hall. now apply Hall.
Qed.

Lemma sort_sorted_on (l : list A) :
  Forall P l -> StronglySorted (fun a b => cmp a b <> Gt) (sort cmp l).
Proof.
  induction l as [| x l IH]; simpl; intros HP; [constructor |].
  inversion HP as [| ? ? Hx Hl]; subst.
  apply insertSorted_sorted_on; [exact Hx | | now apply IH].
  apply Forall_forall. intros z Hz. apply sort_In in Hz.
  rewrite Forall_forall in Hl. now apply Hl.
Qed.

End SortOn.

(** ** The order of the ranking *)

Section RankingOrder.
Context {N : Number} {O : NumberOrder N}.

Lemma byScoreDesc_le (a b : string * num) :
  n_ok (snd a) -> n_ok (snd b) ->
  (byScoreDesc a b <> Gt <-> n_le (snd b) (snd a)).
Proof. intros Ha Hb. unfold byScoreDesc. now apply n_sign_sub. Qed.

Lemma byScoreDesc_total (a b : string * num) :
  n_ok (snd a) -> n_ok (snd b) ->
  byScoreDesc a b = Gt -> byScoreDesc b a <> Gt.
Proof.
  intros Ha Hb H. apply (byScoreDesc_le b a Hb Ha).
  apply n_le_total; [exact Ha | exact Hb |].
  intros Hle. apply (byScoreDesc_le a b Ha Hb) in Hle. congruence.
Qed.

Lemma byScoreDesc_trans (a b c : string * num) :
  n_ok (snd a) -> n_ok (snd b) -> n_ok (snd c) ->
  byScoreDesc a b <> Gt -> byScoreDesc b c <> Gt -> byScoreDesc a c <> Gt.
Proof.
  intros Ha Hb Hc H1 H2.
  apply (byScoreDesc_le a b Ha Hb) in H1.
  apply (byScoreDesc_le b c Hb Hc) in H2.
  apply (byScoreDesc_le a c Ha Hc).
  exact (n_le_trans _ _ _ Hc Hb Ha H2 H1).
Qed.

Lemma rankedScores_ok (socCodes : list OccupationEntry)
  (programData : ProgramData) (topN : Z) :
  Forall (fun entry => n_ok (snd entry))
    (JsMap.entries (accumulatedScores socCodes programData)) ->
  Forall (fun entry => n_ok (snd entry))
    (rankedScores socCodes programData topN).
Proof.
  rewrite !Forall_forall. intros H entry Hin. apply H.
  unfold rankedScores in Hin. apply slice0_incl in Hin.
  exact (proj1 (sort_In _ _ _) Hin).
Qed.

(** The ranked pairs stand by descending accumulated score. *)
Lemma rankedScores_sorted (socCodes : list OccupationEntry)
  (programData : ProgramData) (topN : Z) :
  Forall (fun entry => n_ok (snd entry))
    (JsMap.entries (accumulatedScores socCodes programData)) ->
  StronglySorted (fun a b : string * num => n_le (snd b) (snd a))
    (rankedScores socCodes programData topN).
Proof.
  intros Hok.
  apply StronglySorted_on
    with (P := fun entry : string * num => n_ok (snd entry))
         (R := fun a b => byScoreDesc a b <> Gt).
  - intros x y Hx Hy. apply byScoreDesc_le; assumption.
  - now apply rankedScores_ok.
  - unfold rankedScores. apply StronglySorted_slice0.
    apply sort_sorted_on
      with (P := fun entry : string * num => n_ok (snd entry)).
    + apply byScoreDesc_total.
    + apply byScoreDesc_trans.
    + exact Hok.
Qed.

(** Pairs whose accumulated scores tie keep the order of the score map. *)
Lemma rankedScores_stable (socCodes : list OccupationEntry)
  (programData : ProgramData) (topN : Z) (ci cj : string) (si sj : num) :
  n_ok si -> n_ok sj ->
  precedes (ci, si) (cj, sj) (rankedScores socCodes programData topN) ->
  n_le si sj ->
  precedes ci cj (insertionOrder socCodes programData).
Proof.
  unfold rankedScores, JsMap.entries. intros Hi Hj H Hle.
  apply precedes_slice0 in H. apply sort_precedes in H.
  destruct H as [H | [_ H]].
  - rewrite <- keys_accumulatedScores.
    apply (precedes_map fst) in H. exact H.
  - exfalso.
    apply (proj2 (byScoreDesc_le (cj, sj) (ci, si) Hj Hi)) in Hle.
    now apply Hle.
Qed.

End RankingOrder.

(** C1, as the code has it.  For every taxonomy, query and [topN], and for
    numbers in any order that obeys the laws of [NumberOrder], as long as
    no accumulated score is NaN: the result of [matchSocCodes] is sorted by
    non-increasing [relevanceScore]; the codes stand in the score map in the
    order in which they were first written, which is the order of the
    unigram pass, then the bigram pass, then the title pass over the entries
    in taxonomy order; and of two results the one that stands first has the
    accumulated score (the score before rounding) that is not the lower
    one, and when the two accumulated scores tie, its code was written
    first.  Results with the same [relevanceScore] whose accumulated scores
    differ stand by accumulated score, whatever the order of writing. *)
Theorem matchSocCodes_sorted_stable {N : Number} {O : NumberOrder N}
  (socCodes : list OccupationEntry) (programData : ProgramData) (topN : Z) :
  let scores := accumulatedScores socCodes programData in
  let result := matchSocCodes socCodes programData topN in
  Forall (fun entry => n_ok (snd entry)) (JsMap.entries scores) ->
  StronglySorted (fun a b => n_le (relevanceScore b) (relevanceScore a)) result
  /\ JsMap.keys scores = insertionOrder socCodes programData
  /\ (forall mi mj ei ej si sj,
        precedes mi mj result ->
        entryFields mi = Some ei -> entryFields mj = Some ej ->
        JsMap.get scores (code ei) = Some si ->
        JsMap.get scores (code ej) = Some sj ->
        n_le sj si
        /\ (n_le si sj ->
            precedes (code ei) (code ej)
              (insertionOrder socCodes programData))).
Proof.
  intros scores result Hok.
  pose proof (rankedScores_sorted socCodes programData topN Hok) as Hsorted.
  pose proof (rankedScores_ok socCodes programData topN Hok) as Hrok.
  split; [| split].
  - unfold result, matchSocCodes.
    apply StronglySorted_map
      with (P := fun a b : string * num =>
                   n_le (hundredths (snd b)) (hundredths (snd a))).
    + intros [ca sa] [cb sb] H. exact H.
    + apply StronglySorted_on
        with (P := fun entry : string * num => n_ok (snd entry))
             (R := fun a b : string * num => n_le (snd b) (snd a)).
      * intros x y Hx Hy. now apply n_round_le.
      * exact Hrok.
      * exact Hsorted.
  - apply keys_accumulatedScores.
  - intros mi mj ei ej si sj Hp Hi Hj Hsi Hsj.
    unfold result, matchSocCodes in Hp. apply precedes_map_inv in Hp.
    destruct Hp as [[ci si'] [[cj sj'] [Hp [Hmi Hmj]]]].
    destruct (precedes_In _ _ _ Hp) as [Hini Hinj].
    rewrite Forall_forall in Hrok.
    pose proof (Hrok _ Hini) as Hoki. pose proof (Hrok _ Hinj) as Hokj.
    cbn [snd] in Hoki, Hokj.
    apply rankedScores_In in Hini. apply rankedScores_In in Hinj.
    destruct Hini as [Hgi _]. destruct Hinj as [Hgj _].
    subst mi mj. simpl in Hi, Hj.
    apply socByCode_sound in Hi. apply socByCode_sound in Hj.
    destruct Hi as [_ Hi]. destruct Hj as [_ Hj].
    fold scores in Hgi, Hgj. rewrite Hi in Hsi. rewrite Hj in Hsj.
    rewrite Hgi in Hsi. rewrite Hgj in Hsj.
    injection Hsi as <-. injection Hsj as <-.
    rewrite Hi, Hj. split.
    + exact (StronglySorted_precedes _ _ _ _ Hsorted Hp).
    + intros Hle.
      exact (rankedScores_stable socCodes programData topN ci cj si' sj'
               Hoki Hokj Hp Hle).
Qed.

(** ** Worked evaluation: a token that every entry has *)

(** The query Computer against [computerTaxonomy]: the token is in the set
    of both entries, and no title token occurs in the query. *)
Lemma computer_scores {N : Number} :
  accumulatedScores computerTaxonomy (programNamed "Computer") =
  let weight := Math_log (n_div (ofNat 2) (ofNat 2)) in
  [("15-1252", n_add (ofNat 0) weight); ("15-1243", n_add (ofNat 0) weight)].
Proof. vm_compute. reflexivity. Qed.

Lemma computer_scores_R :
  accumulatedScores (N := R_number) computerTaxonomy (programNamed "Computer")
  = [("15-1252", 0%R); ("15-1243", 0%R)].
Proof.
  rewrite computer_scores. cbv zeta.
  change (@Math_log R_number) with ln. change (@n_div R_number) with Rdiv.
  change (@n_add R_number) with Rplus. change (@ofNat R_number) with INR.
  replace (INR 2 / INR 2)%R with 1%R by (simpl; field).
  rewrite ln_1. simpl INR. now rewrite Rplus_0_l.
Qed.

Lemma relevanceScore_zero :
  @n_div R_number (Math_round (n_mul 0%R (ofNat 100))) (ofNat 100) = 0%R.
Proof.
  change (R_round (0 * INR 100) / INR 100 = 0)%R.
  rewrite INR_100, Rmult_0_l. unfold R_round.
  rewrite (Zfloor_eq 0) by (simpl; lra). lra.
Qed.

Lemma computer_matches (topN : Z) :
  matchSocCodes (N := R_number) computerTaxonomy (programNamed "Computer") topN
  = slice0 [ (scoredR softwareDevelopers 0);
             (scoredR databaseArchitects 0) ]
           topN.
Proof.
  unfold matchSocCodes, rankedScores, JsMap.entries.
  rewrite computer_scores_R.
  cbn [sort insertSorted]. unfold byScoreDesc. cbn [snd n_sub n_sign R_number].
  rewrite R_sign_zero by lra.
  unfold slice0. rewrite <- firstn_map. cbn [length map toScoredMatch].
  rewrite relevanceScore_zero.
  replace (JsMap.get (socByCode (buildIndex computerTaxonomy)) "15-1252")
    with (Some softwareDevelopers) by (vm_compute; reflexivity).
  replace (JsMap.get (socByCode (buildIndex computerTaxonomy)) "15-1243")
    with (Some databaseArchitects) by (vm_compute; reflexivity).
  reflexivity.
Qed.

(** A witness of C2: the matches of the worked query are entries of the
    taxonomy. *)
Lemma matchSocCodes_codes_exist_witness :
  exists m soc,
    In m (matchSocCodes (N := R_number) computerTaxonomy
            (programNamed "Computer") 10)
    /\ In soc computerTaxonomy /\ entryFields m = Some soc
    /\ In (code soc) (map code computerTaxonomy).
Proof.
  assert (Hin : In (scoredR softwareDevelopers 0)
                   (matchSocCodes (N := R_number) computerTaxonomy
                      (programNamed "Computer") 10)).
  { rewrite computer_matches. now left. }
  destruct (matchSocCodes_codes_exist (N := R_number) computerTaxonomy
              (programNamed "Computer") 10) as [Hall _].
  destruct (Hall _ Hin) as [soc [H1 [H2 H3]]].
  eexists. exists soc.
  split; [exact Hin |]. split; [exact H1 |]. split; [exact H2 | exact H3].
Defined.

(** A witness of C1, over the real numbers: the two matches of the worked
    query tie, and stand as their codes were written. *)
Lemma matchSocCodes_sorted_stable_witness :
  (0 <= 0)%R
  /\ precedes "15-1252" "15-1243"
       (insertionOrder computerTaxonomy (programNamed "Computer")).
Proof.
  assert (Hok : Forall (fun entry : string * R => n_ok (snd entry))
                  (JsMap.entries
                     (accumulatedScores (N := R_number) computerTaxonomy
                        (programNamed "Computer")))).
  { apply Forall_forall. intros entry _. exact I. }
  pose proof (matchSocCodes_sorted_stable (N := R_number) (O := R_order)
                computerTaxonomy (programNamed "Computer") 10) as H.
  cbv zeta in H. destruct (H Hok) as [_ [_ Horder]].
  destruct (Horder (scoredR softwareDevelopers 0)
              (scoredR databaseArchitects 0)
              softwareDevelopers databaseArchitects 0%R 0%R) as [Hle Htie].
  - rewrite computer_matches. now exists [], [], [].
  - reflexivity.
  - reflexivity.
  - rewrite computer_scores_R. reflexivity.
  - rewrite computer_scores_R. reflexivity.
  - split; [exact Hle | exact (Htie Hle)].
Defined.

(** Two titles with one word each that is in the query: the title with 46
    words gets the bonus [1 / 46 * 10], the one with 45 words [1 / 45 * 10],
    whatever the numbers are. *)
Lemma wordy_scores {N : Number} :
  accumulatedScores wordyTaxonomy (programNamed "xaaax") =
  [("11-0001", n_add (ofNat 0) (n_mul (n_div (ofNat 1) (ofNat 46)) (ofNat 10)));
   ("11-0002", n_add (ofNat 0) (n_mul (n_div (ofNat 1) (ofNat 45)) (ofNat 10)))].
Proof. vm_compute. reflexivity. Qed.

Lemma wordy_scores_R :
  accumulatedScores (N := R_number) wordyTaxonomy (programNamed "xaaax")
  = [("11-0001", (10 / 46)%R); ("11-0002", (10 / 45)%R)].
Proof.
  rewrite wordy_scores.
  change (@n_mul R_number) with Rmult. change (@n_div R_number) with Rdiv.
  change (@n_add R_number) with Rplus. change (@ofNat R_number) with INR.
  rewrite !INR_IZR_INZ.
  cbn [Z.of_nat Pos.of_succ_nat Pos.succ].
  replace (0 + 1 / 46 * 10)%R with (10 / 46)%R by lra.
  replace (0 + 1 / 45 * 10)%R with (10 / 45)%R by lra.
  reflexivity.
Qed.

Lemma hundredths_22 (x : R) :
  (2150 <= x * 10000 < 2250)%R ->
  @n_div R_number (Math_round (n_mul x (ofNat 100))) (ofNat 100)
  = (22 / 100)%R.
Proof.
  intros H. change (R_round (x * INR 100) / INR 100 = 22 / 100)%R.
  rewrite INR_100. unfold R_round.
  rewrite (Zfloor_eq 22) by (simpl; lra). reflexivity.
Qed.

(** C1 fails for results whose rounded scores are equal: both matches of
    the worked query have the [relevanceScore] 0.22, the code of the entry
    with the longer title was written to the score map first, and the entry
    with the shorter title stands first in the result, because its score
    before rounding is the higher one. *)
Lemma matchSocCodes_rounded_tie :
  matchSocCodes (N := R_number) wordyTaxonomy (programNamed "xaaax") 10
  = [scoredR shorterTitle (22 / 100); scoredR longerTitle (22 / 100)]
  /\ insertionOrder wordyTaxonomy (programNamed "xaaax")
     = [code longerTitle; code shorterTitle].
Proof.
  split; [| vm_compute; reflexivity].
  unfold matchSocCodes, rankedScores, JsMap.entries.
  rewrite wordy_scores_R.
  cbn [sort insertSorted]. unfold byScoreDesc. cbn [snd n_sub n_sign R_number].
  rewrite (proj2 (R_sign_Gt (10 / 45 - 10 / 46))) by lra.
  unfold slice0. rewrite <- firstn_map. cbn [length map toScoredMatch].
  rewrite (hundredths_22 (10 / 45)) by lra.
  rewrite (hundredths_22 (10 / 46)) by lra.
  replace (JsMap.get (socByCode (buildIndex wordyTaxonomy)) "11-0002")
    with (Some shorterTitle) by (vm_compute; reflexivity).
  replace (JsMap.get (socByCode (buildIndex wordyTaxonomy)) "11-0001")
    with (Some longerTitle) by (vm_compute; reflexivity).
  reflexivity.
Qed.

(** ** The length of the result *)

(** C3, as the code has it.  For every query and integer [topN], the result
    has [min(topN, h)] entries when [topN >= 0] and [max(0, h + topN)]
    entries when [topN < 0], where [h] is the number of codes in the score
    map: it has at most [topN] entries for [topN >= 0], none for
    [topN = 0], and for a negative [topN] it is empty only when
    [h <= -topN]. *)
Theorem matchSocCodes_length {N : Number} (socCodes : list OccupationEntry)
  (programData : ProgramData) (topN : Z) :
  let result := matchSocCodes socCodes programData topN in
  let hits := Z.of_nat (length (insertionOrder socCodes programData)) in
  Z.of_nat (length result) =
    (if (topN <? 0)%Z then Z.max (hits + topN) 0 else Z.min topN hits)
  /\ ((0 <= topN)%Z -> (Z.of_nat (length result) <= topN)%Z)
  /\ (topN = 0%Z -> result = [])
  /\ ((topN < 0)%Z -> (result = [] <-> (hits <= - topN)%Z)).
Proof.
  intros result hits.
  assert (Hlen : Z.of_nat (length result) =
    (if (topN <? 0)%Z then Z.max (hits + topN) 0 else Z.min topN hits)).
  { unfold result. rewrite matchSocCodes_length_eq. fold hits.
    destruct (topN <? 0)%Z eqn:E; lia. }
  split; [exact Hlen |]. split; [| split].
  - intros H. destruct (topN <? 0)%Z eqn:E; lia.
  - intros ->. simpl in Hlen. destruct result; [reflexivity | simpl in Hlen; lia].
  - intros H. apply Z.ltb_lt in H. rewrite H in Hlen. split.
    + intros Hr. rewrite Hr in Hlen. simpl in Hlen. lia.
    + intros Hh. destruct result; [reflexivity | simpl in Hlen; lia].
Qed.

Lemma matchSocCodes_length_witness :
  (Z.of_nat (length (matchSocCodes (N := R_number) computerTaxonomy
                       (programNamed "Computer") 1)) <= 1)%Z
  /\ matchSocCodes (N := R_number) computerTaxonomy
       (programNamed "Computer") 0 = []
  /\ (matchSocCodes (N := R_number) computerTaxonomy
       (programNamed "Computer") (-2) = []).
Proof.
  pose proof (matchSocCodes_length (N := R_number) computerTaxonomy
                (programNamed "Computer") 1) as H1.
  pose proof (matchSocCodes_length (N := R_number) computerTaxonomy
                (programNamed "Computer") 0) as H0.
  pose proof (matchSocCodes_length (N := R_number) computerTaxonomy
                (programNamed "Computer") (-2)) as H2.
  cbv zeta in H1, H0, H2.
  destruct H1 as [_ [H1 _]]. destruct H0 as [_ [_ [H0 _]]].
  destruct H2 as [_ [_ [_ H2]]].
  split; [| split].
  - apply H1. lia.
  - apply H0. reflexivity.
  - apply (proj2 (H2 ltac:(lia))).
    replace (insertionOrder computerTaxonomy (programNamed "Computer"))
      with ["15-1252"; "15-1243"] by (vm_compute; reflexivity).
    simpl. lia.
Defined.

(** C3 fails for a negative [topN]: with [topN = -1] the worked query still
    returns one of its two matches. *)
Lemma matchSocCodes_negative_topN :
  (-1 <= 0)%Z
  /\ matchSocCodes (N := R_number) computerTaxonomy (programNamed "Computer")
       (-1)
     = [ (scoredR softwareDevelopers 0) ].
Proof.
  split; [lia |]. rewrite computer_matches. reflexivity.
Qed.

(** ** The empty query *)

Lemma count_fold {A : Type} (p : A -> bool) (l : list A) (n : nat) :
  fold_left (fun cnt t => if p t then S cnt else cnt) l n =
  n + length (filter p l).
Proof.
  revert n. induction l as [| a l IH]; simpl; intros n; [lia |].
  rewrite IH. destruct (p a); simpl; lia.
Qed.

(** The counter of the title loop counts the title tokens that occur in the
    query text, each occurrence of a token in the title counting once. *)
Lemma countTitleMatches_filter (queryLower : string)
  (titleTokens : list string) :
  countTitleMatches queryLower titleTokens =
  length (filter (JsString.includes queryLower) titleTokens).
Proof. unfold countTitleMatches. now rewrite count_fold. Qed.

Lemma filter_none {A : Type} (p : A -> bool) (l : list A) :
  (forall x, In x l -> p x = false) -> filter p l = [].
Proof.
  induction l as [| a l IH]; simpl; intros H; [reflexivity |].
  rewrite (H a) by now left. apply IH. intros x Hx. apply H. now right.
Qed.

Lemma includes_empty (t : string) :
  t <> EmptyString -> JsString.includes EmptyString t = false.
Proof. destruct t; [congruence | reflexivity]. Qed.

Lemma titleHit_empty (soc : OccupationEntry) :
  titleHit EmptyString soc = false.
Proof.
  unfold titleHit. rewrite countTitleMatches_filter.
  rewrite filter_none; [reflexivity |].
  intros t Ht. apply includes_empty.
  apply tokenize_keep, keepToken_nonEmpty in Ht.
  intros ->. discriminate.
Qed.

Lemma filterBoolean_empty (fields : list (option string)) :
  Forall absentOrEmpty fields -> filterBoolean fields = [].
Proof.
  induction 1 as [| f l Hf _ IH]; [reflexivity |].
  unfold filterBoolean in *. simpl. rewrite IH.
  destruct Hf as [-> | ->]; reflexivity.
Qed.

Lemma queryTextOf_empty (programData : ProgramData) :
  absentOrEmpty (longName programData) -> absentOrEmpty (name programData) ->
  absentOrEmpty (type programData) ->
  absentOrEmpty (degreeDesignation programData) ->
  absentOrEmpty (college programData) -> absentOrEmpty (level programData) ->
  queryTextOf programData = EmptyString.
Proof.
  intros H1 H2 H3 H4 H5 H6. unfold queryTextOf.
  rewrite filterBoolean_empty; [reflexivity |].
  repeat (apply Forall_cons; [assumption |]). apply Forall_nil.
Qed.

Lemma insertionOrder_empty_query (socCodes : list OccupationEntry)
  (programData : ProgramData) :
  queryTextOf programData = EmptyString ->
  insertionOrder socCodes programData = [].
Proof.
  intros Hq. unfold insertionOrder, hitSequence. rewrite Hq.
  change (tokenize EmptyString) with (@nil string).
  change (JsString.toLowerCase EmptyString) with EmptyString.
  cbn [bigramsOf flat_map app].
  rewrite filter_none; [reflexivity |].
  intros soc _. apply titleHit_empty.
Qed.

(** C10.  For every taxonomy and [topN], when the six query fields are all
    absent or empty the query text is the empty string, no code is written
    to the score map, and [matchSocCodes] returns the empty sequence. *)
Theorem matchSocCodes_empty_query {N : Number}
  (socCodes : list OccupationEntry) (programData : ProgramData) (topN : Z) :
  absentOrEmpty (longName programData) -> absentOrEmpty (name programData) ->
  absentOrEmpty (type programData) ->
  absentOrEmpty (degreeDesignation programData) ->
  absentOrEmpty (college programData) -> absentOrEmpty (level programData) ->
  queryTextOf programData = EmptyString
  /\ accumulatedScores socCodes programData = JsMap.empty
  /\ matchSocCodes socCodes programData topN = [].
Proof.
  intros H1 H2 H3 H4 H5 H6.
  pose proof (queryTextOf_empty programData H1 H2 H3 H4 H5 H6) as Hq.
  pose proof (insertionOrder_empty_query socCodes programData Hq) as Hk.
  rewrite <- (keys_accumulatedScores (N := N)) in Hk.
  assert (Hs : accumulatedScores socCodes programData = JsMap.empty).
  { destruct (accumulatedScores socCodes programData); [reflexivity |].
    discriminate. }
  split; [exact Hq |]. split; [exact Hs |].
  unfold matchSocCodes, rankedScores, JsMap.entries. rewrite Hs.
  unfold JsMap.empty, slice0. simpl. now rewrite firstn_nil.
Qed.

Lemma matchSocCodes_empty_query_witness :
  matchSocCodes (N := R_number) computerTaxonomy
    {| name := Some ""; longName := None; programCode := Some "CS-BS";
       cipCode := Some "11.0701"; type := None; degreeDesignation := Some "";
       college := None; level := None |} 10 = [].
Proof.
  apply (matchSocCodes_empty_query (N := R_number));
    first [now left | now right].
Defined.

(** ** What each pass adds *)

Section PassFacts.
Context {N : Number}.

Lemma addScore_get_same (w : num) (scores : JsMap.t num) (c : string) :
  JsMap.get (addScore w scores c) c =
  Some (n_add (orZero (JsMap.get scores c)) w).
Proof. apply get_set_same. Qed.

Lemma addScore_get_other (w : num) (scores : JsMap.t num) (c c' : string) :
  c <> c' -> JsMap.get (addScore w scores c) c' = JsMap.get scores c'.
Proof. apply get_set_other. Qed.

(** The inner loop over a set adds the weight once to each of its codes and
    leaves every other code alone. *)
Lemma fold_addScore_get (w : num) (matches : list string)
  (scores : JsMap.t num) (c : string) :
  NoDup matches ->
  (In c matches ->
   JsMap.get (fold_left (addScore w) matches scores) c =
   Some (n_add (orZero (JsMap.get scores c)) w))
  /\ (~ In c matches ->
      JsMap.get (fold_left (addScore w) matches scores) c = JsMap.get scores c).
Proof.
  intros Hnd. revert scores.
  induction Hnd as [| x l Hx Hnd IH]; intros scores.
  - simpl. split; [intros [] | reflexivity].
  - cbn [fold_left]. destruct (IH (addScore w scores x)) as [IH1 IH2].
    destruct (string_dec x c) as [-> | Hne].
    + split; [| intros H; exfalso; apply H; now left].
      intros _. rewrite IH2 by assumption. apply addScore_get_same.
    + split.
      * intros [Heq | Hin]; [congruence |].
        rewrite IH1 by assumption. now rewrite addScore_get_other.
      * intros Hnot. rewrite IH2 by (intros H; apply Hnot; now right).
        now apply addScore_get_other.
Qed.

Lemma scoreTokens_one (idx : JsMap.t JsSet.t) (total : nat) (token : string)
  (matches : JsSet.t) (scores : JsMap.t num) :
  JsMap.get idx token = Some matches ->
  scoreTokens idx total [token] scores =
  fold_left
    (addScore (Math_log (n_div (ofNat total) (ofNat (JsSet.size matches)))))
    matches scores.
Proof. intros H. unfold scoreTokens. simpl. now rewrite H. Qed.

Lemma scoreBigrams_one (idx : JsMap.t JsSet.t) (total : nat) (bigram : string)
  (matches : JsSet.t) (scores : JsMap.t num) :
  JsMap.get idx bigram = Some matches ->
  scoreBigrams idx total [bigram] scores =
  fold_left
    (addScore
       (n_mul (Math_log (n_div (ofNat total) (ofNat (JsSet.size matches))))
              (ofNat 2)))
    matches scores.
Proof. intros H. unfold scoreBigrams. simpl. now rewrite H. Qed.

(** The loops run token by token. *)
Lemma scoreTokens_app (idx : JsMap.t JsSet.t) (total : nat)
  (pre post : list string) (scores : JsMap.t num) :
  scoreTokens idx total (pre ++ post) scores =
  scoreTokens idx total post (scoreTokens idx total pre scores).
Proof. unfold scoreTokens. apply fold_left_app. Qed.

Lemma scoreBigrams_app (idx : JsMap.t JsSet.t) (total : nat)
  (pre post : list string) (scores : JsMap.t num) :
  scoreBigrams idx total (pre ++ post) scores =
  scoreBigrams idx total post (scoreBigrams idx total pre scores).
Proof. unfold scoreBigrams. apply fold_left_app. Qed.

Lemma scoreTitle_hit (queryLower : string) (scores : JsMap.t num)
  (soc : OccupationEntry) :
  titleHit queryLower soc = true ->
  scoreTitle queryLower scores soc =
  addScore
    (titleBonus (countTitleMatches queryLower (tokenize (title soc)))
                (length (tokenize (title soc))))
    scores (code soc).
Proof. unfold titleHit, scoreTitle. now intros ->. Qed.



End PassFacts.




(** ** Document frequencies and weights *)

(** A key is bound to at least one code and to no more codes than there are
    entries. *)
Lemma document_frequency_bounds (socCodes : list OccupationEntry)
  (token : string) (matches : JsSet.t) :
  JsMap.get (socIndex (buildIndex socCodes)) token = Some matches ->
  1 <= JsSet.size matches <= length socCodes.
Proof.
  intros H. destruct (buildIndex_wellFormed socCodes token matches H)
    as [Hne Hnd].
  split.
  - unfold JsSet.size. destruct matches; [congruence | simpl; lia].
  - unfold JsSet.size. rewrite <- (length_map code socCodes).
    apply NoDup_incl_length; [assumption |].
    intros c Hc.
    assert (Hc' : In c (codesOf (socIndex (buildIndex socCodes)) token))
      by (unfold codesOf; now rewrite H).
    apply buildIndex_codesOf in Hc'. destruct Hc' as [soc [H1 [<- _]]].
    now apply in_map.
Qed.




(** ** The external ranking *)

Section ExternalFacts.
Variable JSON_parse : string -> option json.

(** Every failure of the external ranking ends in [null]. *)
Lemma matchSocCodesWithAI_failure (OPENAI_API_KEY : string)
  (byCode : JsMap.t OccupationEntry) (outcome : FetchOutcome) :
  OPENAI_API_KEY = "" \/ ExternalFailure JSON_parse byCode outcome ->
  matchSocCodesWithAI JSON_parse OPENAI_API_KEY byCode outcome = None.
Proof.
  unfold matchSocCodesWithAI. intros [-> | Hfail]; [reflexivity |].
  destruct (String.eqb OPENAI_API_KEY ""); [reflexivity |].
  destruct Hfail as [| | data v Hc Hv | data text Hc Hm
                    | data text jsonMatch Hc Hm Hp | outcome Ht].
  - reflexivity.
  - reflexivity.
  - unfold aiTryBlock. cbn [bind]. rewrite Hc. cbn [bind].
    destruct v as [[| b | x | text | items | props] |]; try reflexivity.
    exfalso. now apply (Hv text).
  - unfold aiTryBlock. cbn [bind]. rewrite Hc. cbn [bind]. now rewrite Hm.
  - unfold aiTryBlock. cbn [bind]. rewrite Hc. cbn [bind]. now rewrite Hm, Hp.
  - now rewrite Ht.
Qed.

(** The route answers with status 200 whenever the request has a program. *)
Lemma socMatchRoute_answers {N : Number} (OPENAI_API_KEY : string)
  (socCodes : list OccupationEntry) (outcome : FetchOutcome)
  (body : MatchRequest) (programData : ProgramData) :
  program body = Some programData ->
  exists response,
    socMatchRoute JSON_parse OPENAI_API_KEY socCodes outcome body
    = Json200 response
    /\ localMatches response =
       matchSocCodes socCodes programData (requestedTopN body)
    /\ (aiMatches response = None
        \/ aiMatches response =
           matchSocCodesWithAI JSON_parse OPENAI_API_KEY
             (socByCode (buildIndex socCodes)) outcome).
Proof.
  intros Hp. unfold socMatchRoute, socMatchBody. rewrite Hp.
  cbn [tryCatch]. eexists. split; [reflexivity |].
  cbn [localMatches aiMatches]. split; [reflexivity |].
  destruct (_ && _); [now right | now left].
Qed.

Lemma socMatchRoute_never_500 {N : Number} (OPENAI_API_KEY : string)
  (socCodes : list OccupationEntry) (outcome : FetchOutcome)
  (body : MatchRequest) :
  socMatchRoute JSON_parse OPENAI_API_KEY socCodes outcome body <> Json500.
Proof.
  unfold socMatchRoute, socMatchBody.
  destruct (program body); cbn [tryCatch]; discriminate.
Qed.

End ExternalFacts.

(** C8.  When there is no API key, or the external ranking fails (the
    request is rejected by an error or a timeout, the answer is not
    parseable, it holds no JSON array, or anything else throws), the route
    answers a request that has a program with status 200, the external
    matches being [null] and the local matches being what [matchSocCodes]
    returns for the program; and no outcome of the external call makes the
    route answer with status 500. *)
Theorem socMatchRoute_external_failure {N : Number}
  (JSON_parse : string -> option json) (OPENAI_API_KEY : string)
  (socCodes : list OccupationEntry) (outcome : FetchOutcome)
  (body : MatchRequest) (programData : ProgramData) :
  program body = Some programData ->
  OPENAI_API_KEY = ""
  \/ ExternalFailure JSON_parse (socByCode (buildIndex socCodes)) outcome ->
  matchSocCodesWithAI JSON_parse OPENAI_API_KEY
    (socByCode (buildIndex socCodes)) outcome = None
  /\ (exists response,
        socMatchRoute JSON_parse OPENAI_API_KEY socCodes outcome body
        = Json200 response
        /\ aiMatches response = None
        /\ localMatches response =
           matchSocCodes socCodes programData (requestedTopN body))
  /\ (forall anyOutcome anyBody,
        socMatchRoute JSON_parse OPENAI_API_KEY socCodes anyOutcome anyBody
        <> Json500).
Proof.
  intros Hp Hfail.
  pose proof (matchSocCodesWithAI_failure JSON_parse OPENAI_API_KEY _ _ Hfail)
    as Hnull.
  split; [exact Hnull |]. split.
  - destruct (socMatchRoute_answers JSON_parse OPENAI_API_KEY socCodes outcome
                body programData Hp) as [response [H1 [H2 H3]]].
    exists response. split; [exact H1 |]. split; [| exact H2].
    destruct H3 as [H3 | H3]; [exact H3 | now rewrite H3].
  - intros anyOutcome anyBody. apply socMatchRoute_never_500.
Qed.

(** A witness of C8: the request times out while a key is set. *)
Lemma socMatchRoute_external_failure_witness :
  exists response,
    socMatchRoute (N := R_number) (fun _ => None) "sk-key" computerTaxonomy
      FetchRejects
      {| program := Some (programNamed "Computer"); topN := None;
         useAI := Some true |}
    = Json200 response
    /\ aiMatches response = None
    /\ localMatches response =
       matchSocCodes computerTaxonomy (programNamed "Computer") 10.
Proof.
  apply (socMatchRoute_external_failure (N := R_number) (fun _ => None)
           "sk-key" computerTaxonomy FetchRejects
           {| program := Some (programNamed "Computer"); topN := None;
              useAI := Some true |} (programNamed "Computer") eq_refl).
  right. constructor.
Defined.

(** ** Enrichment of the external matches *)

Lemma enrich_Enriched (byCode : JsMap.t OccupationEntry) (m : json)
  (r : Ai.Match) :
  enrich byCode m = Normal r -> Enriched byCode m r.
Proof.
  unfold enrich, Enriched.
  destruct (Js.prop (Some m) "code") as [mcode |]; [| discriminate].
  destruct (Js.prop (Some m) "title") as [mtitle |]; [| discriminate].
  destruct (Js.prop (Some m) "reason") as [mreason |]; [| discriminate].
  cbn [bind]. intros [= <-]. exists mcode, mtitle, mreason.
  cbn [Ai.code Ai.reason Ai.source Ai.verified Ai.title Ai.majorGroup
       Ai.minorGroup Ai.broadGroup].
  repeat (split; [reflexivity |]). split.
  - intros c l -> Hget. cbn [localEntry]. rewrite Hget. cbn [option_map].
    split; [reflexivity |]. split; [| repeat split].
    unfold Js.or, Js.truthy. now destruct (String.eqb (title l) "").
  - intros Hnone.
    assert (Hl : localEntry byCode mcode = None).
    { destruct mcode as [[| b | x | c | items | props] |]; try reflexivity.
      cbn [localEntry]. now apply Hnone. }
    rewrite Hl. cbn [option_map]. repeat split.
Qed.

(** Only [null] makes the callback throw. *)
Lemma enrich_total (byCode : JsMap.t OccupationEntry) (m : json) :
  m <> JNull -> exists r, enrich byCode m = Normal r.
Proof.
  intros H. unfold enrich.
  destruct m; try congruence; cbn [Js.prop bind]; now eexists.
Qed.

Lemma mapM_Forall2 {A B : Type} (f : A -> completion B) (l : list A)
  (rs : list B) :
  mapM f l = Normal rs -> Forall2 (fun a b => f a = Normal b) l rs.
Proof.
  revert rs. induction l as [| a l IH]; simpl; intros rs.
  - intros [= <-]. constructor.
  - destruct (f a) as [b |] eqn:Ea; [| discriminate]. cbn [bind].
    destruct (mapM f l) as [bs |]; [| discriminate]. cbn [bind].
    intros [= <-]. constructor; [assumption | now apply IH].
Qed.

(** A successful call returns the enriched items of the parsed array. *)
Lemma matchSocCodesWithAI_success (JSON_parse : string -> option json)
  (OPENAI_API_KEY : string) (byCode : JsMap.t OccupationEntry)
  (outcome : FetchOutcome) (results : list Ai.Match) :
  matchSocCodesWithAI JSON_parse OPENAI_API_KEY byCode outcome = Some results ->
  exists data text jsonMatch aiMatches,
    outcome = BodyParsed data
    /\ responseContent data = Normal (Some (JStr text))
    /\ matchJsonArray text = Some jsonMatch
    /\ JSON_parse jsonMatch = Some (JArr aiMatches)
    /\ mapM (enrich byCode) aiMatches = Normal results.
Proof.
  unfold matchSocCodesWithAI.
  destruct (String.eqb OPENAI_API_KEY ""); [discriminate |].
  unfold aiTryBlock.
  destruct outcome as [| | data]; try discriminate. cbn [bind].
  destruct (responseContent data) as [content |] eqn:Ec; [| discriminate].
  cbn [bind].
  destruct content as [[| b | x | text | items | props] |]; try discriminate.
  destruct (matchJsonArray text) as [jsonMatch |] eqn:Em; [| discriminate].
  destruct (JSON_parse jsonMatch) as [[| b | x | t | aiMatches | props] |]
    eqn:Ep; try discriminate.
  destruct (mapM (enrich byCode) aiMatches) as [rs |] eqn:Er; [| discriminate].
  cbn [bind tryCatch]. intros [= <-].
  now exists data, text, jsonMatch, aiMatches.
Qed.

(** C9, as the code has it.  A successful external call returns one result
    for each item of the array that [JSON.parse] gives for the bracketed
    span of the answer text, in the order of the items.  The result of an
    item has the code and the reason of the item.  When the code is a string
    bound in the code map, the result is verified and has the group labels
    of the local entry, and its title is the local title unless that is
    empty, when the title of the item is kept.  When the code is not bound,
    the result is not verified, has the title of the item and empty group
    labels. *)
Theorem matchSocCodesWithAI_enriched (JSON_parse : string -> option json)
  (OPENAI_API_KEY : string) (byCode : JsMap.t OccupationEntry)
  (outcome : FetchOutcome) (results : list Ai.Match) :
  matchSocCodesWithAI JSON_parse OPENAI_API_KEY byCode outcome = Some results ->
  exists data text jsonMatch aiMatches,
    outcome = BodyParsed data
    /\ responseContent data = Normal (Some (JStr text))
    /\ matchJsonArray text = Some jsonMatch
    /\ JSON_parse jsonMatch = Some (JArr aiMatches)
    /\ Forall2 (Enriched byCode) aiMatches results.
Proof.
  intros H.
  apply matchSocCodesWithAI_success in H.
  destruct H as [data [text [jsonMatch [aiMatches [H1 [H2 [H3 [H4 H]]]]]]]].
  exists data, text, jsonMatch, aiMatches.
  split; [exact H1 |]. split; [exact H2 |]. split; [exact H3 |].
  split; [exact H4 |].
  apply mapM_Forall2 in H.
  eapply Forall2_impl; [| exact H]. intros m r. apply enrich_Enriched.
Qed.

(** C9 fails when the local title is empty: the code is bound, the result is
    verified, and the title is still the one of the external model. *)
Lemma enrich_keeps_external_title :
  JsMap.get (socByCode (buildIndex [untitled])) "15-1252" = Some untitled
  /\ title untitled = ""
  /\ matchSocCodesWithAI parseAnswer "sk-key" (socByCode (buildIndex [untitled]))
       (BodyParsed completionsAnswer)
     = Some [verifiedExternalTitle]
  /\ Ai.verified verifiedExternalTitle = true
  /\ Ai.title verifiedExternalTitle = Some (JStr "Software Engineers").
Proof. repeat split; vm_compute; reflexivity. Qed.

(** A witness of C9: the same call against the taxonomy with titles; the
    one result is the enrichment of the one item of the parsed array. *)
Lemma matchSocCodesWithAI_enriched_witness :
  exists data text jsonMatch aiMatches,
    BodyParsed completionsAnswer = BodyParsed data
    /\ responseContent data = Normal (Some (JStr text))
    /\ matchJsonArray text = Some jsonMatch
    /\ parseAnswer jsonMatch = Some (JArr aiMatches)
    /\ Forall2 (Enriched (socByCode (buildIndex computerTaxonomy))) aiMatches
         [ {| Ai.code := Some (JStr "15-1252");
              Ai.title := Some (JStr "Software Developers");
              Ai.majorGroup := "Computer and Mathematical";
              Ai.minorGroup := "";
              Ai.broadGroup := "";
              Ai.reason := Some (JStr "Builds software");
              Ai.source := "ai";
              Ai.verified := true |} ].
Proof.
  apply (matchSocCodesWithAI_enriched parseAnswer "sk-key"
           (socByCode (buildIndex computerTaxonomy))
           (BodyParsed completionsAnswer)).
  vm_compute. reflexivity.
Defined.

(** ** Scores in closed form *)

Lemma INR_10 : INR 10 = 10%R.
Proof. rewrite INR_IZR_INZ. reflexivity. Qed.

Lemma scoreOf_empty (c : string) : scoreOf JsMap.empty c = 0%R.
Proof. reflexivity. Qed.

Lemma scoreOf_fold_addScore (w : R) (matches : list string)
  (scores : JsMap.t R) (c : string) :
  NoDup matches ->
  scoreOf (fold_left (addScore (N := R_number) w) matches scores) c =
  (scoreOf scores c + (if JsSet.has matches c then w else 0))%R.
Proof.
  intros Hnd. unfold scoreOf.
  destruct (fold_addScore_get (N := R_number) w matches scores c Hnd)
    as [Hin Hout].
  destruct (JsSet.has matches c) eqn:E.
  - apply JsSet_has_In in E.
    transitivity (orZero (N := R_number)
                    (Some (n_add (orZero (JsMap.get scores c)) w)));
      [f_equal; exact (Hin E) | reflexivity].
  - apply JsSet_has_false in E.
    transitivity (orZero (N := R_number) (JsMap.get scores c));
      [f_equal; exact (Hout E) |].
    change (@num R_number) with R. lra.
Qed.

Lemma codesOf_NoDup (idx : JsMap.t JsSet.t) (key : string) :
  wellFormedSets idx -> NoDup (codesOf idx key).
Proof.
  intros Hwf. unfold codesOf.
  destruct (JsMap.get idx key) as [s |] eqn:E; [| constructor].
  now apply (Hwf key s).
Qed.

Lemma scoreOf_scoreTokens (idx : JsMap.t JsSet.t) (total : nat)
  (queryTokens : list string) (scores : JsMap.t R) (c : string) :
  wellFormedSets idx ->
  scoreOf (scoreTokens (N := R_number) idx total queryTokens scores) c =
  (scoreOf scores c + sumR (map (tokenTerm idx total c) queryTokens))%R.
Proof.
  intros Hwf. revert scores.
  induction queryTokens as [| t l IH]; intros scores; [simpl; lra |].
  change (t :: l) with ([t] ++ l) at 1. rewrite scoreTokens_app, IH.
  cbn [map sumR fold_right]. fold (sumR (map (tokenTerm idx total c) l)).
  assert (Hstep : scoreOf (scoreTokens (N := R_number) idx total [t] scores) c
                  = (scoreOf scores c + tokenTerm idx total c t)%R).
  { unfold tokenTerm, idfWeight.
    pose proof (codesOf_NoDup idx t Hwf) as Hnd. unfold codesOf in *.
    destruct (JsMap.get idx t) as [matches |] eqn:E.
    - rewrite (scoreTokens_one idx total t matches) by assumption.
      now rewrite scoreOf_fold_addScore.
    - unfold scoreTokens. simpl. rewrite E. simpl. lra. }
  rewrite Hstep. lra.
Qed.

Lemma scoreOf_scoreBigrams (idx : JsMap.t JsSet.t) (total : nat)
  (queryBigrams : list string) (scores : JsMap.t R) (c : string) :
  wellFormedSets idx ->
  scoreOf (scoreBigrams (N := R_number) idx total queryBigrams scores) c =
  (scoreOf scores c
   + sumR (map (fun b => tokenTerm idx total c b * 2) queryBigrams))%R.
Proof.
  intros Hwf. revert scores.
  induction queryBigrams as [| t l IH]; intros scores; [simpl; lra |].
  change (t :: l) with ([t] ++ l) at 1. rewrite scoreBigrams_app, IH.
  cbn [map sumR fold_right].
  fold (sumR (map (fun b => tokenTerm idx total c b * 2)%R l)).
  assert (Hstep : scoreOf (scoreBigrams (N := R_number) idx total [t] scores) c
                  = (scoreOf scores c + tokenTerm idx total c t * 2)%R).
  { unfold tokenTerm, idfWeight.
    pose proof (codesOf_NoDup idx t Hwf) as Hnd. unfold codesOf in *.
    destruct (JsMap.get idx t) as [matches |] eqn:E.
    - rewrite (scoreBigrams_one idx total t matches) by assumption.
      rewrite scoreOf_fold_addScore by assumption.
      change (@ofNat R_number 2) with 2%R.
      destruct (JsSet.has matches c); simpl; lra.
    - unfold scoreBigrams. simpl. rewrite E. simpl. lra. }
  rewrite Hstep. lra.
Qed.

Lemma scoreOf_scoreTitle (queryLower : string) (scores : JsMap.t R)
  (soc : OccupationEntry) (c : string) :
  scoreOf (scoreTitle (N := R_number) queryLower scores soc) c =
  (scoreOf scores c + titleTerm queryLower c soc)%R.
Proof.
  unfold titleTerm. destruct (titleHit queryLower soc) eqn:Eh; cbn [andb].
  - rewrite scoreTitle_hit by assumption. unfold scoreOf.
    destruct (String.eqb (code soc) c) eqn:Ec.
    + apply String.eqb_eq in Ec. subst c.
      rewrite (addScore_get_same (N := R_number)).
      unfold titleBonus. cbn [orZero].
      change (@n_add R_number) with Rplus. change (@n_mul R_number) with Rmult.
      change (@n_div R_number) with Rdiv. change (@ofNat R_number) with INR.
      now rewrite INR_10.
    + apply String.eqb_neq in Ec.
      rewrite (addScore_get_other (N := R_number)) by assumption.
      change (@num R_number) with R. lra.
  - unfold scoreTitle. unfold titleHit in Eh. rewrite Eh.
    change (@num R_number) with R. lra.
Qed.

Lemma scoreOf_fold_scoreTitle (queryLower : string)
  (l : list OccupationEntry) (scores : JsMap.t R) (c : string) :
  scoreOf (fold_left (scoreTitle (N := R_number) queryLower) l scores) c =
  (scoreOf scores c + sumR (map (titleTerm queryLower c) l))%R.
Proof.
  revert scores. induction l as [| soc l IH]; intros scores; [simpl; lra |].
  cbn [fold_left map sumR fold_right]. rewrite IH, scoreOf_scoreTitle.
  fold (sumR (map (titleTerm queryLower c) l)). lra.
Qed.

(** The accumulated score of a code is the sum of the weights of the query
    tokens whose set holds the code, twice the weights of such query
    bigrams, and the title bonuses of the entries with the code. *)
Lemma accumulatedScores_closed (socCodes : list OccupationEntry)
  (programData : ProgramData) (c : string) :
  scoreOf (accumulatedScores (N := R_number) socCodes programData) c =
  closedScore socCodes programData c.
Proof.
  unfold accumulatedScores, indexScores, closedScore.
  rewrite scoreOf_fold_scoreTitle, scoreOf_scoreBigrams, scoreOf_scoreTokens
    by apply buildIndex_wellFormed.
  rewrite scoreOf_empty. lra.
Qed.

Lemma sumR_nonneg (l : list R) :
  Forall (fun x => 0 <= x)%R l -> (0 <= sumR l)%R.
Proof.
  induction 1 as [| x l Hx _ IH]; simpl; [lra |].
  fold (sumR l). lra.
Qed.

Lemma sumR_zero (l : list R) :
  Forall (fun x => 0 <= x)%R l -> sumR l = 0%R -> Forall (fun x => x = 0%R) l.
Proof.
  induction 1 as [| x l Hx Hl IH]; simpl; intros Hs; [constructor |].
  fold (sumR l) in Hs. pose proof (sumR_nonneg l Hl) as Hn.
  constructor; [lra |]. apply IH. lra.
Qed.

(** The weight of a bound key is not negative, and it is zero only for a
    key that has as many codes as there are entries. *)
Lemma idfWeight_nonneg (socCodes : list OccupationEntry) (key : string) :
  codesOf (socIndex (buildIndex socCodes)) key <> [] ->
  (0 <= idfWeight (socIndex (buildIndex socCodes)) (length socCodes) key)%R
  /\ (idfWeight (socIndex (buildIndex socCodes)) (length socCodes) key = 0%R ->
      JsSet.size (codesOf (socIndex (buildIndex socCodes)) key)
      = length socCodes).
Proof.
  intros Hne. unfold idfWeight.
  assert (Hb : 1 <= JsSet.size (codesOf (socIndex (buildIndex socCodes)) key)
               <= length socCodes).
  { unfold codesOf in *.
    destruct (JsMap.get (socIndex (buildIndex socCodes)) key) as [s |] eqn:E;
      [| now elim Hne].
    now apply (document_frequency_bounds socCodes key). }
  set (df := JsSet.size (codesOf (socIndex (buildIndex socCodes)) key)) in *.
  assert (Hdf : (1 <= INR df)%R) by (change 1%R with (INR 1); apply le_INR; lia).
  assert (Hn : (INR df <= INR (length socCodes))%R) by (apply le_INR; lia).
  assert (Hratio : (1 <= INR (length socCodes) / INR df)%R).
  { apply Rmult_le_reg_r with (r := INR df); [lra |].
    unfold Rdiv. rewrite Rmult_assoc, Rinv_l by lra. lra. }
  split.
  - destruct Hratio as [Hlt | Heq].
    + rewrite <- ln_1. left. apply ln_increasing; lra.
    + rewrite <- Heq, ln_1. lra.
  - intros Hz. rewrite <- ln_1 in Hz. apply ln_inv in Hz; [| lra | lra].
    assert (Heq : INR (length socCodes) = INR df).
    { apply Rmult_eq_reg_r with (r := (/ INR df)%R).
      - rewrite Rinv_r by lra. exact Hz.
      - apply Rinv_neq_0_compat. lra. }
    apply INR_eq in Heq. lia.
Qed.

Lemma tokenTerm_nonneg (socCodes : list OccupationEntry) (c key : string) :
  (0 <= tokenTerm (socIndex (buildIndex socCodes)) (length socCodes) c key)%R.
Proof.
  unfold tokenTerm.
  destruct (JsSet.has (codesOf (socIndex (buildIndex socCodes)) key) c) eqn:E;
    [| lra].
  apply idfWeight_nonneg. apply JsSet_has_In in E. intros H.
  rewrite H in E. contradiction.
Qed.

Lemma titleBonus_positive (queryLower : string) (soc : OccupationEntry) :
  titleHit queryLower soc = true ->
  (0 < INR (countTitleMatches queryLower (tokenize (title soc)))
       / INR (length (tokenize (title soc))) * 10)%R.
Proof.
  unfold titleHit. intros H. apply Nat.ltb_lt in H.
  assert (Hlen : countTitleMatches queryLower (tokenize (title soc))
                 <= length (tokenize (title soc))).
  { rewrite countTitleMatches_filter. apply filter_length_le. }
  assert (Hk : (0 < INR (countTitleMatches queryLower (tokenize (title soc))))%R)
    by (apply lt_0_INR; lia).
  assert (Hn : (0 < INR (length (tokenize (title soc))))%R)
    by (apply lt_0_INR; lia).
  apply Rmult_lt_0_compat; [| lra].
  apply Rdiv_lt_0_compat; assumption.
Qed.

Lemma titleTerm_nonneg (queryLower c : string) (soc : OccupationEntry) :
  (0 <= titleTerm queryLower c soc)%R.
Proof.
  unfold titleTerm. destruct (titleHit queryLower soc) eqn:E; cbn [andb];
    [| lra].
  destruct (String.eqb (code soc) c); [| lra].
  left. now apply titleBonus_positive.
Qed.

(** An accumulated score is not negative; it is zero only for a code without
    title bonus all of whose keys are keys of every code. *)
Lemma closedScore_nonneg (socCodes : list OccupationEntry)
  (programData : ProgramData) (c : string) :
  let idx := socIndex (buildIndex socCodes) in
  let queryTokens := tokenize (queryTextOf programData) in
  let queryLower := JsString.toLowerCase (queryTextOf programData) in
  (0 <= closedScore socCodes programData c)%R
  /\ (closedScore socCodes programData c = 0%R ->
      (forall soc, In soc socCodes -> code soc = c ->
                   titleHit queryLower soc = false)
      /\ (forall k, In k (queryTokens ++ bigramsOf queryTokens) ->
                    In c (codesOf idx k) ->
                    JsSet.size (codesOf idx k) = length socCodes)).
Proof.
  intros idx queryTokens queryLower. unfold closedScore.
  fold idx queryTokens queryLower.
  set (total := length socCodes).
  assert (H1 : Forall (fun x => 0 <= x)%R
                 (map (tokenTerm idx total c) queryTokens)).
  { apply Forall_map, Forall_forall. intros k _. apply tokenTerm_nonneg. }
  assert (H2 : Forall (fun x => 0 <= x)%R
                 (map (fun b => tokenTerm idx total c b * 2)%R
                      (bigramsOf queryTokens))).
  { apply Forall_map, Forall_forall. intros k _.
    pose proof (tokenTerm_nonneg socCodes c k). fold idx total in H. lra. }
  assert (H3 : Forall (fun x => 0 <= x)%R
                 (map (titleTerm queryLower c) socCodes)).
  { apply Forall_map, Forall_forall. intros k _. apply titleTerm_nonneg. }
  pose proof (sumR_nonneg _ H1) as S1. pose proof (sumR_nonneg _ H2) as S2.
  pose proof (sumR_nonneg _ H3) as S3.
  split; [lra |]. intros Hz.
  assert (Z1 : sumR (map (tokenTerm idx total c) queryTokens) = 0%R) by lra.
  assert (Z2 : sumR (map (fun b => tokenTerm idx total c b * 2)%R
                         (bigramsOf queryTokens)) = 0%R) by lra.
  assert (Z3 : sumR (map (titleTerm queryLower c) socCodes) = 0%R) by lra.
  apply sumR_zero in Z1; [| assumption]. apply sumR_zero in Z2; [| assumption].
  apply sumR_zero in Z3; [| assumption].
  rewrite Forall_map, Forall_forall in Z1, Z2, Z3.
  assert (Hkey : forall k, tokenTerm idx total c k = 0%R ->
                           In c (codesOf idx k) ->
                           JsSet.size (codesOf idx k) = total).
  { intros k Hk Hin. unfold tokenTerm in Hk.
    rewrite (proj2 (JsSet_has_In _ _) Hin) in Hk.
    apply (idfWeight_nonneg socCodes k); [| exact Hk].
    intros He. fold idx in He. rewrite He in Hin. contradiction. }
  split.
  - intros soc Hs Hc. specialize (Z3 soc Hs). unfold titleTerm in Z3.
    destruct (titleHit queryLower soc) eqn:E; [| reflexivity].
    rewrite (proj2 (String.eqb_eq _ _) Hc) in Z3. cbn [andb] in Z3.
    pose proof (titleBonus_positive queryLower soc E). lra.
  - intros k Hk Hin. apply in_app_or in Hk. destruct Hk as [Hk | Hk].
    + apply Hkey; [now apply Z1 | assumption].
    + apply Hkey; [| assumption]. specialize (Z2 k Hk). simpl in Z2. lra.
Qed.

(** ** The weights of the index passes *)







(** ** Which codes are returned *)

(** C4, as the code has it.  For every query and [topN >= 0], the result has
    [min(topN, h)] entries, [h] being the number of codes in the score map,
    and every returned code was written to the score map: a query token or
    bigram is an index key of an entry with that code, or an entry with
    that code has a title bonus.  Entries that were not hit are never
    added.  The accumulated score of a returned code is not negative, and
    it is zero only when the code has no title bonus and every query key
    that hit it has as many codes as there are entries. *)
Theorem matchSocCodes_only_hits (socCodes : list OccupationEntry)
  (programData : ProgramData) (topN : Z) :
  (0 <= topN)%Z ->
  let idx := socIndex (buildIndex socCodes) in
  let queryTokens := tokenize (queryTextOf programData) in
  let queryLower := JsString.toLowerCase (queryTextOf programData) in
  let scores := accumulatedScores (N := R_number) socCodes programData in
  let result := matchSocCodes (N := R_number) socCodes programData topN in
  length result = Nat.min (Z.to_nat topN) (length (JsMap.keys scores))
  /\ forall m, In m result ->
       exists soc hit s,
         entryFields m = Some soc /\ In soc socCodes
         /\ In hit socCodes /\ code hit = code soc
         /\ ((exists k, In k (queryTokens ++ bigramsOf queryTokens)
                        /\ In k (entryKeys hit))
             \/ titleHit queryLower hit = true)
         /\ JsMap.get scores (code soc) = Some s
         /\ (0 <= s)%R
         /\ (s = 0%R ->
             (forall e, In e socCodes -> code e = code soc ->
                        titleHit queryLower e = false)
             /\ (forall k, In k (queryTokens ++ bigramsOf queryTokens) ->
                           In (code soc) (codesOf idx k) ->
                           JsSet.size (codesOf idx k) = length socCodes)).
Proof.
  intros Hn idx queryTokens queryLower scores result. split.
  - unfold result, scores.
    rewrite matchSocCodes_length_eq, keys_accumulatedScores.
    destruct (topN <? 0)%Z eqn:E; lia.
  - intros m Hm. apply matchSocCodes_In in Hm.
    destruct Hm as [c [s [soc [Hr [Hs [Hc [He _]]]]]]].
    apply rankedScores_In in Hr. destruct Hr as [Hget Hr].
    apply insertionOrder_In in Hr. destruct Hr as [hit [H1 [H2 H3]]].
    fold scores in Hget. rewrite <- Hc in Hget, H2. clear Hc c.
    assert (Hclosed : s = closedScore socCodes programData (code soc)).
    { rewrite <- accumulatedScores_closed. fold scores. unfold scoreOf.
      transitivity (orZero (N := R_number) (Some s)); [reflexivity |].
      f_equal. symmetry. exact Hget. }
    destruct (closedScore_nonneg socCodes programData (code soc))
      as [Hpos Hzero].
    exists soc, hit, s.
    split; [exact He |]. split; [exact Hs |]. split; [exact H1 |].
    split; [exact H2 |]. split; [exact H3 |]. split; [exact Hget |].
    rewrite Hclosed. split; [exact Hpos | exact Hzero].
Qed.

Lemma matchSocCodes_only_hits_witness :
  length (matchSocCodes (N := R_number) computerTaxonomy
            (programNamed "Computer") 10) = 2.
Proof.
  pose proof (matchSocCodes_only_hits computerTaxonomy
                (programNamed "Computer") 10) as H.
  cbv zeta in H. destruct H as [H _]; [lia |].
  rewrite H, keys_accumulatedScores.
  replace (insertionOrder computerTaxonomy (programNamed "Computer"))
    with ["15-1252"; "15-1243"] by (vm_compute; reflexivity).
  reflexivity.
Defined.

(** C4 fails: no code of the worked query has a nonzero score, and yet both
    entries are returned, with score zero. *)
Lemma matchSocCodes_returns_zero_scores :
  accumulatedScores (N := R_number) computerTaxonomy (programNamed "Computer")
  = [("15-1252", 0%R); ("15-1243", 0%R)]
  /\ matchSocCodes (N := R_number) computerTaxonomy (programNamed "Computer") 10
     = [ (scoredR softwareDevelopers 0);
         (scoredR databaseArchitects 0) ].
Proof.
  split; [apply computer_scores_R |]. rewrite computer_matches. reflexivity.
Qed.

(** * Further properties *)

(** ** Letter case *)

Lemma toLowerChar_idempotent (c : ascii) :
  JsString.toLowerChar (JsString.toLowerChar c) = JsString.toLowerChar c.
Proof.
  destruct c as [[] [] [] [] [] [] [] []]; vm_compute; reflexivity.
Qed.

Lemma toLowerCase_idempotent (s : string) :
  JsString.toLowerCase (JsString.toLowerCase s) = JsString.toLowerCase s.
Proof.
  unfold JsString.toLowerCase. induction s as [| c s IH]; simpl; [reflexivity |].
  now rewrite toLowerChar_idempotent, IH.
Qed.

Lemma toLowerCase_append (a b : string) :
  JsString.toLowerCase (a ++ b) =
  (JsString.toLowerCase a ++ JsString.toLowerCase b)%string.
Proof.
  unfold JsString.toLowerCase. induction a as [| c a IH]; simpl; [reflexivity |].
  now rewrite IH.
Qed.

Lemma toLowerCase_empty (s : string) :
  JsString.toLowerCase s = EmptyString <-> s = EmptyString.
Proof.
  unfold JsString.toLowerCase. destruct s; simpl; split; congruence.
Qed.

Lemma toLowerCase_join (l : list string) :
  JsString.toLowerCase (JsString.join " " l) =
  JsString.join " " (map JsString.toLowerCase l).
Proof.
  unfold JsString.join. induction l as [| a l IH]; [reflexivity |].
  destruct l as [| b l]; [reflexivity |].
  change (String.concat " " (a :: b :: l))
    with (a ++ " " ++ String.concat " " (b :: l))%string.
  rewrite !toLowerCase_append, IH. reflexivity.
Qed.

Lemma filterBoolean_lower (fields : list (option string)) :
  map JsString.toLowerCase (filterBoolean fields) =
  filterBoolean (map (option_map JsString.toLowerCase) fields).
Proof.
  unfold filterBoolean. induction fields as [| f l IH]; [reflexivity |].
  cbn [flat_map map]. rewrite map_app, IH. f_equal.
  destruct f as [s |]; [| reflexivity]. cbn [option_map].
  destruct s; reflexivity.
Qed.

Lemma queryTextOf_lower (p : ProgramData) :
  JsString.toLowerCase (queryTextOf p) =
  JsString.join " "
    (filterBoolean
       (map (option_map JsString.toLowerCase)
            [longName p; name p; type p; degreeDesignation p; college p;
             level p])).
Proof.
  unfold queryTextOf. now rewrite toLowerCase_join, filterBoolean_lower.
Qed.

Lemma sameUpToCase_queryText (p p' : ProgramData) :
  sameUpToCase p p' ->
  JsString.toLowerCase (queryTextOf p) = JsString.toLowerCase (queryTextOf p').
Proof.
  intros [H1 [H2 [H3 [H4 [H5 H6]]]]]. rewrite !queryTextOf_lower.
  unfold sameFieldUpToCase in *. cbn [map].
  now rewrite H1, H2, H3, H4, H5, H6.
Qed.

Lemma accumulatedScores_by_lower {N : Number}
  (socCodes : list OccupationEntry) (p p' : ProgramData) :
  JsString.toLowerCase (queryTextOf p) = JsString.toLowerCase (queryTextOf p') ->
  accumulatedScores socCodes p = accumulatedScores socCodes p'.
Proof.
  intros H. unfold accumulatedScores, indexScores, tokenize. now rewrite H.
Qed.

(** X1.  Matching ignores letter case: two programs whose six query fields
    differ at most in the case of their letters get the same score map and
    the same matches, for every taxonomy and [topN]. *)
Theorem matchSocCodes_case_insensitive {N : Number}
  (socCodes : list OccupationEntry) (p p' : ProgramData) (topN : Z) :
  sameUpToCase p p' ->
  accumulatedScores socCodes p = accumulatedScores socCodes p'
  /\ matchSocCodes socCodes p topN = matchSocCodes socCodes p' topN.
Proof.
  intros H. apply sameUpToCase_queryText in H.
  pose proof (accumulatedScores_by_lower socCodes p p' H) as Hs.
  split; [exact Hs |]. unfold matchSocCodes, rankedScores. now rewrite Hs.
Qed.

Lemma matchSocCodes_case_insensitive_witness :
  matchSocCodes (N := R_number) computerTaxonomy (programNamed "COMPUTER") 10
  = matchSocCodes (N := R_number) computerTaxonomy (programNamed "Computer") 10.
Proof.
  apply (matchSocCodes_case_insensitive (N := R_number)).
  repeat split.
Defined.

(** ** Substrings *)

Lemma prefix_append (t s : string) :
  String.prefix t s = true <-> exists post, s = (t ++ post)%string.
Proof.
  revert s. induction t as [| c t IH]; intros s.
  - split; [intros _; now exists s | intros _; now destruct s].
  - destruct s as [| d s]; simpl.
    + split; [discriminate | intros [post H]; discriminate].
    + destruct (Ascii.ascii_dec c d) as [<- | Hne].
      * split.
        -- intros H. apply IH in H. destruct H as [post ->]. now exists post.
        -- intros [post H]. apply IH. exists post. simpl in H. congruence.
      * split; [discriminate | intros [post H]; simpl in H; congruence].
Qed.

Lemma includes_spec (s t : string) :
  JsString.includes s t = true <-> substringOf t s.
Proof.
  unfold substringOf. induction s as [| c s IH]; cbn [JsString.includes].
  - rewrite orb_false_r. split.
    + intros H. apply prefix_append in H. destruct H as [post H].
      now exists EmptyString, post.
    + intros [pre [post H]]. apply prefix_append.
      destruct pre; [now exists post | discriminate].
  - rewrite orb_true_iff. split.
    + intros [H | H].
      * apply prefix_append in H. destruct H as [post H].
        now exists EmptyString, post.
      * apply IH in H. destruct H as [pre [post H]].
        exists (String c pre), post. simpl. now rewrite H.
    + intros [pre [post H]]. destruct pre as [| d pre].
      * left. apply prefix_append. now exists post.
      * right. apply IH. simpl in H. injection H as -> ->. now exists pre, post.
Qed.

Lemma append_assoc (a b c : string) :
  ((a ++ b) ++ c)%string = (a ++ (b ++ c))%string.
Proof. induction a as [| x a IH]; simpl; [reflexivity | now rewrite IH]. Qed.

Lemma append_empty_r (a : string) : (a ++ EmptyString)%string = a.
Proof. induction a as [| x a IH]; simpl; [reflexivity | now rewrite IH]. Qed.

Lemma substringOf_trans (a b c : string) :
  substringOf a b -> substringOf b c -> substringOf a c.
Proof.
  intros [p1 [q1 ->]] [p2 [q2 ->]]. exists (p2 ++ p1)%string, (q1 ++ q2)%string.
  now rewrite !append_assoc.
Qed.

Lemma substringOf_cons (c : ascii) (t s : string) :
  substringOf t s -> substringOf t (String c s).
Proof. intros [pre [post ->]]. now exists (String c pre), post. Qed.

(** The first word of a text that starts inside a word is a prefix of the
    text. *)
Lemma wordsOf_head (s : string) :
  startsWithAlnum s = true ->
  exists w ws post, wordsOf s = w :: ws /\ s = (w ++ post)%string.
Proof.
  induction s as [| c s IH]; [discriminate |].
  cbn [startsWithAlnum wordsOf]. intros Hc. rewrite Hc.
  destruct (startsWithAlnum s) eqn:E.
  - destruct (IH eq_refl) as [w [ws [post [Hw Hs]]]]. rewrite Hw.
    exists (String c w), ws, post. split; [reflexivity |]. simpl. now rewrite Hs.
  - exists (String c EmptyString), (wordsOf s), s. now split.
Qed.

Lemma wordsOf_substring (s w : string) :
  In w (wordsOf s) -> substringOf w s.
Proof.
  revert w. induction s as [| c s IH]; intros w; [intros [] |].
  cbn [wordsOf]. destruct (JsString.isAlnum c) eqn:Ec.
  - destruct (startsWithAlnum s) eqn:E.
    + destruct (wordsOf_head s E) as [w0 [ws [post [Hw Hs]]]].
      rewrite Hw in *. intros [<- | Hin].
      * exists EmptyString, post. simpl. now rewrite Hs.
      * apply substringOf_cons, IH. now right.
    + intros [<- | Hin].
      * now exists EmptyString, s.
      * now apply substringOf_cons, IH.
  - intros Hin. now apply substringOf_cons, IH.
Qed.

(** Every token of a text occurs in the lower-cased text. *)
Lemma tokenize_substring (text t : string) :
  In t (tokenize text) -> substringOf t (JsString.toLowerCase text).
Proof.
  rewrite tokenize_words. intros H. apply filter_In in H.
  now apply wordsOf_substring.
Qed.

(** ** Tokenizing twice *)

Lemma toLowerChar_alnum (c : ascii) :
  JsString.isAlnum c = true -> JsString.toLowerChar c = c.
Proof.
  destruct c as [[] [] [] [] [] [] [] []]; vm_compute;
    intros H; first [reflexivity | discriminate].
Qed.

Lemma toLowerCase_alnum (w : string) :
  allChars JsString.isAlnum w = true -> JsString.toLowerCase w = w.
Proof.
  unfold JsString.toLowerCase. induction w as [| c w IH]; simpl;
    [reflexivity |].
  intros H. apply andb_true_iff in H. destruct H as [Hc Hw].
  now rewrite toLowerChar_alnum, IH.
Qed.

Lemma wordsOf_word_then (w r : string) :
  w <> EmptyString -> allChars JsString.isAlnum w = true ->
  startsWithAlnum r = false ->
  wordsOf (w ++ r) = w :: wordsOf r.
Proof.
  induction w as [| c w IH]; [congruence |].
  intros _ Hall Hr. simpl in Hall. apply andb_true_iff in Hall.
  destruct Hall as [Hc Hw].
  change (String c w ++ r)%string with (String c (w ++ r)).
  cbn [wordsOf]. rewrite Hc. destruct w as [| d w].
  - simpl. now rewrite Hr.
  - assert (Hd : startsWithAlnum (String d w ++ r) = true).
    { simpl in Hw |- *. now apply andb_true_iff in Hw. }
    rewrite Hd, IH by (assumption || discriminate). reflexivity.
Qed.

Lemma wordsOf_join (ws : list string) :
  Forall (fun w => w <> EmptyString /\ allChars JsString.isAlnum w = true) ws ->
  wordsOf (JsString.join " " ws) = ws.
Proof.
  unfold JsString.join. induction 1 as [| w ws [Hne Hall] Hws IH];
    [reflexivity |].
  destruct ws as [| w' ws].
  - change (String.concat " " [w]) with w.
    rewrite <- (append_empty_r w) at 1.
    now rewrite wordsOf_word_then by easy.
  - change (String.concat " " (w :: w' :: ws))
      with (w ++ String " " (String.concat " " (w' :: ws)))%string.
    rewrite wordsOf_word_then by easy. f_equal. exact IH.
Qed.

Lemma toLowerCase_join_tokens (ws : list string) :
  Forall (fun w => allChars JsString.isAlnum w = true) ws ->
  JsString.toLowerCase (JsString.join " " ws) = JsString.join " " ws.
Proof.
  intros H. rewrite toLowerCase_join. f_equal.
  induction H as [| w ws Hw _ IH]; simpl; [reflexivity |].
  now rewrite toLowerCase_alnum, IH.
Qed.

Lemma filter_all {A : Type} (p : A -> bool) (l : list A) :
  (forall x, In x l -> p x = true) -> filter p l = l.
Proof.
  induction l as [| a l IH]; simpl; intros H; [reflexivity |].
  rewrite (H a) by now left. f_equal. apply IH. intros x Hx. apply H. now right.
Qed.

Lemma tokenize_alnum (text t : string) :
  In t (tokenize text) -> allChars JsString.isAlnum t = true.
Proof.
  rewrite tokenize_words. intros H. apply filter_In in H. destruct H as [H _].
  pose proof (wordsOf_alnum (JsString.toLowerCase text)) as Hall.
  rewrite Forall_forall in Hall. now apply Hall.
Qed.

(** X2.  Tokenizing is stable: the tokens of a text, joined by single
    spaces and tokenized again, are the same tokens; and every token occurs
    in the lower-cased text as a contiguous substring. *)
Theorem tokenize_round_trip (text : string) :
  tokenize (JsString.join " " (tokenize text)) = tokenize text
  /\ Forall (fun t => substringOf t (JsString.toLowerCase text))
            (tokenize text).
Proof.
  split.
  - rewrite tokenize_words at 1.
    rewrite toLowerCase_join_tokens, wordsOf_join.
    + apply filter_all. apply tokenize_keep.
    + apply Forall_forall. intros t Ht. split; [| now apply tokenize_alnum in Ht].
      apply tokenize_keep, keepToken_nonEmpty in Ht. intros ->. discriminate.
    + apply Forall_forall. intros t Ht. now apply tokenize_alnum in Ht.
  - apply Forall_forall. intros t. apply tokenize_substring.
Qed.

(** ** Unigram keys and bigram keys *)

Lemma allChars_append (p : ascii -> bool) (a b : string) :
  allChars p (a ++ b) = allChars p a && allChars p b.
Proof.
  induction a as [| c a IH]; simpl; [reflexivity |].
  now rewrite IH, andb_assoc.
Qed.

Lemma bigramsOf_not_alnum (tokens : list string) (b : string) :
  In b (bigramsOf tokens) -> allChars JsString.isAlnum b = false.
Proof.
  induction tokens as [| x l IH]; [intros [] |].
  destruct l as [| y l]; [intros [] |].
  change (bigramsOf (x :: y :: l))
    with ((x ++ "_" ++ y)%string :: bigramsOf (y :: l)).
  intros [<- | Hin]; [| now apply IH].
  rewrite !allChars_append. cbn. apply andb_false_r.
Qed.

Lemma bigramsOf_length (tokens : list string) :
  length (bigramsOf tokens) = length tokens - 1.
Proof.
  induction tokens as [| x l IH]; [reflexivity |].
  destruct l as [| y l]; [reflexivity |].
  change (bigramsOf (x :: y :: l))
    with ((x ++ "_" ++ y)%string :: bigramsOf (y :: l)).
  cbn [length] in *. rewrite IH. lia.
Qed.

(** X3.  A token list of length [n] has [n - 1] bigrams.  No bigram is a
    token of any text, since it holds an underscore; so a query token hits
    an entry only through a word of the entry, and a query bigram only
    through a pair of adjacent words of the entry. *)
Theorem bigram_keys_separate (tokens : list string) (text : string)
  (soc : OccupationEntry) :
  length (bigramsOf tokens) = length tokens - 1
  /\ (forall b, In b (bigramsOf tokens) -> ~ In b (tokenize text))
  /\ (forall t, In t (tokenize text) ->
        (In t (entryKeys soc) <-> In t (tokenize (allText soc))))
  /\ (forall b, In b (bigramsOf tokens) ->
        (In b (entryKeys soc) <->
         In b (bigramsOf (tokenize (allText soc))))).
Proof.
  assert (Hsep : forall l txt b, In b (bigramsOf l) -> ~ In b (tokenize txt)).
  { intros l txt b Hb Ht. apply bigramsOf_not_alnum in Hb.
    apply tokenize_alnum in Ht. congruence. }
  split; [apply bigramsOf_length |]. split; [apply Hsep |].
  unfold entryKeys. split.
  - intros t Ht. rewrite in_app_iff. split; [| tauto].
    intros [H | H]; [exact H |]. exfalso. now apply (Hsep _ text t H).
  - intros b Hb. rewrite in_app_iff. split; [| tauto].
    intros [H | H]; [| exact H]. exfalso. now apply (Hsep _ (allText soc) b Hb).
Qed.

(** ** The index as a whole *)

(** X4.  The keys of the inverted index are exactly the tokens and bigrams
    of the entries: a key is unbound exactly when no entry has it, and a
    bound key holds a non-empty set without repetition. *)
Theorem socIndex_keys_exact (socCodes : list OccupationEntry) (key : string) :
  (JsMap.get (socIndex (buildIndex socCodes)) key = None <->
   forall soc, In soc socCodes -> ~ In key (entryKeys soc))
  /\ (forall matches,
        JsMap.get (socIndex (buildIndex socCodes)) key = Some matches ->
        matches <> [] /\ NoDup matches
        /\ exists soc, In soc socCodes /\ In key (entryKeys soc)).
Proof.
  split; [apply buildIndex_unbound |].
  intros matches H.
  destruct (buildIndex_wellFormed socCodes key matches H) as [Hne Hnd].
  split; [exact Hne |]. split; [exact Hnd |].
  destruct matches as [| c l]; [congruence |].
  assert (Hc : In c (codesOf (socIndex (buildIndex socCodes)) key))
    by (unfold codesOf; rewrite H; now left).
  apply buildIndex_codesOf in Hc. destruct Hc as [soc [H1 [_ H2]]].
  now exists soc.
Qed.

Lemma socByCode_fold_other (l : list OccupationEntry) (ix : Index)
  (c : string) :
  ~ In c (map code l) ->
  JsMap.get (socByCode (fold_left indexEntry l ix)) c =
  JsMap.get (socByCode ix) c.
Proof.
  revert ix. induction l as [| soc l IH]; simpl; intros ix H; [reflexivity |].
  rewrite IH by tauto. rewrite socByCode_indexEntry.
  apply get_set_other. tauto.
Qed.

(** X5.  The code map binds exactly the codes of the entries, and a code
    that several entries carry is bound to the last of them. *)
Theorem socByCode_last_wins (socCodes : list OccupationEntry) :
  (forall c, JsMap.get (socByCode (buildIndex socCodes)) c = None <->
             ~ In c (map code socCodes))
  /\ (forall pre soc post,
        socCodes = pre ++ soc :: post ->
        ~ In (code soc) (map code post) ->
        JsMap.get (socByCode (buildIndex socCodes)) (code soc) = Some soc).
Proof.
  split.
  - intros c. split.
    + intros H Hin. apply in_map_iff in Hin. destruct Hin as [soc [<- Hs]].
      destruct (socByCode_complete socCodes soc Hs) as [e He]. congruence.
    + intros H.
      destruct (JsMap.get (socByCode (buildIndex socCodes)) c) as [e |] eqn:E;
        [| reflexivity].
      apply socByCode_sound in E. destruct E as [E1 <-].
      exfalso. apply H. now apply in_map.
  - intros pre soc post -> Hpost. unfold buildIndex.
    rewrite fold_left_app. cbn [fold_left].
    rewrite socByCode_fold_other by assumption.
    rewrite socByCode_indexEntry. apply get_set_same.
Qed.

Lemma socByCode_last_wins_witness :
  JsMap.get
    (socByCode (buildIndex [untitled; databaseArchitects; softwareDevelopers]))
    "15-1252"
  = Some softwareDevelopers.
Proof.
  exact (proj2 (socByCode_last_wins
                  [untitled; databaseArchitects; softwareDevelopers])
           [untitled; databaseArchitects] softwareDevelopers []
           eq_refl (fun H => H)).
Defined.

(** ** More on the result *)

Lemma firstn_prefix {A : Type} (a b : nat) (l : list A) :
  a <= b -> exists rest, firstn b l = firstn a l ++ rest.
Proof.
  intros H. exists (skipn a (firstn b l)).
  rewrite <- (firstn_skipn a (firstn b l)) at 1. f_equal.
  rewrite firstn_firstn. f_equal. lia.
Qed.

(** X6.  Asking for more matches only appends: for [0 <= n <= m] the result
    for [n] is a prefix of the result for [m]. *)
Theorem matchSocCodes_prefix {N : Number} (socCodes : list OccupationEntry)
  (programData : ProgramData) (n m : Z) :
  (0 <= n <= m)%Z ->
  exists rest,
    matchSocCodes socCodes programData m =
    matchSocCodes socCodes programData n ++ rest.
Proof.
  intros H. unfold matchSocCodes, rankedScores, slice0.
  set (sorted := sort byScoreDesc _).
  replace (n <? 0)%Z with false by (symmetry; apply Z.ltb_ge; lia).
  replace (m <? 0)%Z with false by (symmetry; apply Z.ltb_ge; lia).
  destruct (firstn_prefix
              (Z.to_nat (Z.min n (Z.of_nat (length sorted))))
              (Z.to_nat (Z.min m (Z.of_nat (length sorted)))) sorted)
    as [rest Hrest]; [lia |].
  rewrite Hrest, map_app. now eexists.
Qed.

Lemma matchSocCodes_prefix_witness :
  exists rest,
    matchSocCodes (N := R_number) computerTaxonomy (programNamed "Computer") 2 =
    matchSocCodes (N := R_number) computerTaxonomy (programNamed "Computer") 1
    ++ rest.
Proof.
  apply (matchSocCodes_prefix (N := R_number)). lia.
Defined.

Lemma NoDup_app_l {A : Type} (l1 l2 : list A) : NoDup (l1 ++ l2) -> NoDup l1.
Proof.
  induction l1 as [| a l1 IH]; simpl; intros H; [constructor |].
  inversion H as [| ? ? Hn Hd]; subst. constructor; [| now apply IH].
  intros Hin. apply Hn. apply in_or_app. now left.
Qed.

Lemma rankedScores_keys_NoDup {N : Number} (socCodes : list OccupationEntry)
  (programData : ProgramData) (topN : Z) :
  NoDup (map fst (rankedScores socCodes programData topN)).
Proof.
  unfold rankedScores, JsMap.entries.
  destruct (slice0_prefix
              (sort byScoreDesc (accumulatedScores socCodes programData)) topN)
    as [rest Hrest].
  assert (Hnd : NoDup (map fst (sort byScoreDesc
                                  (accumulatedScores socCodes programData)))).
  { eapply Permutation_NoDup.
    - apply Permutation_map. apply sort_Permutation.
    - change (NoDup (JsMap.keys (accumulatedScores socCodes programData))).
      rewrite keys_accumulatedScores. apply insertionOrder_NoDup. }
  rewrite Hrest, map_app in Hnd. now apply NoDup_app_l in Hnd.
Qed.

(** X7.  No code is returned twice: the matches of a result all carry a
    code, and their codes are pairwise distinct. *)
Theorem matchSocCodes_distinct_codes {N : Number}
  (socCodes : list OccupationEntry) (programData : ProgramData) (topN : Z) :
  NoDup (map matchCode (matchSocCodes socCodes programData topN))
  /\ Forall (fun m => matchCode m <> None)
            (matchSocCodes socCodes programData topN).
Proof.
  assert (Hcode : forall entry,
            In entry (rankedScores socCodes programData topN) ->
            matchCode (toScoredMatch (socByCode (buildIndex socCodes)) entry)
            = Some (fst entry)).
  { intros [c s] Hin. apply rankedScores_In in Hin. destruct Hin as [_ Hin].
    apply insertionOrder_sound in Hin. destruct Hin as [soc [Hs <-]].
    destruct (socByCode_complete socCodes soc Hs) as [e He].
    unfold matchCode, toScoredMatch. cbn [entryFields fst]. rewrite He.
    apply socByCode_sound in He. destruct He as [_ He]. cbn. now rewrite He. }
  unfold matchSocCodes. split.
  - rewrite map_map.
    rewrite (map_ext_in _ (fun entry => Some (fst entry)) _ Hcode).
    rewrite <- (map_map fst Some).
    apply Finite.Injective_map_NoDup; [intros a b; congruence |].
    apply rankedScores_keys_NoDup.
  - apply Forall_map, Forall_forall. intros entry Hin.
    rewrite (Hcode entry Hin). discriminate.
Qed.

(** ** The title bonus *)

Lemma sumR_member (l : list R) (x : R) :
  Forall (fun y => 0 <= y)%R l -> In x l -> (x <= sumR l)%R.
Proof.
  induction 1 as [| y l Hy Hl IH]; [intros [] |].
  cbn [sumR fold_right]. fold (sumR l). pose proof (sumR_nonneg l Hl) as Hs.
  intros [-> | Hin]; [lra |]. specialize (IH Hin). lra.
Qed.

Lemma countTitleMatches_le (queryLower : string) (titleTokens : list string) :
  countTitleMatches queryLower titleTokens <= length titleTokens.
Proof. rewrite countTitleMatches_filter. apply filter_length_le. Qed.

Lemma countTitleMatches_all (queryLower : string) (soc : OccupationEntry) :
  substringOf (JsString.toLowerCase (title soc)) queryLower ->
  countTitleMatches queryLower (tokenize (title soc)) =
  length (tokenize (title soc)).
Proof.
  intros H. rewrite countTitleMatches_filter. f_equal. apply filter_all.
  intros t Ht. apply includes_spec.
  eapply substringOf_trans; [| exact H]. now apply tokenize_substring.
Qed.

(** X8.  The title bonus of an entry lies in the interval from 0
    (excluded) to 10.  When the lower-cased title occurs verbatim in the
    lower-cased query text and the title has a token, every title token is
    counted, the bonus is exactly 10, and the accumulated score of the
    code of the entry is at least 10. *)
Theorem titleBonus_bounds (socCodes : list OccupationEntry)
  (programData : ProgramData) (soc : OccupationEntry) :
  let queryLower := JsString.toLowerCase (queryTextOf programData) in
  let titleTokens := tokenize (title soc) in
  let k := countTitleMatches queryLower titleTokens in
  let bonus := titleBonus (N := R_number) k (length titleTokens) in
  k <= length titleTokens
  /\ (titleHit queryLower soc = true -> (0 < bonus <= 10)%R)
  /\ (titleTokens <> [] ->
      substringOf (JsString.toLowerCase (title soc)) queryLower ->
      k = length titleTokens /\ bonus = 10%R
      /\ (In soc socCodes ->
          (10 <= scoreOf (accumulatedScores (N := R_number) socCodes
                            programData) (code soc))%R)).
Proof.
  intros queryLower titleTokens k bonus.
  assert (Hle : k <= length titleTokens) by apply countTitleMatches_le.
  assert (Hbonus : bonus = (INR k / INR (length titleTokens) * 10)%R).
  { unfold bonus, titleBonus.
    change (INR k / INR (length titleTokens) * INR 10
            = INR k / INR (length titleTokens) * 10)%R.
    now rewrite INR_10. }
  split; [exact Hle |]. split.
  - intros Hhit. pose proof (titleBonus_positive queryLower soc Hhit) as Hpos.
    fold titleTokens in Hpos. fold k in Hpos. rewrite Hbonus.
    split; [exact Hpos |].
    unfold titleHit in Hhit. apply Nat.ltb_lt in Hhit.
    fold titleTokens in Hhit. fold k in Hhit.
    assert (Hn : (0 < INR (length titleTokens))%R) by (apply lt_0_INR; lia).
    assert (Hk : (INR k <= INR (length titleTokens))%R) by now apply le_INR.
    assert (Hr : (INR k / INR (length titleTokens) <= 1)%R).
    { apply Rmult_le_reg_r with (r := INR (length titleTokens)); [lra |].
      unfold Rdiv. rewrite Rmult_assoc, Rinv_l by lra. lra. }
    lra.
  - intros Hne Hsub.
    assert (Hk : k = length titleTokens)
      by (unfold k, titleTokens; now apply countTitleMatches_all).
    assert (Hn : 1 <= length titleTokens)
      by (destruct titleTokens; [congruence | simpl; lia]).
    assert (Hfull : (INR k / INR (length titleTokens) * 10 = 10)%R).
    { rewrite Hk. field. apply not_0_INR. lia. }
    assert (Hten : bonus = 10%R) by (rewrite Hbonus; exact Hfull).
    split; [exact Hk |]. split; [exact Hten |].
    intros Hin. rewrite accumulatedScores_closed. unfold closedScore.
    fold queryLower.
    set (idx := socIndex (buildIndex socCodes)).
    set (total := length socCodes).
    set (queryTokens := tokenize (queryTextOf programData)).
    assert (H1 : Forall (fun x => 0 <= x)%R
                   (map (tokenTerm idx total (code soc)) queryTokens)).
    { apply Forall_map, Forall_forall. intros t _. apply tokenTerm_nonneg. }
    assert (H2 : Forall (fun x => 0 <= x)%R
                   (map (fun b => tokenTerm idx total (code soc) b * 2)%R
                        (bigramsOf queryTokens))).
    { apply Forall_map, Forall_forall. intros t _.
      pose proof (tokenTerm_nonneg socCodes (code soc) t) as Ht.
      fold idx total in Ht. lra. }
    assert (H3 : Forall (fun x => 0 <= x)%R
                   (map (titleTerm queryLower (code soc)) socCodes)).
    { apply Forall_map, Forall_forall. intros e _. apply titleTerm_nonneg. }
    pose proof (sumR_nonneg _ H1) as S1. pose proof (sumR_nonneg _ H2) as S2.
    assert (Hterm : titleTerm queryLower (code soc) soc = 10%R).
    { unfold titleTerm, titleHit. fold titleTokens. fold k.
      replace (0 <? k) with true by (symmetry; apply Nat.ltb_lt; lia).
      rewrite String.eqb_refl. cbn [andb]. exact Hfull. }
    assert (S3 : (10 <= sumR (map (titleTerm queryLower (code soc)) socCodes))%R).
    { rewrite <- Hterm. apply sumR_member; [exact H3 |]. now apply in_map. }
    lra.
Qed.

Lemma titleBonus_bounds_witness :
  (10 <= scoreOf (accumulatedScores (N := R_number)
                    [softwareDevelopers; registeredNurses]
                    (programNamed "Registered Nurses"))
           "29-1141")%R.
Proof.
  pose proof (titleBonus_bounds [softwareDevelopers; registeredNurses]
                (programNamed "Registered Nurses") registeredNurses) as H.
  cbv zeta in H. destruct H as [_ [_ H]].
  destruct H as [_ [_ H]].
  - vm_compute. discriminate.
  - exists EmptyString, EmptyString. vm_compute. reflexivity.
  - apply H. right. now left.
Defined.

(** X9.  Every returned relevance score is a non-negative whole number of
    hundredths. *)
Theorem relevanceScore_hundredths (socCodes : list OccupationEntry)
  (programData : ProgramData) (topN : Z) (m : ScoredMatch) :
  In m (matchSocCodes (N := R_number) socCodes programData topN) ->
  exists z : Z, (0 <= z)%Z /\ relevanceScore m = (IZR z / 100)%R.
Proof.
  intros Hm. apply matchSocCodes_In in Hm.
  destruct Hm as [c [s [soc [Hr [_ [_ [_ Hscore]]]]]]].
  apply rankedScores_In in Hr. destruct Hr as [Hget _].
  assert (Hs : (0 <= s)%R).
  { destruct (closedScore_nonneg socCodes programData c) as [Hpos _].
    rewrite <- accumulatedScores_closed in Hpos. unfold scoreOf in Hpos.
    replace s with (orZero (N := R_number) (Some s)) by reflexivity.
    replace (Some s)
      with (JsMap.get (accumulatedScores (N := R_number) socCodes programData) c).
    exact Hpos. }
  exists (Zfloor (s * 100 + / 2)). split.
  - apply Zfloor_lub. simpl. lra.
  - rewrite Hscore.
    change (R_round (s * INR 100) / INR 100 = IZR (Zfloor (s * 100 + / 2)) / 100)%R.
    now rewrite INR_100.
Qed.

Lemma relevanceScore_hundredths_witness :
  exists z : Z, (0 <= z)%Z
    /\ relevanceScore (scoredR softwareDevelopers 0) = (IZR z / 100)%R.
Proof.
  apply (relevanceScore_hundredths computerTaxonomy (programNamed "Computer") 10).
  rewrite computer_matches. now left.
Defined.

(** ** The bracketed span of an answer *)

Lemma fromFirstOpen_Some (s rest : string) :
  fromFirstOpen s = Some rest ->
  exists pre, s = (pre ++ String "[" rest)%string /\ noChar "[" pre.
Proof.
  revert rest. induction s as [| c s IH]; intros rest; [discriminate |].
  cbn [fromFirstOpen]. destruct (Ascii.eqb c "[") eqn:E.
  - intros [= <-]. apply Ascii.eqb_eq in E. subst c.
    now exists EmptyString.
  - intros H. destruct (IH rest H) as [pre [-> Hpre]].
    exists (String c pre). split; [reflexivity |].
    unfold noChar in *. cbn [allChars]. now rewrite E, Hpre.
Qed.

Lemma fromFirstOpen_None (s : string) :
  fromFirstOpen s = None -> noChar "[" s.
Proof.
  unfold noChar. induction s as [| c s IH]; [reflexivity |].
  cbn [fromFirstOpen allChars]. destruct (Ascii.eqb c "["); [discriminate |].
  intros H. now rewrite IH.
Qed.

Lemma throughLastClose_None (s : string) :
  throughLastClose s = None <-> noChar "]" s.
Proof.
  unfold noChar. induction s as [| c s IH]; [now split |].
  cbn [throughLastClose allChars].
  destruct (throughLastClose s) as [p |].
  - split; [discriminate |]. intros H. apply andb_true_iff in H.
    destruct H as [_ H]. apply IH in H. discriminate.
  - destruct (Ascii.eqb c "]"); cbn [negb andb].
    + split; discriminate.
    + split; [intros _; now apply IH | reflexivity].
Qed.

Lemma throughLastClose_Some (s p : string) :
  throughLastClose s = Some p ->
  exists mid post,
    s = (mid ++ String "]" post)%string /\ p = (mid ++ "]")%string
    /\ noChar "]" post.
Proof.
  revert p. induction s as [| c s IH]; intros p; [discriminate |].
  cbn [throughLastClose]. destruct (throughLastClose s) as [q |] eqn:E.
  - intros [= <-]. destruct (IH q eq_refl) as [mid [post [-> [-> Hpost]]]].
    now exists (String c mid), post.
  - destruct (Ascii.eqb c "]") eqn:Ec; [| discriminate].
    intros [= <-]. apply Ascii.eqb_eq in Ec. subst c.
    exists EmptyString, s. repeat split. now apply throughLastClose_None.
Qed.

Lemma throughLastClose_append (mid post : string) :
  noChar "]" post ->
  throughLastClose (mid ++ String "]" post) = Some (mid ++ "]")%string.
Proof.
  intros Hpost. induction mid as [| c mid IH].
  - cbn [append throughLastClose].
    now rewrite (proj2 (throughLastClose_None post) Hpost).
  - change (String c mid ++ String "]" post)%string
      with (String c (mid ++ String "]" post)).
    cbn [throughLastClose]. now rewrite IH.
Qed.

Lemma noChar_append (c : ascii) (a b : string) :
  noChar c (a ++ b) <-> noChar c a /\ noChar c b.
Proof. unfold noChar. rewrite allChars_append. apply andb_true_iff. Qed.

Lemma noChar_cons (c d : ascii) (s : string) :
  noChar c (String d s) <-> d <> c /\ noChar c s.
Proof.
  unfold noChar. cbn [allChars]. rewrite andb_true_iff, negb_true_iff.
  now rewrite Ascii.eqb_neq.
Qed.

(** The first opening bracket of a text that has one. *)
Lemma fromFirstOpen_append (pre rest : string) :
  exists pre' rest',
    fromFirstOpen (pre ++ String "[" rest) = Some rest'
    /\ (pre ++ String "[" rest)%string = (pre' ++ String "[" rest')%string
    /\ exists gap, rest' = (gap ++ rest)%string.
Proof.
  induction pre as [| c pre IH].
  - exists EmptyString, rest. repeat split. now exists EmptyString.
  - change (String c pre ++ String "[" rest)%string
      with (String c (pre ++ String "[" rest)).
    cbn [fromFirstOpen]. destruct (Ascii.eqb c "[") eqn:E.
    + apply Ascii.eqb_eq in E. subst c.
      exists EmptyString, (pre ++ String "[" rest)%string.
      repeat split. exists (pre ++ "[")%string.
      now rewrite append_assoc.
    + destruct IH as [pre' [rest' [H1 [H2 H3]]]].
      exists (String c pre'), rest'. repeat split; [exact H1 | | exact H3].
      simpl. now rewrite H2.
Qed.

Lemma matchJsonArray_span_aux (content span : string) :
  matchJsonArray content = Some span ->
  exists pre mid post, content = (pre ++ "[" ++ mid ++ "]" ++ post)%string.
Proof.
  intros H. unfold matchJsonArray in H.
  destruct (fromFirstOpen content) as [rest |] eqn:E; [| discriminate].
  destruct (throughLastClose rest) as [p |] eqn:Ep; [| discriminate].
  destruct (fromFirstOpen_Some _ _ E) as [pre [-> _]].
  destruct (throughLastClose_Some _ _ Ep) as [mid [post [-> _]]].
  now exists pre, mid, post.
Qed.

(** X10.  The span that goes to [JSON.parse] runs from the first opening
    bracket of the content to its last closing bracket: there is no span
    exactly when no opening bracket is followed by a closing one, and a
    content that is a bracketed text from end to end is taken whole. *)
Theorem matchJsonArray_span (content : string) :
  (forall span, matchJsonArray content = Some span ->
     exists pre mid post,
       content = (pre ++ "[" ++ mid ++ "]" ++ post)%string
       /\ span = ("[" ++ mid ++ "]")%string
       /\ noChar "[" pre /\ noChar "]" post)
  /\ (matchJsonArray content = None <->
      forall pre mid post,
        content <> (pre ++ "[" ++ mid ++ "]" ++ post)%string)
  /\ (forall mid, content = ("[" ++ mid ++ "]")%string ->
                  matchJsonArray content = Some content).
Proof.
  split; [| split].
  - intros span H. unfold matchJsonArray in H.
    destruct (fromFirstOpen content) as [rest |] eqn:E; [| discriminate].
    destruct (throughLastClose rest) as [p |] eqn:Ep; [| discriminate].
    injection H as <-.
    destruct (fromFirstOpen_Some _ _ E) as [pre [-> Hpre]].
    destruct (throughLastClose_Some _ _ Ep) as [mid [post [-> [-> Hpost]]]].
    exists pre, mid, post. repeat split; assumption.
  - split.
    + intros H pre mid post Heq. unfold matchJsonArray in H.
      destruct (fromFirstOpen_append pre (mid ++ String "]" post))
        as [pre' [rest' [H1 [_ [gap H3]]]]].
      change (pre ++ "[" ++ mid ++ "]" ++ post)%string
        with (pre ++ String "[" (mid ++ String "]" post))%string in Heq.
      rewrite Heq, H1 in H.
      destruct (throughLastClose rest') as [p |] eqn:Ep; [discriminate |].
      apply throughLastClose_None in Ep. rewrite H3 in Ep.
      apply noChar_append in Ep. destruct Ep as [_ Ep].
      apply noChar_append in Ep. destruct Ep as [_ Ep].
      apply noChar_cons in Ep. destruct Ep as [Ep _]. congruence.
    + intros H. destruct (matchJsonArray content) as [span |] eqn:E;
        [| reflexivity].
      exfalso.
      destruct (matchJsonArray_span_aux content span E)
        as [pre [mid [post Heq]]].
      exact (H pre mid post Heq).
  - intros mid ->. unfold matchJsonArray.
    change ("[" ++ mid ++ "]")%string with (String "[" (mid ++ String "]" "")).
    cbn [fromFirstOpen]. rewrite Ascii.eqb_refl.
    rewrite throughLastClose_append by reflexivity. reflexivity.
Qed.

(** ** Sessions *)

Lemma get_mapDelete_same {V : Type} (m : JsMap.t V) (k : string) :
  JsMap.get (mapDelete m k) k = None.
Proof.
  unfold mapDelete. induction m as [| [k' v] m IH]; simpl; [reflexivity |].
  destruct (String.eqb k' k) eqn:E; simpl; [exact IH |]. now rewrite E.
Qed.

Lemma get_mapDelete_other {V : Type} (m : JsMap.t V) (k k' : string) :
  k <> k' -> JsMap.get (mapDelete m k) k' = JsMap.get m k'.
Proof.
  intros Hne. unfold mapDelete.
  induction m as [| [k0 v] m IH]; simpl; [reflexivity |].
  destruct (String.eqb k0 k) eqn:E; simpl.
  - apply String.eqb_eq in E. subst k0.
    apply String.eqb_neq in Hne. now rewrite Hne.
  - now rewrite IH.
Qed.

(** A validity check binds nothing new. *)
Lemma isValidSession_shrinks (now : Z) (sessions : Sessions)
  (token : option string) (u : string) (e : Z) :
  JsMap.get (snd (isValidSession now sessions token)) u = Some e ->
  JsMap.get sessions u = Some e.
Proof.
  unfold isValidSession. destruct token as [t |]; [| exact (fun H => H)].
  destruct (String.eqb t ""); [exact (fun H => H) |].
  destruct (JsMap.get sessions t) as [expiry |]; [| exact (fun H => H)].
  destruct (expiry =? 0)%Z; [exact (fun H => H) |].
  destruct (now >? expiry)%Z; [| exact (fun H => H)].
  cbn [snd]. destruct (string_dec t u) as [<- | Hne].
  - now rewrite get_mapDelete_same.
  - now rewrite get_mapDelete_other.
Qed.

Lemma isValidSession_true (now : Z) (sessions : Sessions)
  (token : option string) :
  fst (isValidSession now sessions token) = true ->
  exists t expiry,
    token = Some t /\ t <> EmptyString
    /\ JsMap.get sessions t = Some expiry /\ (now <= expiry)%Z.
Proof.
  unfold isValidSession. destruct token as [t |]; [| discriminate].
  destruct (String.eqb t "") eqn:Et; [discriminate |].
  destruct (JsMap.get sessions t) as [expiry |] eqn:G; [| discriminate].
  destruct (expiry =? 0)%Z; [discriminate |].
  destruct (now >? expiry)%Z eqn:E; [discriminate |]. intros _.
  exists t, expiry. apply String.eqb_neq in Et.
  rewrite Z.gtb_ltb in E. apply Z.ltb_ge in E.
  split; [reflexivity |]. split; [exact Et |]. split; [exact G | exact E].
Qed.

Section AuthFacts.
Variable sha256 : string -> string.
Variable ACCESS_CODE_HASH : string.

Lemma login_accepts (now : Z) (randomToken : string) (sessions : Sessions)
  (accessCode : string) :
  accessCode <> EmptyString ->
  sha256 (trim accessCode) = ACCESS_CODE_HASH ->
  login sha256 ACCESS_CODE_HASH now randomToken sessions (Some accessCode) =
  (AuthToken randomToken "24h",
   JsMap.set sessions randomToken (now + SESSION_TTL_MS)%Z).
Proof.
  intros Hne Hhash. unfold login.
  apply String.eqb_neq in Hne. rewrite Hne, Hhash, String.eqb_refl.
  reflexivity.
Qed.

(** A login changes the store only when the code is right, and then only
    at the token it issues. *)
Lemma login_get (now : Z) (randomToken : string) (sessions : Sessions)
  (codeField : option string) (u : string) (e : Z) :
  JsMap.get (snd (login sha256 ACCESS_CODE_HASH now randomToken sessions
                    codeField)) u = Some e ->
  JsMap.get sessions u = Some e
  \/ (u = randomToken /\ e = (now + SESSION_TTL_MS)%Z
      /\ exists accessCode,
           codeField = Some accessCode /\ accessCode <> EmptyString
           /\ sha256 (trim accessCode) = ACCESS_CODE_HASH).
Proof.
  unfold login. destruct codeField as [accessCode |]; [| now left].
  destruct (String.eqb accessCode "") eqn:Ec; [now left |].
  destruct (String.eqb (sha256 (trim accessCode)) ACCESS_CODE_HASH) eqn:Eh;
    cbn [negb snd]; [| now left].
  destruct (string_dec randomToken u) as [<- | Hne].
  - rewrite get_set_same. intros [= <-]. right.
    split; [reflexivity |]. split; [reflexivity |].
    exists accessCode. apply String.eqb_neq in Ec. apply String.eqb_eq in Eh.
    now repeat split.
  - rewrite get_set_other by assumption. now left.
Qed.

(** Every session of the store was issued by a login with the right code,
    and expires 24 hours after that login. *)
Lemma runAuth_sessions (events : list AuthEvent) (u : string) (e : Z) :
  JsMap.get (runAuth sha256 ACCESS_CODE_HASH events) u = Some e ->
  exists issued accessCode,
    In (Login issued u (Some accessCode)) events
    /\ accessCode <> EmptyString
    /\ sha256 (trim accessCode) = ACCESS_CODE_HASH
    /\ e = (issued + SESSION_TTL_MS)%Z.
Proof.
  unfold runAuth. revert u e.
  induction events as [| ev events IH] using rev_ind; intros u e;
    [discriminate |].
  rewrite fold_left_app. cbn [fold_left]. intros H.
  assert (Hold : JsMap.get (fold_left (authStep sha256 ACCESS_CODE_HASH) events
                              JsMap.empty) u = Some e ->
                 exists issued accessCode,
                   In (Login issued u (Some accessCode)) (events ++ [ev])
                   /\ accessCode <> EmptyString
                   /\ sha256 (trim accessCode) = ACCESS_CODE_HASH
                   /\ e = (issued + SESSION_TTL_MS)%Z).
  { intros Hget. destruct (IH u e Hget) as [issued [c [H1 H2]]].
    exists issued, c. split; [apply in_or_app; now left | exact H2]. }
  destruct ev as [now randomToken codeField | now token]; cbn [authStep] in H.
  - apply login_get in H.
    destruct H as [H | [-> [-> [c [-> [Hc Hh]]]]]]; [now apply Hold |].
    exists now, c. split; [apply in_or_app; right; now left | now repeat split].
  - apply isValidSession_shrinks in H. now apply Hold.
Qed.

(** X11.  A token is accepted only if a login with the right access code
    issued it, at most 24 hours before: whenever a validity check succeeds,
    or [requireAuth] lets a request through, after any history of logins
    and checks, that history holds such a login. *)
Theorem session_accepted_only_after_login (events : list AuthEvent)
  (now : Z) (token : option string) :
  let sessions := runAuth sha256 ACCESS_CODE_HASH events in
  (fst (isValidSession now sessions token) = true ->
   exists t issued accessCode,
     token = Some t
     /\ In (Login issued t (Some accessCode)) events
     /\ sha256 (trim accessCode) = ACCESS_CODE_HASH
     /\ (now <= issued + SESSION_TTL_MS)%Z)
  /\ (forall (A : Type) (next : Sessions -> A),
        fst (isValidSession now sessions token) = false ->
        fst (requireAuth now sessions token next) = Unauthorized).
Proof.
  intros sessions. split.
  - intros H. apply isValidSession_true in H.
    destruct H as [t [expiry [-> [_ [Hget Hle]]]]].
    apply runAuth_sessions in Hget.
    destruct Hget as [issued [c [H1 [_ [H2 ->]]]]].
    now exists t, issued, c.
  - intros A next H. unfold requireAuth.
    destruct (isValidSession now sessions token) as [valid s1].
    cbn [fst] in H. now rewrite H.
Qed.

(** X12.  After a login with the right code at time [issued], the issued
    token is valid at every time up to [issued + 24h] and at no later time;
    and once a check has found it expired the session is gone, so that every
    later check fails, whatever the clock says. *)
Theorem session_lifetime (issued now later : Z) (randomToken : string)
  (sessions : Sessions) (accessCode : string) :
  accessCode <> EmptyString ->
  sha256 (trim accessCode) = ACCESS_CODE_HASH ->
  randomToken <> EmptyString ->
  (0 <= issued)%Z ->
  let sessions1 :=
    snd (login sha256 ACCESS_CODE_HASH issued randomToken sessions
           (Some accessCode)) in
  fst (isValidSession now sessions1 (Some randomToken))
  = (now <=? issued + SESSION_TTL_MS)%Z
  /\ ((issued + SESSION_TTL_MS < now)%Z ->
      fst (isValidSession later
             (snd (isValidSession now sessions1 (Some randomToken)))
             (Some randomToken)) = false).
Proof.
  intros Hc Hh Ht Hi sessions1. unfold sessions1.
  rewrite login_accepts by assumption. cbn [snd].
  unfold isValidSession at 1 3.
  apply String.eqb_neq in Ht. rewrite Ht, get_set_same.
  assert (Hz : ((issued + SESSION_TTL_MS =? 0) = false)%Z)
    by (apply Z.eqb_neq; unfold SESSION_TTL_MS; lia).
  rewrite Hz. split.
  - rewrite Z.gtb_ltb.
    destruct (Z.ltb_spec (issued + SESSION_TTL_MS) now) as [E | E]; cbn [fst];
      symmetry; [apply Z.leb_gt | apply Z.leb_le]; lia.
  - intros Hlate.
    replace (now >? issued + SESSION_TTL_MS)%Z with true
      by (symmetry; apply Z.gtb_lt; lia).
    cbn [snd]. unfold isValidSession. rewrite Ht, get_mapDelete_same.
    reflexivity.
Qed.

End AuthFacts.

Lemma session_accepted_only_after_login_witness :
  exists t issued accessCode,
    Some "ab12" = Some t
    /\ In (Login issued t (Some accessCode))
          [Login 1000 "ab12" (Some " code ")]
    /\ (fun s => "hash") (trim accessCode) = "hash"
    /\ (2000 <= issued + SESSION_TTL_MS)%Z.
Proof.
  apply (session_accepted_only_after_login (fun _ => "hash") "hash"
           [Login 1000 "ab12" (Some " code ")] 2000 (Some "ab12")).
  reflexivity.
Defined.

Lemma session_lifetime_witness :
  fst (isValidSession 86401000
         (snd (login (fun _ => "hash") "hash" 1000 "ab12" JsMap.empty
                 (Some " code ")))
         (Some "ab12"))
  = (86401000 <=? 1000 + SESSION_TTL_MS)%Z.
Proof.
  apply (session_lifetime (fun _ => "hash") "hash" 1000 86401000 0 "ab12"
           JsMap.empty " code ");
    first [discriminate | reflexivity | lia].
Defined.

(** ** Trimming *)

Lemma trimStart_spaces (pad s : string) :
  allChars JsString.isSpace pad = true -> trimStart (pad ++ s) = trimStart s.
Proof.
  induction pad as [| c pad IH]; [reflexivity |]. simpl. intros H.
  apply andb_true_iff in H. destruct H as [Hc Hp]. rewrite Hc. now apply IH.
Qed.



Lemma trimStart_all_spaces (pad : string) :
  allChars JsString.isSpace pad = true -> trimStart pad = EmptyString.
Proof.
  intros H. rewrite <- (append_empty_r pad). now rewrite trimStart_spaces.
Qed.




(** ** The .env file *)

Lemma get_setEnv_other (env : Env) (k key val : string) :
  k <> key -> JsMap.get (setEnv env k val) key = JsMap.get env key.
Proof.
  intros H. unfold setEnv. destruct (String.eqb k ""); [reflexivity |].
  now apply get_set_other.
Qed.


Lemma loadEnvLine_parse (env : Env) (line : string) :
  loadEnvLine env line =
  match parseEnvLine line with
  | None => env
  | Some (key, val) =>
      match JsMap.get env key with
      | Some (String _ _) => env
      | _ => setEnv env key val
      end
  end.
Proof.
  unfold loadEnvLine, parseEnvLine.
  destruct (String.eqb (trim line) "" || String.prefix "#" (trim line));
    [reflexivity |].
  now destruct (indexOfChar "=" (trim line)).
Qed.

Lemma loadEnvLine_keeps (env : Env) (line key value : string) :
  JsMap.get env key = Some value -> value <> EmptyString ->
  JsMap.get (loadEnvLine env line) key = Some value.
Proof.
  intros Hget Hne. rewrite loadEnvLine_parse.
  destruct (parseEnvLine line) as [[k v] |]; [| exact Hget].
  destruct (string_dec k key) as [-> | Hk].
  - rewrite Hget. destruct value; [congruence | exact Hget].
  - destruct (JsMap.get env k) as [[| c s] |]; try exact Hget;
      now rewrite get_setEnv_other.
Qed.

Lemma fold_loadEnvLine_keeps (lines : list string) (env : Env)
  (key value : string) :
  JsMap.get env key = Some value -> value <> EmptyString ->
  JsMap.get (fold_left loadEnvLine lines env) key = Some value.
Proof.
  revert env. induction lines as [| line lines IH]; intros env Hget Hne;
    [exact Hget |].
  cbn [fold_left]. apply IH; [| exact Hne]. now apply loadEnvLine_keeps.
Qed.

Lemma loadEnvLine_other (env : Env) (line key : string) :
  (forall value, parseEnvLine line <> Some (key, value)) ->
  JsMap.get (loadEnvLine env line) key = JsMap.get env key.
Proof.
  intros H. rewrite loadEnvLine_parse.
  destruct (parseEnvLine line) as [[k v] |]; [| reflexivity].
  assert (Hk : k <> key) by (intros ->; now apply (H v)).
  destruct (JsMap.get env k) as [[| c s] |]; try reflexivity;
    now rewrite get_setEnv_other.
Qed.


(** X14.  Loading the .env file never changes a variable that is set to a
    non-empty value: the environment of the process takes precedence over
    the file. *)
Theorem loadEnv_precedence (content : string) (env : Env)
  (key value : string) :
  JsMap.get env key = Some value -> value <> EmptyString ->
  JsMap.get (loadEnv content env) key = Some value.
Proof. intros H Hne. unfold loadEnv. now apply fold_loadEnvLine_keeps. Qed.

Lemma loadEnv_precedence_witness :
  JsMap.get (loadEnv "PORT=8080" [("PORT", "3456")]) "PORT" = Some "3456".
Proof. apply loadEnv_precedence; [reflexivity | discriminate]. Defined.

Lemma splitLines_cons (s : string) :
  exists line lines, splitLines s = line :: lines.
Proof.
  induction s as [| c s [line [lines IH]]]; simpl; [now eexists; eexists |].
  destruct (Ascii.eqb c (ascii_of_nat 10)); [now eexists; eexists |].
  rewrite IH. now eexists; eexists.
Qed.






(** ** Searching the taxonomy *)

Lemma searchHit_spec (q : string) (s : RawEntry) :
  searchHit q s = true <->
  forall word, In word (JsString.split q) -> substringOf word (haystack s).
Proof.
  unfold searchHit. rewrite forallb_forall. split; intros H word Hw.
  - apply includes_spec. now apply H.
  - apply includes_spec. now apply H.
Qed.

Lemma firstn_filter_complete {A : Type} (n : nat) (l : list A) (x : A) :
  length (firstn n l) < n -> In x l -> In x (firstn n l).
Proof.
  intros Hlen Hin. rewrite length_firstn in Hlen.
  rewrite firstn_all2 by lia. exact Hin.
Qed.

(** X16.  A search with a query that is not blank returns, in taxonomy
    order, the first 50 records whose haystack (code, title and labels,
    lower-cased) holds every white-space separated piece of the trimmed,
    lower-cased query; [total] counts the returned records, and when fewer
    than 50 are returned no matching record is left out. *)
Theorem socSearch_results (socCodes : list RawEntry) (qParam q : string) :
  trim (JsString.toLowerCase qParam) = q -> q <> EmptyString ->
  let answer := socSearch socCodes (Some qParam) in
  let matching s :=
    forall word, In word (JsString.split q) -> substringOf word (haystack s) in
  query answer = Some q
  /\ total answer = length (results answer)
  /\ length (results answer) <= 50
  /\ (exists rest, filter (searchHit q) socCodes = results answer ++ rest)
  /\ Forall (fun s => In s socCodes /\ matching s) (results answer)
  /\ (length (results answer) < 50 ->
      forall s, In s socCodes -> matching s -> In s (results answer)).
Proof.
  intros Hq Hne answer matching. unfold answer, socSearch. rewrite Hq.
  apply String.eqb_neq in Hne. rewrite Hne. cbn [query total results].
  split; [reflexivity |]. split; [reflexivity |].
  split; [rewrite length_firstn; lia |]. split; [| split].
  - exists (skipn 50 (filter (searchHit q) socCodes)).
    symmetry. apply firstn_skipn.
  - apply Forall_forall. intros s Hs.
    assert (Hf : In s (filter (searchHit q) socCodes)).
    { rewrite <- (firstn_skipn 50). apply in_or_app. now left. }
    apply filter_In in Hf. destruct Hf as [Hin Hhit].
    split; [exact Hin | exact (proj1 (searchHit_spec q s) Hhit)].
  - intros Hlen s Hin Hm. apply firstn_filter_complete; [exact Hlen |].
    apply filter_In. split; [exact Hin | exact (proj2 (searchHit_spec q s) Hm)].
Qed.

Lemma socSearch_results_witness :
  total (socSearch
           [ {| rawCode := "15-1252"; rawTitle := "Software Developers";
                rawMajorGroup := Label "Computer and Mathematical";
                rawMinorGroup := LabelAbsent; rawBroadGroup := LabelNull |} ]
           (Some "  Software   15-12 "))
  = 1.
Proof.
  pose proof (socSearch_results
    [ {| rawCode := "15-1252"; rawTitle := "Software Developers";
         rawMajorGroup := Label "Computer and Mathematical";
         rawMinorGroup := LabelAbsent; rawBroadGroup := LabelNull |} ]
    "  Software   15-12 " "software   15-12" eq_refl) as H.
  cbv zeta in H. destruct H as [_ [Htotal _]]; [discriminate |].
  rewrite Htotal. reflexivity.
Defined.

Lemma toLowerCase_spaces (s : string) :
  allChars JsString.isSpace (JsString.toLowerCase s)
  = allChars JsString.isSpace s.
Proof.
  unfold JsString.toLowerCase. induction s as [| c s IH]; [reflexivity |].
  cbn [JsString.mapChars allChars]. rewrite IH. f_equal.
  destruct c as [[] [] [] [] [] [] [] []]; reflexivity.
Qed.

(** X17.  A search ignores the letter case of the query.  A query that is
    absent or holds white space only returns no record, and reports the
    size of the whole taxonomy as [total]. *)
Theorem socSearch_blank_and_case (socCodes : list RawEntry)
  (qParam : string) :
  socSearch socCodes (Some (JsString.toLowerCase qParam))
  = socSearch socCodes (Some qParam)
  /\ socSearch socCodes None
     = {| results := []; total := length socCodes; query := None |}
  /\ (allChars JsString.isSpace qParam = true ->
      socSearch socCodes (Some qParam)
      = {| results := []; total := length socCodes; query := None |}).
Proof.
  split; [| split].
  - unfold socSearch. now rewrite toLowerCase_idempotent.
  - reflexivity.
  - intros H. unfold socSearch, trim.
    rewrite trimStart_all_spaces by (now rewrite toLowerCase_spaces).
    reflexivity.
Qed.

Lemma socSearch_blank_and_case_witness :
  socSearch [] (Some "   ")
  = {| results := []; total := 0; query := None |}.
Proof. now apply (socSearch_blank_and_case [] "   "). Defined.

(** ** The filters of a school *)

Lemma ascii_compare_N (a b : ascii) :
  Ascii.compare a b = N.compare (N_of_ascii a) (N_of_ascii b).
Proof. reflexivity. Qed.

Lemma ascii_compare_Eq (a b : ascii) : Ascii.compare a b = Eq -> a = b.
Proof. apply Ascii.compare_eq_iff. Qed.

Lemma ascii_compare_refl (a : ascii) : Ascii.compare a a = Eq.
Proof. rewrite ascii_compare_N. apply N.compare_refl. Qed.

Lemma string_compare_trans_Lt (x y z : string) :
  String.compare x y = Lt -> String.compare y z = Lt ->
  String.compare x z = Lt.
Proof.
  revert y z. induction x as [| a x IH]; intros [| b y] [| c z];
    simpl; try discriminate; try reflexivity.
  destruct (Ascii.compare a b) eqn:Eab; try discriminate;
    destruct (Ascii.compare b c) eqn:Ebc; try discriminate; intros H1 H2.
  - apply ascii_compare_Eq in Eab. apply ascii_compare_Eq in Ebc. subst.
    rewrite ascii_compare_refl. now apply (IH y z).
  - apply ascii_compare_Eq in Eab. subst. now rewrite Ebc.
  - apply ascii_compare_Eq in Ebc. subst. now rewrite Eab.
  - assert (Hac : Ascii.compare a c = Lt).
    { rewrite ascii_compare_N in *. apply N.compare_lt_iff.
      apply N.lt_trans with (m := N_of_ascii b); now apply N.compare_lt_iff. }
    now rewrite Hac.
Qed.

Lemma string_compare_refl (x : string) : String.compare x x = Eq.
Proof.
  induction x as [| a x IH]; simpl; [reflexivity |].
  now rewrite ascii_compare_refl.
Qed.

Lemma string_compare_not_Gt (x y : string) :
  String.compare x y <> Gt <-> String.compare x y = Lt \/ x = y.
Proof.
  destruct (String.compare x y) eqn:E.
  - apply String.compare_eq_iff in E. split; [now right | discriminate].
  - split; [now left | discriminate].
  - split; [congruence |]. intros [H | ->]; [discriminate |].
    rewrite string_compare_refl in E. discriminate.
Qed.

Lemma string_compare_total (x y : string) :
  String.compare x y = Gt -> String.compare y x <> Gt.
Proof.
  intros H. rewrite String.compare_antisym, H. discriminate.
Qed.

Lemma string_compare_trans (x y z : string) :
  String.compare x y <> Gt -> String.compare y z <> Gt ->
  String.compare x z <> Gt.
Proof.
  rewrite !string_compare_not_Gt.
  intros [H1 | ->] [H2 | ->]; try (now left); try (now right).
  left. now apply (string_compare_trans_Lt x y z).
Qed.

Lemma StronglySorted_strict (l : list string) :
  NoDup l -> StronglySorted (fun a b => String.compare a b <> Gt) l ->
  StronglySorted (fun a b => String.compare a b = Lt) l.
Proof.
  intros Hnd Hs. induction Hs as [| x l Hs IH Hall]; [constructor |].
  inversion Hnd as [| ? ? Hx Hl]; subst. constructor; [now apply IH |].
  rewrite Forall_forall in *. intros y Hy.
  destruct (proj1 (string_compare_not_Gt x y) (Hall y Hy)) as [H | ->];
    [exact H | contradiction].
Qed.

Lemma filterBoolean_In (fields : list (option string)) (v : string) :
  In v (filterBoolean fields) <-> v <> EmptyString /\ In (Some v) fields.
Proof.
  unfold filterBoolean. rewrite in_flat_map. split.
  - intros [[s |] [Hin Hv]]; [| contradiction].
    destruct (String.eqb s "") eqn:E; [contradiction |].
    destruct Hv as [<- | []]. apply String.eqb_neq in E. now split.
  - intros [Hne Hin]. exists (Some v). split; [exact Hin |].
    apply String.eqb_neq in Hne. rewrite Hne. now left.
Qed.

Lemma unique_spec (programs : list ProgramData)
  (field : ProgramData -> option string) :
  StronglySorted (fun a b => String.compare a b = Lt) (unique programs field)
  /\ (forall v, In v (unique programs field) <->
                v <> EmptyString
                /\ exists p, In p programs /\ field p = Some v).
Proof.
  unfold unique.
  set (values := fold_left JsSet.add (filterBoolean (map field programs))
                   JsSet.empty).
  assert (Hnd : NoDup values) by (apply fold_add_NoDup; constructor).
  split.
  - apply StronglySorted_strict.
    + eapply Permutation_NoDup; [apply sort_Permutation | exact Hnd].
    + apply sort_sorted; [apply string_compare_total |
                          apply string_compare_trans].
  - intros v. rewrite sort_In. unfold values.
    rewrite fold_add_In, filterBoolean_In, in_map_iff. split.
    + intros [[] | [Hne [p [Hp Hin]]]]. split; [exact Hne | now exists p].
    + intros [Hne [p [Hin Hp]]]. right. split; [exact Hne | now exists p].
Qed.

(** X18.  The filters of a known school list, for each of the five fields,
    the non-empty values that occur in the programs of the school, each
    once, in strictly ascending code-unit order; [totalPrograms] counts the
    programs; an unknown school id gives the answer 404. *)
Theorem schoolFilters_spec (schoolData : JsMap.t (list ProgramData))
  (schoolId : string) :
  (~ In schoolId (map fst SCHOOLS) ->
   schoolFilters schoolData schoolId = SchoolNotFound)
  /\ (In schoolId (map fst SCHOOLS) ->
      exists body,
        schoolFilters schoolData schoolId = FiltersOf body
        /\ let programs :=
             match JsMap.get schoolData schoolId with
             | Some ps => ps
             | None => []
             end in
           totalPrograms body = length programs
           /\ Forall
                (fun column : list string * (ProgramData -> option string) =>
                   StronglySorted (fun a b => String.compare a b = Lt)
                     (fst column)
                   /\ forall v, In v (fst column) <->
                        v <> EmptyString
                        /\ exists p, In p programs /\ snd column p = Some v)
                [ (types body, type);
                  (degreeDesignations body, degreeDesignation);
                  (colleges body, college); (levels body, level);
                  (cipCodes body, cipCode) ]).
Proof.
  split.
  - intros H. unfold schoolFilters.
    destruct (find (fun s => String.eqb (fst s) schoolId) SCHOOLS)
      as [school |] eqn:E; [| reflexivity].
    apply find_some in E. destruct E as [Hin Heq].
    apply String.eqb_eq in Heq. exfalso. apply H. rewrite <- Heq.
    now apply in_map.
  - intros H. unfold schoolFilters.
    destruct (find (fun s => String.eqb (fst s) schoolId) SCHOOLS)
      as [school |] eqn:E.
    + apply find_some in E. destruct E as [_ Heq].
      apply String.eqb_eq in Heq. rewrite Heq.
      eexists. split; [reflexivity |]. cbv zeta.
      cbn [totalPrograms types degreeDesignations colleges levels cipCodes].
      split; [reflexivity |].
      repeat (apply Forall_cons; [cbn [fst snd]; apply unique_spec |]).
      apply Forall_nil.
    + exfalso. apply in_map_iff in H. destruct H as [school [Hs Hin]].
      pose proof (find_none _ _ E school Hin) as Hn. cbn beta in Hn.
      rewrite Hs, String.eqb_refl in Hn. discriminate.
Qed.

Lemma schoolFilters_spec_witness :
  exists body,
    schoolFilters
      [("ufl", [programNamed "Nursing"; noProgram; programNamed "Nursing"])]
      "ufl"
    = FiltersOf body.
Proof.
  destruct (schoolFilters_spec
              [("ufl", [programNamed "Nursing"; noProgram; programNamed "Nursing"])]
              "ufl") as [_ H].
  destruct H as [body [H _]]; [right; now left |].
  now exists body.
Defined.

(** ** The combined call: ranking and labor-market data *)

Lemma strictEq_string (s : option json) (c : string) :
  strictEq s (Some (JStr c)) = true <-> s = Some (JStr c).
Proof.
  split.
  - destruct s as [[| b | x | t | items | props] |]; cbn; try discriminate.
    intros H. apply String.eqb_eq in H. now subst.
  - intros ->. cbn. apply String.eqb_refl.
Qed.

Lemma findOccupation_found (wanted : option json) (occupations : list json)
  (o : json) :
  findOccupation wanted occupations = Normal (Some o) ->
  In o occupations
  /\ exists s, Js.prop (Some o) "socCode" = Normal s
               /\ strictEq s wanted = true.
Proof.
  induction occupations as [| o' rest IH]; cbn [findOccupation].
  - discriminate.
  - destruct (Js.prop (Some o') "socCode") as [s |] eqn:Es; [| discriminate].
    cbn [bind]. destruct (strictEq s wanted) eqn:Eq.
    + intros [= <-]. split; [now left | now exists s].
    + intros H. destruct (IH H) as [Hin Hs]. split; [now right | exact Hs].
Qed.

Lemma findOccupation_missing (wanted : option json) (occupations : list json) :
  findOccupation wanted occupations = Normal None ->
  forall o, In o occupations ->
    exists s, Js.prop (Some o) "socCode" = Normal s
              /\ strictEq s wanted = false.
Proof.
  induction occupations as [| o' rest IH]; cbn [findOccupation].
  - intros _ o [].
  - destruct (Js.prop (Some o') "socCode") as [s |] eqn:Es; [| discriminate].
    cbn [bind]. destruct (strictEq s wanted) eqn:Eq; [discriminate |].
    intros H o [<- | Hin]; [now exists s | now apply IH].
Qed.

(** Only an object has a [socCode]. *)
Lemma hasSocCode_truthy (c : string) (o : json) :
  hasSocCode c o -> Js.truthy (Some o) = true.
Proof.
  unfold hasSocCode. destruct o; cbn; try discriminate. reflexivity.
Qed.

Section MatchAndFetchFacts.
Context {N : Number}.
Variable JSON_parse : string -> option json.
Variable OPENAI_API_KEY : string.
Variable socCodes : list OccupationEntry.

Lemma enrichWithLmi_inv (occupations : option json) (m : AnyMatch)
  (e : EnrichedMatch) :
  enrichWithLmi occupations m = Normal e ->
  baseMatch e = m
  /\ exists items occ,
       occupations = Some (JArr items)
       /\ findOccupation (anyCode m) items = Normal occ
       /\ lmiData e = Js.or occ (Some JNull)
       /\ hasLMI e = Js.truthy occ
       /\ (Js.truthy occ = false -> lmiFields e = None).
Proof.
  unfold enrichWithLmi.
  destruct occupations as [[| b | x | t | items | props] |]; try discriminate.
  destruct (findOccupation (anyCode m) items) as [occ |] eqn:Ef;
    [| discriminate].
  cbn [bind].
  destruct (Js.optProp occ "laborMarketData") as [lm |] eqn:El;
    [| discriminate].
  cbn [bind].
  assert (Hlm : Js.truthy occ = false -> Js.truthy lm = false).
  { intros Hocc.
    destruct occ as [[| b | x | t | its | props] |]; cbn in El;
      try (injection El as <-; reflexivity); try discriminate. }
  destruct (Js.truthy lm) eqn:Et.
  - destruct (flattenLmi lm) as [flat |]; [| discriminate]. cbn [bind].
    intros [= <-]. split; [reflexivity |]. exists items, occ.
    split; [reflexivity |]. split; [exact Ef |]. split; [reflexivity |].
    split; [reflexivity |].
    intros Hocc. apply Hlm in Hocc. discriminate.
  - cbn [bind]. intros [= <-]. split; [reflexivity |]. exists items, occ.
    split; [reflexivity |]. split; [exact Ef |]. split; [reflexivity |].
    split; [reflexivity |]. intros _. reflexivity.
Qed.

(** What a 200 answer of the route rests on. *)
Lemma matchAndFetchRoute_200 (aiOutcome : FetchOutcome)
  (lmi : LmiRequest -> FetchOutcome) (body : MatchAndFetchRequest)
  (r : MatchAndFetchResponse) :
  matchAndFetchRoute JSON_parse OPENAI_API_KEY socCodes aiOutcome lmi body
  = Fetched200 r ->
  exists programData occupations,
    mfProgram body = Some programData
    /\ lmi (lmiRequestOf body
              (chosenMatches JSON_parse OPENAI_API_KEY socCodes aiOutcome
                 body programData))
       = BodyParsed (lmiRaw r)
    /\ dataFieldOrEmpty (lmiRaw r) "matchedOccupations" = Normal occupations
    /\ mapM (enrichWithLmi occupations)
         (chosenMatches JSON_parse OPENAI_API_KEY socCodes aiOutcome
            body programData)
       = Normal (mfMatches r).
Proof.
  unfold matchAndFetchRoute, matchAndFetchBody.
  destruct (mfProgram body) as [programData |]; [| discriminate].
  cbv zeta.
  destruct (lmi _) as [| | fetched] eqn:El; try discriminate.
  cbn [bind].
  destruct (dataFieldOrEmpty fetched "matchedOccupations")
    as [occupations |] eqn:Eo; [| discriminate].
  cbn [bind].
  destruct (mapM _ _) as [enriched |] eqn:Em; [| discriminate].
  cbn [bind].
  destruct (dataFieldOrEmpty fetched "warnings") as [warnings |];
    [| discriminate].
  cbn [bind tryCatch]. intros [= <-]. cbn [lmiRaw mfMatches].
  exists programData, occupations. repeat split; assumption.
Qed.

Lemma mapM_base (occupations : option json) (matches : list AnyMatch)
  (enriched : list EnrichedMatch) :
  mapM (enrichWithLmi occupations) matches = Normal enriched ->
  map baseMatch enriched = matches.
Proof.
  intros H. apply mapM_Forall2 in H.
  induction H as [| m e matches enriched He _ IH]; [reflexivity |].
  cbn [map]. f_equal; [| exact IH].
  now destruct (enrichWithLmi_inv _ _ _ He).
Qed.

Lemma mapM_enriched (occupations : option json) (matches : list AnyMatch)
  (enriched : list EnrichedMatch) (e : EnrichedMatch) :
  mapM (enrichWithLmi occupations) matches = Normal enriched ->
  In e enriched ->
  enrichWithLmi occupations (baseMatch e) = Normal e.
Proof.
  intros H. apply mapM_Forall2 in H.
  induction H as [| m e' matches enriched He _ IH]; [intros [] |].
  intros [<- | Hin]; [| now apply IH].
  destruct (enrichWithLmi_inv _ _ _ He) as [-> _]. exact He.
Qed.

Lemma mapM_withoutLmi (matches : list AnyMatch) :
  mapM (enrichWithLmi (Some (JArr []))) matches
  = Normal (map withoutLmi matches).
Proof.
  induction matches as [| m matches IH]; [reflexivity |].
  cbn [mapM map]. rewrite IH. reflexivity.
Qed.

End MatchAndFetchFacts.

Lemma optProp_total (v : option json) (k : string) :
  exists r, Js.optProp v k = Normal r.
Proof.
  destruct v as [[| b | x | t | items | props] |]; cbn; now eexists.
Qed.

(** Reading a field of [data] throws only on the answer [null]. *)
Lemma dataFieldOrEmpty_total (fetched : json) (k : string) :
  fetched <> JNull -> exists r, dataFieldOrEmpty fetched k = Normal r.
Proof.
  intros H. unfold dataFieldOrEmpty.
  destruct (Js.prop (Some fetched) "data") as [data |] eqn:Ed.
  - cbn [bind]. destruct (optProp_total data k) as [field ->]. cbn [bind].
    now eexists.
  - destruct fetched; cbn in Ed; congruence.
Qed.

Lemma dataFieldOrEmpty_not_null (fetched : json) (k : string)
  (r : option json) :
  dataFieldOrEmpty fetched k = Normal r -> fetched <> JNull.
Proof.
  intros H ->. discriminate.
Qed.

(** X19.  The combined call has no fallback for the labor-market request:
    when that request is rejected, or its answer has no JSON body, or the
    body is [null], the route answers a request that has a program with
    status 500, whatever the ranking found. *)
Theorem matchAndFetch_upstream_failure {N : Number}
  (JSON_parse : string -> option json) (OPENAI_API_KEY : string)
  (socCodes : list OccupationEntry) (aiOutcome : FetchOutcome)
  (lmi : LmiRequest -> FetchOutcome) (body : MatchAndFetchRequest)
  (programData : ProgramData) (upstream : FetchOutcome) :
  mfProgram body = Some programData ->
  lmi (lmiRequestOf body
         (chosenMatches JSON_parse OPENAI_API_KEY socCodes aiOutcome body
            programData)) = upstream ->
  upstream = FetchRejects \/ upstream = BodyRejects
  \/ upstream = BodyParsed JNull ->
  matchAndFetchRoute JSON_parse OPENAI_API_KEY socCodes aiOutcome lmi body
  = Fetched500.
Proof.
  intros Hp Hl Hu. unfold matchAndFetchRoute, matchAndFetchBody.
  rewrite Hp. cbv zeta. rewrite Hl.
  destruct Hu as [-> | [-> | ->]]; reflexivity.
Qed.

Lemma matchAndFetch_upstream_failure_witness :
  matchAndFetchRoute (N := R_number) (fun _ => None) "" computerTaxonomy
    FetchRejects (fun _ => BodyRejects)
    {| mfProgram := Some (programNamed "Computer"); mfTopN := None;
       mfRegionType := None; mfRegion := None; mfUseAI := None |}
  = Fetched500.
Proof.
  apply (matchAndFetch_upstream_failure (N := R_number) (fun _ => None) ""
           computerTaxonomy FetchRejects (fun _ => BodyRejects)
           {| mfProgram := Some (programNamed "Computer"); mfTopN := None;
              mfRegionType := None; mfRegion := None; mfUseAI := None |}
           (programNamed "Computer") BodyRejects eq_refl eq_refl).
  right. now left.
Defined.

(** X20.  The route does not look at the status of the labor-market answer:
    any JSON body that lists no occupation (such as the body of an error
    answer, which has no [data]) gives status 200, with that body passed on
    as [lmiRaw] and every match of the ranking marked as having no
    labor-market data. *)
Theorem matchAndFetch_no_occupations {N : Number}
  (JSON_parse : string -> option json) (OPENAI_API_KEY : string)
  (socCodes : list OccupationEntry) (aiOutcome : FetchOutcome)
  (lmi : LmiRequest -> FetchOutcome) (body : MatchAndFetchRequest)
  (programData : ProgramData) (fetched : json) :
  mfProgram body = Some programData ->
  lmi (lmiRequestOf body
         (chosenMatches JSON_parse OPENAI_API_KEY socCodes aiOutcome body
            programData)) = BodyParsed fetched ->
  dataFieldOrEmpty fetched "matchedOccupations" = Normal (Some (JArr [])) ->
  exists r,
    matchAndFetchRoute JSON_parse OPENAI_API_KEY socCodes aiOutcome lmi body
    = Fetched200 r
    /\ lmiRaw r = fetched
    /\ mfMatches r =
       map withoutLmi
         (chosenMatches JSON_parse OPENAI_API_KEY socCodes aiOutcome body
            programData).
Proof.
  intros Hp Hl Ho. unfold matchAndFetchRoute, matchAndFetchBody.
  rewrite Hp. cbv zeta. rewrite Hl. cbn [bind]. rewrite Ho. cbn [bind].
  rewrite mapM_withoutLmi. cbn [bind].
  destruct (dataFieldOrEmpty_total fetched "warnings"
              (dataFieldOrEmpty_not_null _ _ _ Ho)) as [warnings ->].
  cbn [bind tryCatch]. eexists. split; [reflexivity |].
  split; reflexivity.
Qed.

Lemma matchAndFetch_no_occupations_witness :
  exists r,
    matchAndFetchRoute (N := R_number) (fun _ => None) "" computerTaxonomy
      FetchRejects (fun _ => BodyParsed (JObj [("error", JStr "Unauthorized")]))
      {| mfProgram := Some (programNamed "Computer"); mfTopN := None;
         mfRegionType := None; mfRegion := None; mfUseAI := None |}
    = Fetched200 r
    /\ lmiRaw r = JObj [("error", JStr "Unauthorized")]
    /\ mfMatches r =
       map withoutLmi
         (chosenMatches (fun _ => None) "" computerTaxonomy FetchRejects
            {| mfProgram := Some (programNamed "Computer"); mfTopN := None;
               mfRegionType := None; mfRegion := None; mfUseAI := None |}
            (programNamed "Computer")).
Proof.
  exact (matchAndFetch_no_occupations (N := R_number) (fun _ => None) ""
           computerTaxonomy FetchRejects
           (fun _ => BodyParsed (JObj [("error", JStr "Unauthorized")]))
           {| mfProgram := Some (programNamed "Computer"); mfTopN := None;
              mfRegionType := None; mfRegion := None; mfUseAI := None |}
           (programNamed "Computer") (JObj [("error", JStr "Unauthorized")])
           eq_refl eq_refl eq_refl).
Defined.

(** X21.  A 200 answer of the combined call holds one enriched match for
    each match of the ranking, in the ranking's order.  A match marked
    [hasLMI] carries as [lmiData] an item of the listed occupations whose
    [socCode] is strictly equal to the match's code; a match not so marked
    carries [null] and no flattened field. *)
Theorem matchAndFetch_enrichment {N : Number}
  (JSON_parse : string -> option json) (OPENAI_API_KEY : string)
  (socCodes : list OccupationEntry) (aiOutcome : FetchOutcome)
  (lmi : LmiRequest -> FetchOutcome) (body : MatchAndFetchRequest)
  (r : MatchAndFetchResponse) :
  matchAndFetchRoute JSON_parse OPENAI_API_KEY socCodes aiOutcome lmi body
  = Fetched200 r ->
  exists programData,
    mfProgram body = Some programData
    /\ map baseMatch (mfMatches r) =
       chosenMatches JSON_parse OPENAI_API_KEY socCodes aiOutcome body
         programData
    /\ Forall
         (fun e =>
            if hasLMI e then
              exists items occ s,
                dataFieldOrEmpty (lmiRaw r) "matchedOccupations"
                = Normal (Some (JArr items))
                /\ In occ items
                /\ lmiData e = Some occ
                /\ Js.prop (Some occ) "socCode" = Normal s
                /\ strictEq s (anyCode (baseMatch e)) = true
            else lmiData e = Some JNull /\ lmiFields e = None)
         (mfMatches r).
Proof.
  intros H.
  destruct (matchAndFetchRoute_200 _ _ _ _ _ _ _ H)
    as [programData [occupations [Hp [_ [Ho Hm]]]]].
  exists programData. split; [exact Hp |].
  split; [exact (mapM_base _ _ _ Hm) |].
  apply Forall_forall. intros e Hin.
  pose proof (mapM_enriched _ _ _ _ Hm Hin) as He.
  destruct (enrichWithLmi_inv _ _ _ He)
    as [_ [items [occ [Hitems [Hf [Hd [Hh Hnone]]]]]]].
  rewrite Hh. destruct (Js.truthy occ) eqn:Et.
  - destruct occ as [o |]; [| discriminate].
    destruct (findOccupation_found _ _ _ Hf) as [Hino [s [Hs Heq]]].
    exists items, o, s. subst occupations.
    split; [exact Ho |]. split; [exact Hino |].
    split; [| split; [exact Hs | exact Heq]].
    rewrite Hd. unfold Js.or. now rewrite Et.
  - split; [| now apply Hnone].
    rewrite Hd. unfold Js.or. now rewrite Et.
Qed.

(** X22.  For a match whose code is a string (every local match is one),
    [hasLMI] says exactly whether the labor-market answer lists an
    occupation with that [socCode]. *)
Theorem hasLMI_iff_listed {N : Number}
  (JSON_parse : string -> option json) (OPENAI_API_KEY : string)
  (socCodes : list OccupationEntry) (aiOutcome : FetchOutcome)
  (lmi : LmiRequest -> FetchOutcome) (body : MatchAndFetchRequest)
  (r : MatchAndFetchResponse) (items : list json) (e : EnrichedMatch)
  (c : string) :
  matchAndFetchRoute JSON_parse OPENAI_API_KEY socCodes aiOutcome lmi body
  = Fetched200 r ->
  dataFieldOrEmpty (lmiRaw r) "matchedOccupations"
  = Normal (Some (JArr items)) ->
  In e (mfMatches r) ->
  anyCode (baseMatch e) = Some (JStr c) ->
  (hasLMI e = true <-> exists o, In o items /\ hasSocCode c o).
Proof.
  intros H Hitems Hin Hc.
  destruct (matchAndFetchRoute_200 _ _ _ _ _ _ _ H)
    as [programData [occupations [Hp [_ [Ho Hm]]]]].
  rewrite Hitems in Ho. injection Ho as <-.
  pose proof (mapM_enriched _ _ _ _ Hm Hin) as He.
  destruct (enrichWithLmi_inv _ _ _ He)
    as [_ [items' [occ [Heq [Hf [_ [Hh _]]]]]]].
  injection Heq as <-. rewrite Hc in Hf. rewrite Hh.
  split.
  - intros Ht. destruct occ as [o |]; [| discriminate].
    destruct (findOccupation_found _ _ _ Hf) as [Hino [s [Hs Hs']]].
    exists o. split; [exact Hino |].
    apply strictEq_string in Hs'. subst s. exact Hs.
  - intros [o [Hino Hso]]. destruct occ as [o' |].
    + destruct (findOccupation_found _ _ _ Hf) as [_ [s [Hs Hs']]].
      apply strictEq_string in Hs'. subst s.
      now apply (hasSocCode_truthy c).
    + destruct (findOccupation_missing _ _ Hf o Hino) as [s [Hs Hs']].
      unfold hasSocCode in Hso. rewrite Hso in Hs. injection Hs as <-.
      rewrite (proj2 (strictEq_string _ _) eq_refl) in Hs'. discriminate.
Qed.

(** X23.  The ranking of the combined call falls back to the local one:
    when the external ranking is not asked for, no key is set, or the
    external call fails, the matches of a 200 answer are the local ranking
    (five matches unless the request says otherwise), and their codes are
    what is sent to the labor-market endpoint. *)
Theorem matchAndFetch_local_fallback {N : Number}
  (JSON_parse : string -> option json) (OPENAI_API_KEY : string)
  (socCodes : list OccupationEntry) (aiOutcome : FetchOutcome)
  (lmi : LmiRequest -> FetchOutcome) (body : MatchAndFetchRequest)
  (programData : ProgramData) :
  mfProgram body = Some programData ->
  mfUseAI body = None \/ mfUseAI body = Some false
  \/ OPENAI_API_KEY = ""
  \/ ExternalFailure JSON_parse (socByCode (buildIndex socCodes)) aiOutcome ->
  socCodesSent
    (lmiRequestOf body
       (chosenMatches JSON_parse OPENAI_API_KEY socCodes aiOutcome body
          programData))
  = map anyCode (localRanking socCodes body programData)
  /\ forall r,
       matchAndFetchRoute JSON_parse OPENAI_API_KEY socCodes aiOutcome lmi body
       = Fetched200 r ->
       map baseMatch (mfMatches r) = localRanking socCodes body programData.
Proof.
  intros Hp Hwhy.
  assert (Hc : chosenMatches JSON_parse OPENAI_API_KEY socCodes aiOutcome body
                 programData = localRanking socCodes body programData).
  { unfold chosenMatches, localRanking. cbv zeta.
    destruct Hwhy as [-> | [-> | Hfail]]; [reflexivity | reflexivity |].
    rewrite (matchSocCodesWithAI_failure JSON_parse OPENAI_API_KEY _ _ Hfail).
    now destruct (_ && _). }
  split.
  - cbn [lmiRequestOf socCodesSent]. now rewrite Hc.
  - intros r H.
    destruct (matchAndFetchRoute_200 _ _ _ _ _ _ _ H)
      as [programData' [occupations [Hp' [_ [_ Hm]]]]].
    rewrite Hp in Hp'. injection Hp' as <-.
    rewrite Hc in Hm. exact (mapM_base _ _ _ Hm).
Qed.

Lemma matchAndFetch_local_fallback_witness :
  socCodesSent
    (lmiRequestOf
       {| mfProgram := Some (programNamed "Computer"); mfTopN := None;
          mfRegionType := None; mfRegion := None; mfUseAI := Some true |}
       (chosenMatches (N := R_number) (fun _ => None) "sk-key"
          computerTaxonomy FetchRejects
          {| mfProgram := Some (programNamed "Computer"); mfTopN := None;
             mfRegionType := None; mfRegion := None; mfUseAI := Some true |}
          (programNamed "Computer")))
  = map anyCode
      (localRanking computerTaxonomy
         {| mfProgram := Some (programNamed "Computer"); mfTopN := None;
            mfRegionType := None; mfRegion := None; mfUseAI := Some true |}
         (programNamed "Computer")).
Proof.
  refine (proj1 (matchAndFetch_local_fallback (N := R_number) (fun _ => None)
                   "sk-key" computerTaxonomy FetchRejects
                   (fun _ => BodyRejects)
                   {| mfProgram := Some (programNamed "Computer");
                      mfTopN := None; mfRegionType := None; mfRegion := None;
                      mfUseAI := Some true |}
                   (programNamed "Computer") eq_refl _)).
  right. right. right. constructor.
Defined.

(** X24.  A successful external ranking replaces the local one altogether:
    the matches of the combined call are then the external matches, and
    only their codes are sent to the labor-market endpoint; an empty
    external answer leaves the call with no match at all. *)
Theorem matchAndFetch_external_replaces {N : Number}
  (JSON_parse : string -> option json) (OPENAI_API_KEY : string)
  (socCodes : list OccupationEntry) (aiOutcome : FetchOutcome)
  (lmi : LmiRequest -> FetchOutcome) (body : MatchAndFetchRequest)
  (programData : ProgramData) (ai : list Ai.Match) :
  mfProgram body = Some programData ->
  mfUseAI body = Some true ->
  matchSocCodesWithAI JSON_parse OPENAI_API_KEY
    (socByCode (buildIndex socCodes)) aiOutcome = Some ai ->
  socCodesSent
    (lmiRequestOf body
       (chosenMatches JSON_parse OPENAI_API_KEY socCodes aiOutcome body
          programData))
  = map Ai.code ai
  /\ forall r,
       matchAndFetchRoute JSON_parse OPENAI_API_KEY socCodes aiOutcome lmi body
       = Fetched200 r ->
       map baseMatch (mfMatches r) = map ExternalMatch ai.
Proof.
  intros Hp Hu Hai.
  assert (Hc : chosenMatches JSON_parse OPENAI_API_KEY socCodes aiOutcome body
                 programData = map ExternalMatch ai).
  { unfold chosenMatches. cbv zeta. rewrite Hu, Hai.
    unfold matchSocCodesWithAI in Hai.
    destruct (String.eqb OPENAI_API_KEY ""); [discriminate | reflexivity]. }
  split.
  - cbn [lmiRequestOf socCodesSent]. rewrite Hc, map_map. reflexivity.
  - intros r H.
    destruct (matchAndFetchRoute_200 _ _ _ _ _ _ _ H)
      as [programData' [occupations [Hp' [_ [_ Hm]]]]].
    rewrite Hp in Hp'. injection Hp' as <-.
    rewrite Hc in Hm. exact (mapM_base _ _ _ Hm).
Qed.

(** The worked combined call, whatever the numbers are. *)
Lemma combined_call_answer {N : Number} :
  matchAndFetchRoute parseAnswer "sk-key" computerTaxonomy
    (BodyParsed completionsAnswer) (fun _ => BodyParsed lmiAnswer)
    combinedRequest
  = Fetched200 combinedAnswer.
Proof. vm_compute. reflexivity. Qed.

Lemma matchAndFetch_enrichment_witness :
  exists programData,
    mfProgram combinedRequest = Some programData
    /\ map baseMatch (mfMatches (combinedAnswer (N := R_number))) =
       chosenMatches parseAnswer "sk-key" computerTaxonomy
         (BodyParsed completionsAnswer) combinedRequest programData.
Proof.
  destruct (matchAndFetch_enrichment (N := R_number) parseAnswer "sk-key"
              computerTaxonomy (BodyParsed completionsAnswer)
              (fun _ => BodyParsed lmiAnswer) combinedRequest combinedAnswer
              combined_call_answer) as [programData [Hp [Hm _]]].
  exists programData. split; [exact Hp | exact Hm].
Defined.

Lemma hasLMI_iff_listed_witness :
  hasLMI (enrichedDevelopers (N := R_number)) = true <->
  exists o, In o [developersOccupation] /\ hasSocCode "15-1252" o.
Proof.
  apply (hasLMI_iff_listed (N := R_number) parseAnswer "sk-key"
           computerTaxonomy (BodyParsed completionsAnswer)
           (fun _ => BodyParsed lmiAnswer) combinedRequest combinedAnswer
           [developersOccupation] enrichedDevelopers "15-1252"
           combined_call_answer eq_refl).
  - left. reflexivity.
  - reflexivity.
Defined.

Lemma matchAndFetch_external_replaces_witness :
  socCodesSent
    (lmiRequestOf combinedRequest
       (chosenMatches (N := R_number) parseAnswer "sk-key" computerTaxonomy
          (BodyParsed completionsAnswer) combinedRequest
          (programNamed "Computer")))
  = map Ai.code [externalDevelopers].
Proof.
  refine (proj1 (matchAndFetch_external_replaces (N := R_number) parseAnswer
                   "sk-key" computerTaxonomy (BodyParsed completionsAnswer)
                   (fun _ => BodyParsed lmiAnswer) combinedRequest
                   (programNamed "Computer") [externalDevelopers]
                   eq_refl eq_refl _)).
  vm_compute. reflexivity.
Defined.

(** ** The validation script: groups and batches *)

Section ValidateFacts.
Context {Program : Type}.
Variable cipCodeOf : Program -> string.

Lemma groupProgram_get (m : JsMap.t (list Program)) (p : Program)
  (c : string) :
  JsMap.get (groupProgram cipCodeOf m p) c =
  if String.eqb (cipCodeOf p) c then Some (groupOf m (cipCodeOf p) ++ [p])
  else JsMap.get m c.
Proof.
  unfold groupProgram, groupOf, JsMap.has.
  destruct (String.eqb (cipCodeOf p) c) eqn:E.
  - apply String.eqb_eq in E. subst c.
    destruct (JsMap.get m (cipCodeOf p)) as [g |] eqn:G; cbn [negb].
    + exact (get_update_same m (cipCodeOf p) (fun group => group ++ [p]) g G).
    + apply (get_update_same _ (cipCodeOf p) (fun group => group ++ [p]) []).
      apply get_set_same.
  - apply String.eqb_neq in E. rewrite get_update_other by assumption.
    destruct (JsMap.get m (cipCodeOf p)); cbn [negb]; [reflexivity |].
    now apply get_set_other.
Qed.

Lemma keys_update_group (m : JsMap.t (list Program)) (k : string)
  (f : list Program -> list Program) :
  JsMap.keys (JsMap.update m k f) = JsMap.keys m.
Proof.
  unfold JsMap.update. destruct (JsMap.get m k) as [g |] eqn:G;
    [| reflexivity].
  rewrite keys_set. unfold JsSet.add. rewrite <- has_keys.
  unfold JsMap.has. now rewrite G.
Qed.

Lemma groupProgram_keys (m : JsMap.t (list Program)) (p : Program) :
  JsMap.keys (groupProgram cipCodeOf m p)
  = JsSet.add (JsMap.keys m) (cipCodeOf p).
Proof.
  unfold groupProgram. rewrite keys_update_group.
  destruct (JsMap.has m (cipCodeOf p)) eqn:H; cbn [negb].
  - unfold JsSet.add. now rewrite <- has_keys, H.
  - apply keys_set.
Qed.

Lemma fold_groupProgram_keys (programs : list Program)
  (m : JsMap.t (list Program)) :
  JsMap.keys (fold_left (groupProgram cipCodeOf) programs m)
  = fold_left JsSet.add (map cipCodeOf programs) (JsMap.keys m).
Proof.
  revert m. induction programs as [| p programs IH]; intros m;
    [reflexivity |].
  cbn [fold_left map]. now rewrite IH, groupProgram_keys.
Qed.

Lemma fold_groupProgram_groupOf (programs : list Program)
  (m : JsMap.t (list Program)) (c : string) :
  groupOf (fold_left (groupProgram cipCodeOf) programs m) c
  = groupOf m c ++ programsWith cipCodeOf c programs.
Proof.
  revert m. induction programs as [| p programs IH]; intros m.
  - cbn. now rewrite app_nil_r.
  - cbn [fold_left]. rewrite IH. unfold programsWith. cbn [filter].
    unfold groupOf at 1. rewrite groupProgram_get.
    destruct (String.eqb (cipCodeOf p) c) eqn:E.
    + apply String.eqb_eq in E. subst c. now rewrite <- app_assoc.
    + reflexivity.
Qed.

Lemma uniqueCips_fold (programs : list Program) :
  uniqueCips cipCodeOf programs
  = fold_left JsSet.add (map cipCodeOf programs) JsSet.empty.
Proof. apply fold_groupProgram_keys. Qed.

Lemma uniqueCips_NoDup (programs : list Program) :
  NoDup (uniqueCips cipCodeOf programs).
Proof. rewrite uniqueCips_fold. apply fold_add_NoDup. constructor. Qed.

Lemma uniqueCips_In (programs : list Program) (c : string) :
  In c (uniqueCips cipCodeOf programs) <->
  exists p, In p programs /\ cipCodeOf p = c.
Proof.
  rewrite uniqueCips_fold, fold_add_In, in_map_iff.
  split.
  - intros [[] | [p [Hc Hp]]]. now exists p.
  - intros [p [Hp Hc]]. right. now exists p.
Qed.

End ValidateFacts.

(** X25.  Grouping the programs by CIP code: the keys of the map are the
    CIP codes that some program has, each once, and the group of a code
    holds exactly the programs with that code, in the order of the query
    result. *)
Theorem cipCodesMap_groups {Program : Type} (cipCodeOf : Program -> string)
  (programs : list Program) :
  NoDup (uniqueCips cipCodeOf programs)
  /\ (forall c, In c (uniqueCips cipCodeOf programs) <->
                exists p, In p programs /\ cipCodeOf p = c)
  /\ (forall c, In c (uniqueCips cipCodeOf programs) ->
                JsMap.get (cipCodesMapOf cipCodeOf programs) c
                = Some (programsWith cipCodeOf c programs)).
Proof.
  split; [apply uniqueCips_NoDup |]. split; [apply uniqueCips_In |].
  intros c Hin.
  pose proof (fold_groupProgram_groupOf cipCodeOf programs JsMap.empty c)
    as Hg.
  fold (cipCodesMapOf cipCodeOf programs) in Hg.
  unfold groupOf in Hg. cbn [JsMap.get JsMap.empty app] in Hg.
  destruct (JsMap.get (cipCodesMapOf cipCodeOf programs) c) as [g |] eqn:G.
  - now rewrite Hg.
  - exfalso. apply get_None_keys in G. exact (G Hin).
Qed.

Lemma slice_length (l : list string) (i : nat) :
  i < length l ->
  length (slice l i (i + batchSize))
  = Nat.min batchSize (length l - i).
Proof.
  intros H. unfold slice. cbv zeta.
  rewrite length_firstn, length_skipn. unfold batchSize. lia.
Qed.

Lemma slice_rest (l : list string) (i : nat) :
  i < length l ->
  (slice l i (i + batchSize) ++ skipn (i + batchSize) l = skipn i l)%list.
Proof.
  intros H. unfold slice. cbv zeta.
  rewrite (Nat.min_l i (length l)) by lia.
  destruct (Nat.le_gt_cases (i + batchSize) (length l)) as [Hle | Hgt].
  - rewrite (Nat.min_l _ _ Hle).
    replace (i + batchSize - i) with batchSize by lia.
    replace (i + batchSize) with (batchSize + i) by lia.
    rewrite <- skipn_skipn. apply firstn_skipn.
  - rewrite (Nat.min_r (i + batchSize) (length l)) by lia.
    rewrite (skipn_all2 l (n := i + batchSize)) by lia.
    rewrite app_nil_r. apply firstn_all2. rewrite length_skipn. lia.
Qed.

Lemma batchesFrom_concat (fuel i : nat) (l : list string) :
  length l <= i + fuel * batchSize ->
  concat (batchesFrom fuel i l) = skipn i l.
Proof.
  revert i. induction fuel as [| fuel IH]; intros i H; cbn [batchesFrom].
  - cbn. symmetry. apply skipn_all2. lia.
  - destruct (i <? length l) eqn:E.
    + apply Nat.ltb_lt in E. cbn [concat].
      rewrite IH by (unfold batchSize in *; lia).
      now apply slice_rest.
    + apply Nat.ltb_ge in E. cbn. symmetry. now apply skipn_all2.
Qed.

Lemma batchesFrom_sizes (fuel i : nat) (l : list string) :
  Forall (fun batch => 1 <= length batch <= batchSize) (batchesFrom fuel i l).
Proof.
  revert i. induction fuel as [| fuel IH]; intros i; cbn [batchesFrom].
  - constructor.
  - destruct (i <? length l) eqn:E; [| constructor].
    apply Nat.ltb_lt in E. constructor; [| apply IH].
    rewrite slice_length by assumption. unfold batchSize. lia.
Qed.

Lemma batchesFrom_fuel (fuel fuel' i : nat) (l : list string) :
  length l <= i + fuel * batchSize ->
  length l <= i + fuel' * batchSize ->
  batchesFrom fuel i l = batchesFrom fuel' i l.
Proof.
  revert fuel' i. induction fuel as [| fuel IH]; intros fuel' i H H'.
  - cbn. destruct fuel' as [| fuel']; [reflexivity |]. cbn [batchesFrom].
    replace (i <? length l) with false; [reflexivity |].
    symmetry. apply Nat.ltb_ge. lia.
  - cbn [batchesFrom]. destruct (i <? length l) eqn:E.
    + apply Nat.ltb_lt in E. destruct fuel' as [| fuel']; [cbn in H'; lia |].
      cbn [batchesFrom]. apply Nat.ltb_lt in E. rewrite E.
      f_equal. apply IH; unfold batchSize in *; lia.
    + destruct fuel' as [| fuel']; [reflexivity |].
      cbn [batchesFrom]. now rewrite E.
Qed.

Lemma batchesFrom_count (fuel i : nat) (l : list string) :
  length l <= i + fuel * batchSize ->
  length (batchesFrom fuel i l) * batchSize < length l - i + batchSize
  /\ length l - i <= length (batchesFrom fuel i l) * batchSize.
Proof.
  revert i. induction fuel as [| fuel IH]; intros i H; cbn [batchesFrom].
  - cbn. unfold batchSize in *. lia.
  - destruct (i <? length l) eqn:E.
    + apply Nat.ltb_lt in E. cbn [length].
      specialize (IH (i + batchSize)). unfold batchSize in *. lia.
    + apply Nat.ltb_ge in E. cbn. unfold batchSize. lia.
Qed.

(** X26.  The batches of the validation script split the list of unique
    CIP codes into consecutive pieces: put together they give the list
    back, each holds between 1 and 25 codes, there are as many as 25 goes
    into the number of codes, rounded up, and further rounds of the loop
    add nothing. *)
Theorem batches_partition (uniqueCips : list string) :
  concat (batches uniqueCips) = uniqueCips
  /\ Forall (fun batch => 1 <= length batch <= batchSize) (batches uniqueCips)
  /\ length (batches uniqueCips) = (length uniqueCips + 24) / 25
  /\ (forall fuel, length uniqueCips <= fuel ->
        batchesFrom fuel 0 uniqueCips = batches uniqueCips).
Proof.
  assert (Hfuel : forall fuel, length uniqueCips <= fuel ->
                    length uniqueCips <= 0 + fuel * batchSize).
  { intros fuel H. unfold batchSize. lia. }
  split; [| split; [| split]].
  - unfold batches. rewrite batchesFrom_concat by now apply Hfuel.
    reflexivity.
  - apply batchesFrom_sizes.
  - destruct (batchesFrom_count (length uniqueCips) 0 uniqueCips
                (Hfuel _ (le_n _))) as [H1 H2].
    fold (batches uniqueCips) in H1, H2. unfold batchSize in H1, H2.
    apply (Nat.div_unique _ 25 _
      (length uniqueCips + 24 - 25 * length (batches uniqueCips))); lia.
  - intros fuel H. unfold batches.
    apply batchesFrom_fuel; now apply Hfuel.
Qed.

(** X27.  The validation script asks for every CIP code that a program of
    the query result has in exactly one batch, and for no other code. *)
Theorem every_cip_code_once {Program : Type} (cipCodeOf : Program -> string)
  (programs : list Program) (c : string) :
  (In c (concat (batches (uniqueCips cipCodeOf programs))) <->
   exists p, In p programs /\ cipCodeOf p = c)
  /\ NoDup (concat (batches (uniqueCips cipCodeOf programs))).
Proof.
  assert (H : concat (batches (uniqueCips cipCodeOf programs))
              = uniqueCips cipCodeOf programs).
  { unfold batches. rewrite batchesFrom_concat by (unfold batchSize; lia).
    reflexivity. }
  rewrite H. split; [apply uniqueCips_In | apply uniqueCips_NoDup].
Qed.
